(** * literal-sql: the SQLQuery builder of [mod.ts]

    A shallow embedding of the query builder (class [SQLQuery] of
    [mod.ts]) and the properties of its interpolator, fragment
    classifier, initial-query parser and renderer.

    Strings are sequences of 8-bit code units (Latin-1); the JavaScript
    string methods the class uses are given their meaning on that range.
    The class is embedded twice:
    - by value: a method that mutates [this] is a function from the old
      value of [this] to the new one (explicit state passing);
    - by reference ([Module Store]): objects and arrays live in a store
      and a method writes to the cells it reaches from [this], so that
      the copy made by the [sql] method and the aliasing it avoids are
      visible.
    The two agree: on an object that owns its cells, every method of the
    store runs to the end and leaves the object with the value the
    by-value method computes (lemmas [parseQuery_sim], [sql_sim], ...). *)

From stdpp Require Import gmap strings list fin_maps pretty.
From Stdlib Require Import Ascii.

(** ** Strings *)

Definition LF : ascii := "010"%char.
Definition NL : string := String LF "".

(** White space of [String.prototype.trim] and of the regular
    expression class [\s], below code unit 256: TAB, LF, VT, FF, CR,
    SPACE and NBSP. *)
Definition isWhiteSpace (c : ascii) : bool :=
  let n := nat_of_ascii c in
  ((9 <=? n) && (n <=? 13)) || (n =? 32) || (n =? 160).

Fixpoint allWhiteSpace (s : string) : bool :=
  match s with
  | EmptyString => true
  | String c s' => isWhiteSpace c && allWhiteSpace s'
  end.

Fixpoint trimStart (s : string) : string :=
  match s with
  | EmptyString => EmptyString
  | String c s' => if isWhiteSpace c then trimStart s' else s
  end.

Fixpoint trimEnd (s : string) : string :=
  match s with
  | EmptyString => EmptyString
  | String c s' =>
      match trimEnd s' with
      | EmptyString => if isWhiteSpace c then EmptyString else String c EmptyString
      | t => String c t
      end
  end.

(** [s.trim()] *)
Definition trim (s : string) : string := trimEnd (trimStart s).

Definition lowerChar (c : ascii) : ascii :=
  let n := nat_of_ascii c in
  if ((65 <=? n) && (n <=? 90))
     || ((192 <=? n) && (n <=? 222) && negb (n =? 215))
  then ascii_of_nat (n + 32) else c.

(** [s.toLowerCase()] *)
Fixpoint toLowerCase (s : string) : string :=
  match s with
  | EmptyString => EmptyString
  | String c s' => String (lowerChar c) (toLowerCase s')
  end.

(** [s.startsWith(p)] *)
Fixpoint startsWith (s p : string) {struct p} : bool :=
  match p with
  | EmptyString => true
  | String b p' =>
      match s with
      | EmptyString => false
      | String a s' => Ascii.eqb a b && startsWith s' p'
      end
  end.

(** [s.substring(n)] *)
Fixpoint substring_from (n : nat) (s : string) : string :=
  match n, s with
  | 0, _ => s
  | S n', String _ s' => substring_from n' s'
  | S _, EmptyString => EmptyString
  end.

(** [s.includes(sub)] *)
Fixpoint includes (s sub : string) : bool :=
  startsWith s sub ||
  match s with
  | EmptyString => false
  | String _ s' => includes s' sub
  end.

(** [s.split(sep)] for a one-character separator. *)
Fixpoint split (sep : ascii) (s : string) : list string :=
  match s with
  | EmptyString => [EmptyString]
  | String c s' =>
      if Ascii.eqb c sep then EmptyString :: split sep s'
      else match split sep s' with
           | cur :: rest => String c cur :: rest
           | [] => [String c EmptyString]
           end
  end.

(** [l.join(sep)] *)
Definition join (sep : string) (l : list string) : string := String.concat sep l.

(** Truthiness of a string: [if (s)], [filter((s) => s)]. *)
Definition nonEmpty (s : string) : bool :=
  match s with
  | EmptyString => false
  | String _ _ => true
  end.

(** [s.endsWith(p)] for a one-character [p]. *)
Fixpoint endsWithChar (s : string) (c : ascii) : bool :=
  match s with
  | EmptyString => false
  | String a EmptyString => Ascii.eqb a c
  | String _ s' => endsWithChar s' c
  end.

(** [line.match(/^\s*,\s*$/)]: white space, one comma, white space. *)
Definition matchCommaOnly (line : string) : bool :=
  match trimStart line with
  | String c rest => Ascii.eqb c ","%char && allWhiteSpace rest
  | EmptyString => false
  end.

(** [line.replace(/^,\s*/, "")] *)
Definition replaceLeadingComma (line : string) : string :=
  match line with
  | String c rest => if Ascii.eqb c ","%char then trimStart rest else line
  | EmptyString => EmptyString
  end.

(** [line.replace(/,\s*$/, "")]: the leftmost comma that only white
    space separates from the end of the string, and what follows it, is
    removed. *)
Fixpoint replaceTrailingComma (line : string) : string :=
  match line with
  | EmptyString => EmptyString
  | String c rest =>
      if Ascii.eqb c ","%char && allWhiteSpace rest then EmptyString
      else String c (replaceTrailingComma rest)
  end.

(** ** Values

    The values a template can embed.  A number is only ever stored, so
    its integer model loses nothing.  A plain object is the list of its
    own enumerable properties in the order [Object.values] enumerates
    them; an instance of [SQLQuery] is a reference into the store. *)

Definition loc := positive.

#[warnings="-register-all"]
Inductive Value : Type :=
  | VUndefined
  | VNull
  | VString (s : string)
  | VNumber (n : Z)
  | VBoolean (b : bool)
  | VObject (entries : list (string * Value))
  | VQuery (l : loc).

(** [value !== null && typeof value !== "object"], for a value that is
    not [undefined]. *)
Definition isPrimitive (v : Value) : bool :=
  match v with
  | VString _ | VNumber _ | VBoolean _ => true
  | _ => false
  end.

(** [Object.values(value)[0]] *)
Definition firstValue (entries : list (string * Value)) : Value :=
  match entries with
  | [] => VUndefined
  | (_, v) :: _ => v
  end.

(** ** The query, by value *)

Record QueryParts : Type := mkParts {
  select : list string;
  from : option string;
  joins : list string;
  where_ : list string;
  groupBy : list string;
  orderBy : list string;
  limit : option string;
  offset : option string
}.

Record SQLQuery : Type := mkQuery {
  parts : QueryParts;
  params : gmap nat Value;
  paramCounter : nat
}.

Definition emptyParts : QueryParts :=
  mkParts [] None [] [] [] [] None None.

(** [new SQLQuery()] *)
Definition emptyQuery : SQLQuery := mkQuery emptyParts ∅ 0.

Definition set_select (v : list string) (p : QueryParts) : QueryParts :=
  mkParts v (from p) (joins p) (where_ p) (groupBy p) (orderBy p) (limit p) (offset p).
Definition set_from (v : option string) (p : QueryParts) : QueryParts :=
  mkParts (select p) v (joins p) (where_ p) (groupBy p) (orderBy p) (limit p) (offset p).
Definition set_joins (v : list string) (p : QueryParts) : QueryParts :=
  mkParts (select p) (from p) v (where_ p) (groupBy p) (orderBy p) (limit p) (offset p).
Definition set_where (v : list string) (p : QueryParts) : QueryParts :=
  mkParts (select p) (from p) (joins p) v (groupBy p) (orderBy p) (limit p) (offset p).
Definition set_groupBy (v : list string) (p : QueryParts) : QueryParts :=
  mkParts (select p) (from p) (joins p) (where_ p) v (orderBy p) (limit p) (offset p).
Definition set_orderBy (v : list string) (p : QueryParts) : QueryParts :=
  mkParts (select p) (from p) (joins p) (where_ p) (groupBy p) v (limit p) (offset p).
Definition set_limit (v : option string) (p : QueryParts) : QueryParts :=
  mkParts (select p) (from p) (joins p) (where_ p) (groupBy p) (orderBy p) v (offset p).
Definition set_offset (v : option string) (p : QueryParts) : QueryParts :=
  mkParts (select p) (from p) (joins p) (where_ p) (groupBy p) (orderBy p) (limit p) v.

Definition with_parts (f : QueryParts → QueryParts) (q : SQLQuery) : SQLQuery :=
  mkQuery (f (parts q)) (params q) (paramCounter q).

(** *** Interpolator *)

Section Interpolator.
(** [String(value)] of an embedded [SQLQuery] instance: the text its
    [toString] gives when the template is interpolated. *)
Variable textOf : loc → string.

(** The callback of [strings.reduce] in [_interpolate]; [gap] is
    [None] when [i < values.length] fails and [values[i]] otherwise. *)
Definition interpolateStep (acc : string * SQLQuery) (str : string)
    (gap : option Value) : string * SQLQuery :=
  let '(result, this) := acc in
  match gap with
  | None => (result +:+ str, this)
  | Some VUndefined => (result +:+ str +:+ "NULL", this)
  | Some value =>
      if isPrimitive value then
        let n := S (paramCounter this) in
        (result +:+ str +:+ "$" +:+ pretty n,
         mkQuery (parts this) (<[n := value]> (params this)) n)
      else
        match value with
        | VObject entries =>
            let n := S (paramCounter this) in
            let paramValue := firstValue entries in
            (result +:+ str +:+ "$" +:+ pretty n,
             mkQuery (parts this) (<[n := paramValue]> (params this)) n)
        | VQuery l => (result +:+ str +:+ textOf l, this)
        | _ => (result +:+ str +:+ "null", this)
        end
  end.

Fixpoint interpolateFrom (i : nat) (strings : list string) (values : list Value)
    (acc : string * SQLQuery) : string * SQLQuery :=
  match strings with
  | [] => acc
  | str :: rest =>
      interpolateFrom (S i) rest values (interpolateStep acc str (values !! i))
  end.

(** [this._interpolate(strings, values)]: the text and the new [this]. *)
Definition _interpolate (strings : list string) (values : list Value)
    (this : SQLQuery) : string * SQLQuery :=
  interpolateFrom 0 strings values ("", this).
End Interpolator.

(** *** Initial-query parser and fragment classifier *)

Inductive Section_ : Type :=
  | SecSelect | SecFrom | SecJoins | SecWhere | SecGroupBy | SecOrderBy.

Definition isJoin (lower : string) : bool :=
  startsWith lower "join" || startsWith lower "left join"
  || startsWith lower "right join" || startsWith lower "inner join".

(** The body of the loop of [parseInitialQuery] for one line. *)
Definition parseLine (st : option Section_ * QueryParts) (line : string)
    : option Section_ * QueryParts :=
  let '(currentSection, p) := st in
  let lowerLine := toLowerCase line in
  if startsWith lowerLine "select" then
    let fieldsText := trim (substring_from 6 line) in
    (Some SecSelect,
     if nonEmpty fieldsText then set_select [fieldsText] p else set_select [] p)
  else if startsWith lowerLine "from" then
    (Some SecFrom, set_from (Some (trim (substring_from 4 line))) p)
  else if isJoin lowerLine then
    (Some SecJoins, set_joins (joins p ++ [line]) p)
  else if startsWith lowerLine "where" then
    (Some SecWhere, set_where (where_ p ++ [trim (substring_from 5 line)]) p)
  else if startsWith lowerLine "group by" then
    (Some SecGroupBy, set_groupBy (groupBy p ++ [trim (substring_from 8 line)]) p)
  else if startsWith lowerLine "order by" then
    (Some SecOrderBy, set_orderBy (orderBy p ++ [trim (substring_from 8 line)]) p)
  else if startsWith lowerLine "limit" then
    (currentSection, set_limit (Some (trim (substring_from 5 line))) p)
  else if startsWith lowerLine "offset" then
    (currentSection, set_offset (Some (trim (substring_from 6 line))) p)
  else
    match currentSection with
    | Some SecSelect =>
        if negb (String.eqb line ",") && negb (matchCommaOnly line) then
          let cleanedLine := replaceLeadingComma line in
          let finalLine := replaceTrailingComma cleanedLine in
          if nonEmpty finalLine
          then (currentSection, set_select (select p ++ [finalLine]) p)
          else (currentSection, p)
        else (currentSection, p)
    | Some SecWhere => (currentSection, set_where (where_ p ++ [line]) p)
    | Some SecGroupBy => (currentSection, set_groupBy (groupBy p ++ [line]) p)
    | Some SecOrderBy => (currentSection, set_orderBy (orderBy p ++ [line]) p)
    | _ => (currentSection, p)
    end.

(** [query.split("\n").map((line) => line.trim()).filter((line) => line)] *)
Definition queryLines (query : string) : list string :=
  filter (λ line, nonEmpty line = true) (trim <$> split LF query).

Definition parseLines (lines : list string) (st : option Section_ * QueryParts)
    : option Section_ * QueryParts :=
  fold_left parseLine lines st.

Definition parseInitialParts (query : string) (p : QueryParts) : QueryParts :=
  snd (parseLines (queryLines query) (None, p)).

(** [this.parseInitialQuery(query)] *)
Definition parseInitialQuery (query : string) (this : SQLQuery) : SQLQuery :=
  with_parts (parseInitialParts query) this.

(** The test of the branches of [parseQuery] that name a clause. *)
Definition isKeyword (lower : string) : bool :=
  startsWith lower "select" || startsWith lower "from" || isJoin lower
  || startsWith lower "where" || startsWith lower "and "
  || startsWith lower "or " || startsWith lower "group by"
  || startsWith lower "order by" || startsWith lower "limit"
  || startsWith lower "offset".

Definition parseQueryParts (query : string) (p : QueryParts) : QueryParts :=
  let trimmedQuery := trim query in
  let lowerQuery := toLowerCase trimmedQuery in
  if startsWith lowerQuery "select" then parseInitialParts trimmedQuery p
  else if startsWith lowerQuery "from" then
    set_from (Some (trim (substring_from 4 trimmedQuery))) p
  else if isJoin lowerQuery then set_joins (joins p ++ [trimmedQuery]) p
  else if startsWith lowerQuery "where" then
    set_where (where_ p ++ [trim (substring_from 5 trimmedQuery)]) p
  else if startsWith lowerQuery "and " then
    if 0 <? length (where_ p)
    then set_where (where_ p ++ ["AND " +:+ trim (substring_from 3 trimmedQuery)]) p
    else set_where (where_ p ++ [trim (substring_from 3 trimmedQuery)]) p
  else if startsWith lowerQuery "or " then
    if 0 <? length (where_ p)
    then set_where (where_ p ++ ["OR " +:+ trim (substring_from 2 trimmedQuery)]) p
    else set_where (where_ p ++ [trim (substring_from 2 trimmedQuery)]) p
  else if startsWith lowerQuery "group by" then
    set_groupBy (groupBy p ++ [trim (substring_from 8 trimmedQuery)]) p
  else if startsWith lowerQuery "order by" then
    set_orderBy (orderBy p ++ [trim (substring_from 8 trimmedQuery)]) p
  else if startsWith lowerQuery "limit" then
    set_limit (Some (trim (substring_from 5 trimmedQuery))) p
  else if startsWith lowerQuery "offset" then
    set_offset (Some (trim (substring_from 6 trimmedQuery))) p
  else if 0 <? length (where_ p)
  then set_where (where_ p ++ ["AND " +:+ trimmedQuery]) p
  else set_where (where_ p ++ [trimmedQuery]) p.

(** [this.parseQuery(query)] *)
Definition parseQuery (query : string) (this : SQLQuery) : SQLQuery :=
  with_parts (parseQueryParts query) this.

(** *** Renderer *)

(** The filter of the GROUP BY and ORDER BY entries in [toString]. *)
Definition validEntry (part : string) : bool :=
  nonEmpty part && negb (includes part ":undefined") && negb (String.eqb part ",").

Definition optBlock (b : bool) (text : string) : list string :=
  if b then [text] else [].

Definition selectBlock (p : QueryParts) : list string :=
  if 0 <? length (select p)
  then ["SELECT" +:+ NL +:+ "  " +:+ join ("," +:+ NL +:+ "  ") (select p)]
  else ["SELECT *"].

Definition fromBlock (p : QueryParts) : list string :=
  match from p with
  | Some f => optBlock (nonEmpty f) ("FROM " +:+ f)
  | None => []
  end.

Definition joinsBlock (p : QueryParts) : list string :=
  optBlock (0 <? length (joins p)) (join NL (joins p)).

Definition whereBlock (p : QueryParts) : list string :=
  optBlock (0 <? length (where_ p)) ("WHERE " +:+ join (NL +:+ "  ") (where_ p)).

Definition listBlock (keyword : string) (entries : list string) : list string :=
  if 0 <? length entries then
    let valid := filter (λ part, validEntry part = true) entries in
    optBlock (0 <? length valid) (keyword +:+ join ", " valid)
  else [].

Definition scalarBlock (keyword : string) (v : option string) : list string :=
  match v with
  | Some s => optBlock (negb (includes s ":undefined")) (keyword +:+ s)
  | None => []
  end.

(** The local array [parts] of [toString] when it is joined. *)
Definition renderBlocks (p : QueryParts) : list string :=
  selectBlock p ++ fromBlock p ++ joinsBlock p ++ whereBlock p
  ++ listBlock "GROUP BY " (groupBy p) ++ listBlock "ORDER BY " (orderBy p)
  ++ scalarBlock "LIMIT " (limit p) ++ scalarBlock "OFFSET " (offset p).

Definition renderParts (p : QueryParts) : string := join NL (renderBlocks p).

(** [this.toString()] *)
Definition toString (this : SQLQuery) : string := renderParts (parts this).

(** *** Parameter export *)

(** [Math.max(...Object.keys(this.params).map(Number))] *)
Definition maxParam (m : gmap nat Value) : nat := max_list (elements (dom m)).

Definition exportParams (m : gmap nat Value) : list Value :=
  if decide (size m = 0) then []
  else (λ i, default VUndefined (m !! i)) <$> seq 1 (maxParam m).

(** [this.parameters] *)
Definition parameters (this : SQLQuery) : list Value := exportParams (params this).

(** *** Construction and extension *)

Section Entry.
Variable textOf : loc → string.

(** [new SQLQuery(strings, ...values)]; [None] is a call without a
    template. *)
Definition newSQLQuery (template : option (list string * list Value)) : SQLQuery :=
  match template with
  | Some (strings, values) =>
      if 0 <? length strings then
        let '(fullQuery, this) := _interpolate textOf strings values emptyQuery in
        parseInitialQuery fullQuery this
      else emptyQuery
  | None => emptyQuery
  end.

(** [this.sql(strings, ...values)]: the value of the query returned. *)
Definition sql (strings : list string) (values : list Value) (this : SQLQuery)
    : SQLQuery :=
  let newQuery := mkQuery (parts this) (params this) (paramCounter this) in
  let '(fragment, newQuery) := _interpolate textOf strings values newQuery in
  parseQuery fragment newQuery.
End Entry.

(** ** The query, by reference

    The objects of the class as JavaScript holds them: an [SQLQuery]
    object refers to its [parts] object and to its [params] object, and
    the [parts] object refers to its five arrays.  A method is a
    computation on the store; it stops ([None]) only on a reference that
    the store does not hold. *)

Module Store.

Record PartsObj : Type := mkPartsObj {
  r_select : loc;
  r_from : option string;
  r_joins : loc;
  r_where : loc;
  r_groupBy : loc;
  r_orderBy : loc;
  r_limit : option string;
  r_offset : option string
}.

Record QueryObj : Type := mkQueryObj {
  r_parts : loc;
  r_params : loc;
  r_paramCounter : nat
}.

Record store : Type := mkStore {
  arrays : gmap loc (list string);
  partsObjs : gmap loc PartsObj;
  paramsObjs : gmap loc (gmap nat Value);
  queries : gmap loc QueryObj
}.

Definition emptyStore : store := mkStore ∅ ∅ ∅ ∅.

Definition M (A : Type) : Type := store → option (A * store).

#[global] Instance M_ret : MRet M := λ A a σ, Some (a, σ).
#[global] Instance M_bind : MBind M := λ A B k m σ,
  match m σ with
  | Some (a, σ') => k a σ'
  | None => None
  end.
Abbreviation ret := mret.

(** *** Cells *)

Definition allocArray (xs : list string) : M loc := λ σ,
  let l := fresh (dom (arrays σ)) in
  Some (l, mkStore (<[l := xs]> (arrays σ)) (partsObjs σ) (paramsObjs σ) (queries σ)).
Definition readArray (l : loc) : M (list string) := λ σ,
  match arrays σ !! l with
  | Some xs => Some (xs, σ)
  | None => None
  end.
Definition writeArray (l : loc) (xs : list string) : M unit := λ σ,
  match arrays σ !! l with
  | Some _ =>
      Some (tt, mkStore (<[l := xs]> (arrays σ)) (partsObjs σ) (paramsObjs σ) (queries σ))
  | None => None
  end.

Definition allocParts (p : PartsObj) : M loc := λ σ,
  let l := fresh (dom (partsObjs σ)) in
  Some (l, mkStore (arrays σ) (<[l := p]> (partsObjs σ)) (paramsObjs σ) (queries σ)).
Definition readParts (l : loc) : M PartsObj := λ σ,
  match partsObjs σ !! l with
  | Some p => Some (p, σ)
  | None => None
  end.
Definition writeParts (l : loc) (p : PartsObj) : M unit := λ σ,
  match partsObjs σ !! l with
  | Some _ =>
      Some (tt, mkStore (arrays σ) (<[l := p]> (partsObjs σ)) (paramsObjs σ) (queries σ))
  | None => None
  end.

Definition allocParams (m : gmap nat Value) : M loc := λ σ,
  let l := fresh (dom (paramsObjs σ)) in
  Some (l, mkStore (arrays σ) (partsObjs σ) (<[l := m]> (paramsObjs σ)) (queries σ)).
Definition readParams (l : loc) : M (gmap nat Value) := λ σ,
  match paramsObjs σ !! l with
  | Some m => Some (m, σ)
  | None => None
  end.
Definition writeParams (l : loc) (m : gmap nat Value) : M unit := λ σ,
  match paramsObjs σ !! l with
  | Some _ =>
      Some (tt, mkStore (arrays σ) (partsObjs σ) (<[l := m]> (paramsObjs σ)) (queries σ))
  | None => None
  end.

Definition allocQuery (q : QueryObj) : M loc := λ σ,
  let l := fresh (dom (queries σ)) in
  Some (l, mkStore (arrays σ) (partsObjs σ) (paramsObjs σ) (<[l := q]> (queries σ))).
Definition readQuery (l : loc) : M QueryObj := λ σ,
  match queries σ !! l with
  | Some q => Some (q, σ)
  | None => None
  end.
Definition writeQuery (l : loc) (q : QueryObj) : M unit := λ σ,
  match queries σ !! l with
  | Some _ =>
      Some (tt, mkStore (arrays σ) (partsObjs σ) (paramsObjs σ) (<[l := q]> (queries σ)))
  | None => None
  end.

(** *** Field access through [this] *)

(** [this.parts] *)
Definition thisParts (this : loc) : M PartsObj :=
  q ← readQuery this; readParts (r_parts q).

(** [this.parts.<field> = v]: the [parts] object is updated in place. *)
Definition updateParts (this : loc) (f : PartsObj → PartsObj) : M unit :=
  q ← readQuery this;
  p ← readParts (r_parts q);
  writeParts (r_parts q) (f p).

(** [this.parts.<field>.push(x)] *)
Definition push (field : PartsObj → loc) (this : loc) (x : string) : M unit :=
  p ← thisParts this;
  xs ← readArray (field p);
  writeArray (field p) (xs ++ [x]).

(** [this.parts.<field>.length] *)
Definition lengthOf (field : PartsObj → loc) (this : loc) : M nat :=
  p ← thisParts this;
  xs ← readArray (field p);
  ret (length xs).

(** [this.parts.select = xs], a new array. *)
Definition assignSelect (this : loc) (xs : list string) : M unit :=
  a ← allocArray xs;
  updateParts this (λ p,
    mkPartsObj a (r_from p) (r_joins p) (r_where p) (r_groupBy p) (r_orderBy p)
      (r_limit p) (r_offset p)).

Definition assignFrom (this : loc) (v : option string) : M unit :=
  updateParts this (λ p,
    mkPartsObj (r_select p) v (r_joins p) (r_where p) (r_groupBy p) (r_orderBy p)
      (r_limit p) (r_offset p)).

Definition assignLimit (this : loc) (v : option string) : M unit :=
  updateParts this (λ p,
    mkPartsObj (r_select p) (r_from p) (r_joins p) (r_where p) (r_groupBy p)
      (r_orderBy p) v (r_offset p)).

Definition assignOffset (this : loc) (v : option string) : M unit :=
  updateParts this (λ p,
    mkPartsObj (r_select p) (r_from p) (r_joins p) (r_where p) (r_groupBy p)
      (r_orderBy p) (r_limit p) v).

(** The contents of a [parts] object: its arrays read out. *)
Definition readPartsValue (l : loc) : M QueryParts :=
  p ← readParts l;
  sel ← readArray (r_select p);
  jns ← readArray (r_joins p);
  whr ← readArray (r_where p);
  grp ← readArray (r_groupBy p);
  ord ← readArray (r_orderBy p);
  ret (mkParts sel (r_from p) jns whr grp ord (r_limit p) (r_offset p)).

(** The value of the query object at [l]. *)
Definition readQueryValue (l : loc) : M SQLQuery :=
  q ← readQuery l;
  p ← readPartsValue (r_parts q);
  m ← readParams (r_params q);
  ret (mkQuery p m (r_paramCounter q)).

Definition snapshot (σ : store) (l : loc) : option SQLQuery :=
  fst <$> readQueryValue l σ.

(** [this.toString()] *)
Definition toString (this : loc) : M string :=
  q ← readQuery this;
  p ← readPartsValue (r_parts q);
  ret (renderParts p).

(** [this.parameters] *)
Definition parameters (this : loc) : M (list Value) :=
  q ← readQuery this;
  m ← readParams (r_params q);
  ret (exportParams m).

(** *** Interpolator *)

(** [this.paramCounter++; this.params[this.paramCounter] = v] and the
    placeholder. *)
Definition addParam (this : loc) (v : Value) : M string :=
  q ← readQuery this;
  let n := S (r_paramCounter q) in
  writeQuery this (mkQueryObj (r_parts q) (r_params q) n) ;;
  m ← readParams (r_params q);
  writeParams (r_params q) (<[n := v]> m) ;;
  ret ("$" +:+ pretty n).

Definition interpolateStep (this : loc) (result str : string) (gap : option Value)
    : M string :=
  match gap with
  | None => ret (result +:+ str)
  | Some VUndefined => ret (result +:+ str +:+ "NULL")
  | Some value =>
      if isPrimitive value then
        ph ← addParam this value; ret (result +:+ str +:+ ph)
      else
        match value with
        | VObject entries =>
            ph ← addParam this (firstValue entries); ret (result +:+ str +:+ ph)
        | VQuery l => text ← toString l; ret (result +:+ str +:+ text)
        | _ => ret (result +:+ str +:+ "null")
        end
  end.

Fixpoint interpolateFrom (this : loc) (i : nat) (strings : list string)
    (values : list Value) (result : string) : M string :=
  match strings with
  | [] => ret result
  | str :: rest =>
      result' ← interpolateStep this result str (values !! i);
      interpolateFrom this (S i) rest values result'
  end.

Definition _interpolate (this : loc) (strings : list string) (values : list Value)
    : M string :=
  interpolateFrom this 0 strings values "".

(** *** Initial-query parser and fragment classifier *)

Definition parseLine (this : loc) (currentSection : option Section_) (line : string)
    : M (option Section_) :=
  let lowerLine := toLowerCase line in
  if startsWith lowerLine "select" then
    let fieldsText := trim (substring_from 6 line) in
    (if nonEmpty fieldsText then assignSelect this [fieldsText]
     else assignSelect this []) ;;
    ret (Some SecSelect)
  else if startsWith lowerLine "from" then
    assignFrom this (Some (trim (substring_from 4 line))) ;; ret (Some SecFrom)
  else if isJoin lowerLine then
    push r_joins this line ;; ret (Some SecJoins)
  else if startsWith lowerLine "where" then
    push r_where this (trim (substring_from 5 line)) ;; ret (Some SecWhere)
  else if startsWith lowerLine "group by" then
    push r_groupBy this (trim (substring_from 8 line)) ;; ret (Some SecGroupBy)
  else if startsWith lowerLine "order by" then
    push r_orderBy this (trim (substring_from 8 line)) ;; ret (Some SecOrderBy)
  else if startsWith lowerLine "limit" then
    assignLimit this (Some (trim (substring_from 5 line))) ;; ret currentSection
  else if startsWith lowerLine "offset" then
    assignOffset this (Some (trim (substring_from 6 line))) ;; ret currentSection
  else
    match currentSection with
    | Some SecSelect =>
        if negb (String.eqb line ",") && negb (matchCommaOnly line) then
          let cleanedLine := replaceLeadingComma line in
          let finalLine := replaceTrailingComma cleanedLine in
          if nonEmpty finalLine
          then push r_select this finalLine ;; ret currentSection
          else ret currentSection
        else ret currentSection
    | Some SecWhere => push r_where this line ;; ret currentSection
    | Some SecGroupBy => push r_groupBy this line ;; ret currentSection
    | Some SecOrderBy => push r_orderBy this line ;; ret currentSection
    | _ => ret currentSection
    end.

Fixpoint parseLines (this : loc) (lines : list string)
    (currentSection : option Section_) : M (option Section_) :=
  match lines with
  | [] => ret currentSection
  | line :: rest =>
      currentSection' ← parseLine this currentSection line;
      parseLines this rest currentSection'
  end.

Definition parseInitialQuery (this : loc) (query : string) : M unit :=
  parseLines this (queryLines query) None ;; ret tt.

Definition parseQuery (this : loc) (query : string) : M unit :=
  let trimmedQuery := trim query in
  let lowerQuery := toLowerCase trimmedQuery in
  if startsWith lowerQuery "select" then parseInitialQuery this trimmedQuery
  else if startsWith lowerQuery "from" then
    assignFrom this (Some (trim (substring_from 4 trimmedQuery)))
  else if isJoin lowerQuery then push r_joins this trimmedQuery
  else if startsWith lowerQuery "where" then
    push r_where this (trim (substring_from 5 trimmedQuery))
  else if startsWith lowerQuery "and " then
    n ← lengthOf r_where this;
    if 0 <? n
    then push r_where this ("AND " +:+ trim (substring_from 3 trimmedQuery))
    else push r_where this (trim (substring_from 3 trimmedQuery))
  else if startsWith lowerQuery "or " then
    n ← lengthOf r_where this;
    if 0 <? n
    then push r_where this ("OR " +:+ trim (substring_from 2 trimmedQuery))
    else push r_where this (trim (substring_from 2 trimmedQuery))
  else if startsWith lowerQuery "group by" then
    push r_groupBy this (trim (substring_from 8 trimmedQuery))
  else if startsWith lowerQuery "order by" then
    push r_orderBy this (trim (substring_from 8 trimmedQuery))
  else if startsWith lowerQuery "limit" then
    assignLimit this (Some (trim (substring_from 5 trimmedQuery)))
  else if startsWith lowerQuery "offset" then
    assignOffset this (Some (trim (substring_from 6 trimmedQuery)))
  else
    n ← lengthOf r_where this;
    if 0 <? n
    then push r_where this ("AND " +:+ trimmedQuery)
    else push r_where this trimmedQuery.

(** *** Construction and extension *)

(** The object literal assigned to [this.parts] by the constructor,
    and [structuredClone] of a [parts] object, both from the contents
    the new object is to have: every array is a new one. *)
Definition allocPartsValue (p : QueryParts) : M loc :=
  sel ← allocArray (select p);
  jns ← allocArray (joins p);
  whr ← allocArray (where_ p);
  grp ← allocArray (groupBy p);
  ord ← allocArray (orderBy p);
  allocParts (mkPartsObj sel (from p) jns whr grp ord (limit p) (offset p)).

Definition structuredClone (l : loc) : M loc :=
  p ← readPartsValue l; allocPartsValue p.

(** The field initialisers of the constructor. *)
Definition allocEmptyQuery : M loc :=
  pl ← allocPartsValue emptyParts;
  ml ← allocParams ∅;
  allocQuery (mkQueryObj pl ml 0).

(** [new SQLQuery(strings, ...values)] *)
Definition newSQLQuery (template : option (list string * list Value)) : M loc :=
  this ← allocEmptyQuery;
  match template with
  | Some (strings, values) =>
      if 0 <? length strings then
        fullQuery ← _interpolate this strings values;
        parseInitialQuery this fullQuery ;;
        ret this
      else ret this
  | None => ret this
  end.

(** [this.sql(strings, ...values)] *)
Definition sql (this : loc) (strings : list string) (values : list Value) : M loc :=
  newQuery ← newSQLQuery None;
  q ← readQuery this;
  cloned ← structuredClone (r_parts q);
  n ← readQuery newQuery;
  writeQuery newQuery (mkQueryObj cloned (r_params n) (r_paramCounter n)) ;;
  m ← readParams (r_params q);
  copied ← allocParams m;
  n ← readQuery newQuery;
  writeQuery newQuery (mkQueryObj (r_parts n) copied (r_paramCounter n)) ;;
  q ← readQuery this;
  n ← readQuery newQuery;
  writeQuery newQuery (mkQueryObj (r_parts n) (r_params n) (r_paramCounter q)) ;;
  fragment ← _interpolate newQuery strings values;
  parseQuery newQuery fragment ;;
  ret newQuery.

(** The command-line tool ([bin/cli.ts]): the clause a flag stands
    for, the loop over [Deno.args], and the part of [main] that builds
    the query and prints its text. *)
Definition clauseOfFlag (arg : string) : option string :=
  if String.eqb arg "--where" then Some "WHERE"
  else if String.eqb arg "--and" then Some "AND"
  else if String.eqb arg "--or" then Some "OR"
  else if String.eqb arg "--join" then Some "JOIN"
  else if String.eqb arg "--left-join" then Some "LEFT JOIN"
  else if String.eqb arg "--right-join" then Some "RIGHT JOIN"
  else if String.eqb arg "--inner-join" then Some "INNER JOIN"
  else if String.eqb arg "--group-by" then Some "GROUP BY"
  else if String.eqb arg "--order-by" then Some "ORDER BY"
  else if String.eqb arg "--limit" then Some "LIMIT"
  else if String.eqb arg "--offset" then Some "OFFSET"
  else None.

Fixpoint applyArgs (query : loc) (args : list string) : M unit :=
  match args with
  | [] => ret tt
  | arg :: rest =>
      match clauseOfFlag arg, rest with
      | Some clause, condition :: rest' =>
          parseQuery query (clause +:+ " " +:+ condition) ;;
          applyArgs query rest'
      | _, _ => applyArgs query rest
      end
  end.

(** Lines 74 to 113 of [bin/cli.ts]: [new SQLQuery()],
    [parseInitialQuery(baseQuery)], the loop, [toString].  [main] gets
    here once it has a base text: when the arguments do not ask for the
    help text and name a file, which could be read, or a query (the
    tests before it are in [main], after this module). *)
Definition cli (baseQuery : string) (args : list string) : M string :=
  query ← newSQLQuery None;
  parseInitialQuery query baseQuery ;;
  applyArgs query args ;;
  toString query.

(** Two extensions in a row, and what the last query renders and
    exports. *)
Definition sequentialExample : M (string * list Value) :=
  base ← newSQLQuery (Some (["SELECT * FROM users"], []));
  q1 ← sql base ["WHERE id = "; ""] [VNumber 1];
  q2 ← sql q1 ["AND name = "; ""] [VString "John"];
  text ← toString q2;
  ps ← parameters q2;
  ret (text, ps).

(** A store with one query, [SELECT id FROM users] parsed, at
    location 1. *)
Definition exampleStore : store :=
  mkStore
    (<[1%positive := ["id"]]>
       (<[2%positive := []]>
          (<[3%positive := []]> (<[4%positive := []]> (<[5%positive := []]> ∅)))))
    (<[1%positive := mkPartsObj 1%positive (Some "users") 2%positive 3%positive 4%positive
                       5%positive None None]> ∅)
    (<[1%positive := ∅]> ∅)
    (<[1%positive := mkQueryObj 1%positive 1%positive 0]> ∅).

Definition exampleQuery : SQLQuery :=
  mkQuery (mkParts ["id"] (Some "users") [] [] [] [] None None) ∅ 0.

(** *** Vocabulary of the statements about the store *)

(** [m] runs to the end from [σ], and its result and final store
    satisfy [Q]. *)
Definition wp {A} (m : M A) (σ : store) (Q : A → store → Prop) : Prop :=
  ∃ a σ', m σ = Some (a, σ') ∧ Q a σ'.

(** Every cell of [σ] is a cell of [σ'], with the same contents. *)
Definition incl (σ σ' : store) : Prop :=
  arrays σ ⊆ arrays σ' ∧ partsObjs σ ⊆ partsObjs σ'
  ∧ paramsObjs σ ⊆ paramsObjs σ' ∧ queries σ ⊆ queries σ'.

(** An embedded value refers to a query of the store, if to any. *)
Definition valueOk (σ : store) (v : Value) : Prop :=
  match v with
  | VQuery l => is_Some (snapshot σ l)
  | _ => True
  end.

(** [String(value)] of the query at [l] in [σ]. *)
Definition textOf (σ : store) (l : loc) : string :=
  match toString l σ with
  | Some (text, _) => text
  | None => ""
  end.

Definition distinct5 (a b c d e : loc) : Prop :=
  a ≠ b ∧ a ≠ c ∧ a ≠ d ∧ a ≠ e ∧ b ≠ c ∧ b ≠ d ∧ b ≠ e
  ∧ c ≠ d ∧ c ≠ e ∧ d ≠ e.

(** The object [this] of [σ] has the value [q], its five arrays are
    five different arrays, and none of its cells is a cell of [σ0]. *)
Definition repr (σ0 σ : store) (this : loc) (q : SQLQuery) : Prop :=
  ∃ qo po,
    queries σ !! this = Some qo
    ∧ partsObjs σ !! r_parts qo = Some po
    ∧ paramsObjs σ !! r_params qo = Some (params q)
    ∧ r_paramCounter qo = paramCounter q
    ∧ arrays σ !! r_select po = Some (select (parts q))
    ∧ arrays σ !! r_joins po = Some (joins (parts q))
    ∧ arrays σ !! r_where po = Some (where_ (parts q))
    ∧ arrays σ !! r_groupBy po = Some (groupBy (parts q))
    ∧ arrays σ !! r_orderBy po = Some (orderBy (parts q))
    ∧ r_from po = from (parts q)
    ∧ r_limit po = limit (parts q)
    ∧ r_offset po = offset (parts q)
    ∧ distinct5 (r_select po) (r_joins po) (r_where po) (r_groupBy po)
        (r_orderBy po)
    ∧ queries σ0 !! this = None
    ∧ partsObjs σ0 !! r_parts qo = None
    ∧ paramsObjs σ0 !! r_params qo = None
    ∧ arrays σ0 !! r_select po = None
    ∧ arrays σ0 !! r_joins po = None
    ∧ arrays σ0 !! r_where po = None
    ∧ arrays σ0 !! r_groupBy po = None
    ∧ arrays σ0 !! r_orderBy po = None.

(** The object [this] has the value [q] and owns its cells. *)
Definition separate (σ : store) (this : loc) (q : SQLQuery) : Prop :=
  repr emptyStore σ this q.

(** The invariant of the methods of a new object: the cells of [σ0]
    are kept and [this], outside [σ0], has the value [q]. *)
Definition extends (σ0 : store) (this : loc) (q : SQLQuery) (σ : store) : Prop :=
  incl σ0 σ ∧ repr σ0 σ this q.

Definition gapOk (σ0 : store) (gap : option Value) : Prop :=
  match gap with
  | Some v => valueOk σ0 v
  | None => True
  end.

End Store.

(** ** The older copy of the class

    [src/unnamed/part_000] is a copy of the class with named
    parameters ([:p0], [:p1], ... and a [params] object keyed by name).
    Nothing imports it; its parser, classifier and renderer are those
    of [mod.ts], its interpolator is not.  Its reduce callback, on the
    parameters and the counter: *)

Module Legacy.

Record State : Type := mkState {
  params : gmap string Value;
  paramCounter : nat
}.

(** [Object.keys(value)[0]] in a template literal. *)
Definition firstKey (entries : list (string * Value)) : string :=
  match entries with
  | [] => "undefined"
  | (k, _) :: _ => k
  end.

(** [Object.entries(value).forEach(([key, val]) => params[key] = val)] *)
Definition storeEntries (entries : list (string * Value)) (m : gmap string Value)
    : gmap string Value :=
  foldl (λ m kv, <[kv.1 := kv.2]> m) m entries.

Definition interpolateStep (textOf : loc → string) (acc : string * State)
    (str : string) (gap : option Value) : string * State :=
  let '(result, this) := acc in
  match gap with
  | None => (result +:+ str, this)
  | Some VUndefined => (result +:+ str, this)
  | Some value =>
      if isPrimitive value then
        let paramName := "p" +:+ pretty (paramCounter this) in
        (result +:+ str +:+ ":" +:+ paramName,
         mkState (<[paramName := value]> (params this)) (S (paramCounter this)))
      else
        match value with
        | VObject entries =>
            (result +:+ str +:+ ":" +:+ firstKey entries,
             mkState (storeEntries entries (params this)) (paramCounter this))
        | VQuery l => (result +:+ str +:+ textOf l, this)
        | _ => (result +:+ str +:+ "null", this)
        end
  end.

End Legacy.

Definition noEmptyEntry (l : list string) : Prop := Forall (λ x, x ≠ "") l.

(** ** Vocabulary of the statements *)

(** The tests of [parseInitialQuery] that name a clause. *)
Definition isLineKeyword (lower : string) : bool :=
  startsWith lower "select" || startsWith lower "from" || isJoin lower
  || startsWith lower "where" || startsWith lower "group by"
  || startsWith lower "order by" || startsWith lower "limit"
  || startsWith lower "offset".

(** A line that starts (in any case) with [limit] or with [offset]. *)
Definition isLimitOrOffset (line : string) : bool :=
  startsWith (toLowerCase line) "limit" || startsWith (toLowerCase line) "offset".

(** What a continuation line of a SELECT list adds to the bucket. *)
Definition selectContinuation (line : string) : list string :=
  let finalLine := replaceTrailingComma (replaceLeadingComma line) in
  if negb (String.eqb line ",") && negb (matchCommaOnly line) && nonEmpty finalLine
  then [finalLine] else [].

(** The queries the public operations build: the constructor (with or
    without a template), [parseInitialQuery], [parseQuery] and [sql]. *)
Inductive reachable : SQLQuery → Prop :=
  | reach_new (textOf : loc → string) template :
      reachable (newSQLQuery textOf template)
  | reach_parseInitialQuery query this :
      reachable this → reachable (parseInitialQuery query this)
  | reach_parseQuery query this :
      reachable this → reachable (parseQuery query this)
  | reach_sql (textOf : loc → string) strings values this :
      reachable this → reachable (sql textOf strings values this).

(** *** Statements written one clause per line *)

Fixpoint hasChar (c : ascii) (s : string) : bool :=
  match s with
  | EmptyString => false
  | String a s' => Ascii.eqb a c || hasChar c s'
  end.

Definition noLF (x : string) : bool := negb (hasChar LF x).

(** A text that stands on a line as it is: not empty, no line feed in
    it, no white space around it. *)
Definition cleanText (x : string) : bool :=
  nonEmpty x && String.eqb (trim x) x && noLF x.

(** A line of a SELECT list: the field, after an optional leading
    comma and before an optional trailing comma. *)
Record FieldLine : Type := mkFieldLine {
  fl_lead : bool;
  fl_field : string;
  fl_trail : bool
}.

Definition fieldLineText (l : FieldLine) : string :=
  "  " +:+ (if fl_lead l then ", " else "") +:+ fl_field l
  +:+ (if fl_trail l then "," else "").

(** The trimmed text of a field line. *)
Definition fieldLineTrimmed (l : FieldLine) : string :=
  (if fl_lead l then ", " else "") +:+ fl_field l
  +:+ (if fl_trail l then "," else "").

Definition cleanField (l : FieldLine) : bool :=
  cleanText (fl_field l)
  && negb (startsWith (fl_field l) ",") && negb (endsWithChar (fl_field l) ",")
  && negb (isLineKeyword (toLowerCase (fl_field l))).

(** A base statement, clause by clause: the text after SELECT on the
    SELECT line (if any), the field lines that follow it, the table of
    FROM, the JOIN lines, the WHERE condition and the lines that
    continue it, and the texts of GROUP BY, ORDER BY, LIMIT, OFFSET. *)
Record Statement : Type := mkStatement {
  st_first : option string;
  st_fields : list FieldLine;
  st_from : string;
  st_joins : list string;
  st_where : list string;
  st_groupBy : option string;
  st_orderBy : option string;
  st_limit : option string;
  st_offset : option string
}.

Definition optLine (keyword : string) (v : option string) : list string :=
  match v with
  | Some x => [keyword +:+ x]
  | None => []
  end.

Definition whereLines (conds : list string) : list string :=
  match conds with
  | [] => []
  | c :: conts => ("WHERE " +:+ c) :: ((λ w, "  " +:+ w) <$> conts)
  end.

(** The lines of the statement as written, and its text. *)
Definition statementLines (st : Statement) : list string :=
  [match st_first st with Some x => "SELECT " +:+ x | None => "SELECT" end]
  ++ (fieldLineText <$> st_fields st)
  ++ ["FROM " +:+ st_from st]
  ++ st_joins st
  ++ whereLines (st_where st)
  ++ optLine "GROUP BY " (st_groupBy st)
  ++ optLine "ORDER BY " (st_orderBy st)
  ++ optLine "LIMIT " (st_limit st)
  ++ optLine "OFFSET " (st_offset st).

Definition statementText (st : Statement) : string :=
  join NL (statementLines st).

Definition optAll (f : string → bool) (v : option string) : bool :=
  match v with
  | Some x => f x
  | None => true
  end.

Definition cleanJoin (j : string) : bool :=
  cleanText j && isJoin (toLowerCase j).

Definition cleanContinuation (w : string) : bool :=
  cleanText w && negb (isLineKeyword (toLowerCase w)).

Definition cleanListEntry (g : string) : bool :=
  cleanText g && validEntry g.

Definition cleanScalar (v : string) : bool :=
  cleanText v && negb (includes v ":undefined").

Definition cleanWhere (conds : list string) : bool :=
  match conds with
  | [] => true
  | c :: conts => cleanText c && forallb cleanContinuation conts
  end.

Definition validStatement (st : Statement) : bool :=
  optAll cleanText (st_first st)
  && forallb cleanField (st_fields st)
  && cleanText (st_from st)
  && forallb cleanJoin (st_joins st)
  && cleanWhere (st_where st)
  && optAll cleanListEntry (st_groupBy st)
  && optAll cleanListEntry (st_orderBy st)
  && optAll cleanScalar (st_limit st)
  && optAll cleanScalar (st_offset st).

(** The trimmed lines of a WHERE clause, and of the statement. *)
Definition whereTrimmed (conds : list string) : list string :=
  match conds with
  | [] => []
  | c :: conts => ("WHERE " +:+ c) :: conts
  end.

Definition statementTrimmed (st : Statement) : list string :=
  [match st_first st with Some x => "SELECT " +:+ x | None => "SELECT" end]
  ++ (fieldLineTrimmed <$> st_fields st)
  ++ ["FROM " +:+ st_from st]
  ++ st_joins st
  ++ whereTrimmed (st_where st)
  ++ optLine "GROUP BY " (st_groupBy st)
  ++ optLine "ORDER BY " (st_orderBy st)
  ++ optLine "LIMIT " (st_limit st)
  ++ optLine "OFFSET " (st_offset st).

(** The buckets the statement describes: one [select] entry for the
    text on the SELECT line and one for each field line. *)
Definition statementParts (st : Statement) : QueryParts :=
  mkParts (option_list (st_first st) ++ (fl_field <$> st_fields st))
    (Some (st_from st)) (st_joins st) (st_where st)
    (option_list (st_groupBy st)) (option_list (st_orderBy st))
    (st_limit st) (st_offset st).

(** The clauses of the statement in their order, as they are to be
    rendered: the fields one per line under [SELECT], two spaces before
    each and a comma after each but the last ([SELECT *] without
    fields); the JOIN lines; the conditions under [WHERE], two spaces
    before each continuation. *)
Definition statementBlocks (st : Statement) : list string :=
  [match option_list (st_first st) ++ (fl_field <$> st_fields st) with
   | [] => "SELECT *"
   | f :: fs => "SELECT" +:+ NL +:+ "  " +:+ join ("," +:+ NL +:+ "  ") (f :: fs)
   end]
  ++ ["FROM " +:+ st_from st]
  ++ match st_joins st with
     | [] => []
     | j :: js => [join NL (j :: js)]
     end
  ++ match st_where st with
     | [] => []
     | c :: conts => ["WHERE " +:+ join (NL +:+ "  ") (c :: conts)]
     end
  ++ optLine "GROUP BY " (st_groupBy st)
  ++ optLine "ORDER BY " (st_orderBy st)
  ++ optLine "LIMIT " (st_limit st)
  ++ optLine "OFFSET " (st_offset st).

(** *** The layout of a written statement *)








(** *** What the renderer is to show of GROUP BY and ORDER BY *)

(** The entries that are to show: not empty, not a bare comma, without
    [:undefined]. *)
Definition shownEntries (entries : list string) : list string :=
  filter (λ x, x ≠ "" ∧ x ≠ "," ∧ includes x ":undefined" = false) entries.

(** The line of the list: none when nothing is to show. *)
Definition shownList (keyword : string) (entries : list string) : list string :=
  match shownEntries entries with
  | [] => []
  | x :: xs => [keyword +:+ join ", " (x :: xs)]
  end.

(** ** Vocabulary of the properties of numbering, rendering and composition *)

(** The values [_interpolate] gives a numbered placeholder: the
    primitives and the plain objects ([undefined], [null] and an
    embedded [SQLQuery] get none). *)
Definition makesParam (v : Value) : bool :=
  match v with
  | VString _ | VNumber _ | VBoolean _ | VObject _ => true
  | _ => false
  end.

(** The keys of [params] are the numbers from 1 to [paramCounter]. *)
Definition dense (q : SQLQuery) : Prop :=
  ∀ k, is_Some (params q !! k) ↔ 1 ≤ k ≤ paramCounter q.

(** What [toString] shows of the buckets: a [from] that is set and
    not empty, the GROUP BY and ORDER BY entries that pass its filter,
    a LIMIT and an OFFSET without [:undefined]. *)
Definition hideScalar (v : option string) : option string :=
  match v with
  | Some s => if includes s ":undefined" then None else Some s
  | None => None
  end.

Definition visibleParts (p : QueryParts) : QueryParts :=
  mkParts (select p)
    (match from p with
     | Some f => if nonEmpty f then Some f else None
     | None => None
     end)
    (joins p) (where_ p)
    (filter (λ part, validEntry part = true) (groupBy p))
    (filter (λ part, validEntry part = true) (orderBy p))
    (hideScalar (limit p)) (hideScalar (offset p)).

(** The four arrays that are only pushed to: each one of [p] is a
    prefix of the one of [p']. *)
Definition grows (p p' : QueryParts) : Prop :=
  joins p `prefix_of` joins p' ∧ where_ p `prefix_of` where_ p'
  ∧ groupBy p `prefix_of` groupBy p' ∧ orderBy p `prefix_of` orderBy p'.

(** The statement as [toString] writes it: the field list one field
    per line under a bare SELECT line, a comma after every field but
    the last; [SELECT *] for an empty field list. *)
Fixpoint renderedFields (fields : list string) : list FieldLine :=
  match fields with
  | [] => []
  | f :: rest =>
      match rest with
      | [] => [mkFieldLine false f false]
      | _ :: _ => mkFieldLine false f true :: renderedFields rest
      end
  end.

Definition renderedStatement (st : Statement) : Statement :=
  let fields := fl_field <$> st_fields st in
  mkStatement (if 0 <? length fields then None else Some "*")
    (renderedFields fields) (st_from st) (st_joins st) (st_where st)
    (st_groupBy st) (st_orderBy st) (st_limit st) (st_offset st).

(** The field of [this.parts] a fragment goes to in [parseQuery]. *)
Definition fragmentClause (query : string) : string :=
  let lowerQuery := toLowerCase (trim query) in
  if startsWith lowerQuery "select" then "select"
  else if startsWith lowerQuery "from" then "from"
  else if isJoin lowerQuery then "joins"
  else if startsWith lowerQuery "where" then "where"
  else if startsWith lowerQuery "and " then "where"
  else if startsWith lowerQuery "or " then "where"
  else if startsWith lowerQuery "group by" then "groupBy"
  else if startsWith lowerQuery "order by" then "orderBy"
  else if startsWith lowerQuery "limit" then "limit"
  else if startsWith lowerQuery "offset" then "offset"
  else "where".

(** The fragments the loop of [main] hands to [parseQuery]: a clause
    flag takes the argument after it as its condition, whatever it is;
    a flag without an argument after it and every other argument are
    skipped. *)
Fixpoint argFragments (args : list string) : list string :=
  match args with
  | [] => []
  | arg :: rest =>
      match Store.clauseOfFlag arg, rest with
      | Some clause, condition :: rest' =>
          (clause +:+ " " +:+ condition) :: argFragments rest'
      | _, _ => argFragments rest
      end
  end.

(** The [try] block of [main] once it has the base text (lines 74 to
    120 of [bin/cli.ts]), with what it prints: the text of the query,
    and the parameters when [Object.keys(query.parameters).length > 0]. *)
Definition cliOutput (baseQuery : string) (args : list string)
    : Store.M (string * option (list Value)) :=
  query ← Store.newSQLQuery None;
  Store.parseInitialQuery query baseQuery ;;
  Store.applyArgs query args ;;
  text ← Store.toString query;
  ps ← Store.parameters query;
  mret (text, if 0 <? length ps then Some ps else None).

(** What [main] reads of the result of [parseArgs(Deno.args, ...)]:
    [args.help], [args.file] and [args.query]. *)
Record ParsedArgs : Type := mkParsedArgs {
  a_help : bool;
  a_file : option string;
  a_query : option string
}.

(** [if (args.file)]: set and not empty. *)
Definition given (v : option string) : bool :=
  match v with
  | Some s => nonEmpty s
  | None => false
  end.

(** How a run of [main] ends: the help text and exit code 0; a line
    on the error stream and exit code 1; or the text of the query and,
    if it has some, its parameters. *)
Inductive Outcome : Type :=
  | ShowHelp
  | Failed (message : string)
  | Printed (text : string) (parameters : option (list Value)).

(** [main] of [bin/cli.ts].  [parseArgs] is the function of the
    standard library and [readTextFile] is [Deno.readTextFile], which
    gives the text of the file or fails with a message. *)
Definition main (parseArgs : list string → ParsedArgs)
    (readTextFile : string → string + string) (args : list string)
    : Store.M Outcome :=
  let parsed := parseArgs args in
  if a_help parsed || (negb (given (a_file parsed)) && negb (given (a_query parsed)))
  then mret ShowHelp
  else
    let baseQuery :=
      if given (a_file parsed) then readTextFile (default "" (a_file parsed))
      else if given (a_query parsed) then inl (default "" (a_query parsed))
      else inl "" in
    match baseQuery with
    | inr errorMessage => mret (Failed ("Error reading file: " +:+ errorMessage))
    | inl baseQuery =>
        out ← cliOutput baseQuery args;
        mret (Printed out.1 out.2)
    end.

(** Two extensions of the same query, one after the other. *)
Definition extendTwice (base : loc) (strings1 : list string) (values1 : list Value)
    (strings2 : list string) (values2 : list Value) : Store.M (loc * loc) :=
  first ← Store.sql base strings1 values1;
  second ← Store.sql base strings2 values2;
  mret (first, second).

(** * Properties *)

(** ** Parameter export *)

Lemma maxParam_ge (m : gmap nat Value) (k : nat) :
  is_Some (m !! k) → k ≤ maxParam m.
Proof.
  intros Hk. unfold maxParam. apply max_list_elem_of_le.
  apply elem_of_elements, elem_of_dom, Hk.
Qed.

Lemma exportParams_lookup (m : gmap nat Value) (k : nat) (v : Value) :
  m !! k = Some v → 0 < k → exportParams m !! (k - 1) = Some v.
Proof.
  intros Hk Hpos. unfold exportParams.
  destruct (decide (size m = 0)) as [Hz|Hnz].
  - apply map_size_empty_inv in Hz. subst m. by rewrite lookup_empty in Hk.
  - assert (k ≤ maxParam m) by (apply maxParam_ge; eauto).
    rewrite list_lookup_fmap, lookup_seq_lt by lia.
    replace (1 + (k - 1)) with k by lia. simpl. by rewrite Hk.
Qed.

(** ** Interpolator *)

(** The counter never decreases and a key up to the counter is never
    written again. *)
Lemma interpolateStep_keeps textOf (acc : string * SQLQuery) str gap :
  paramCounter (snd acc) ≤ paramCounter (snd (interpolateStep textOf acc str gap))
  ∧ ∀ k, k ≤ paramCounter (snd acc) →
         params (snd (interpolateStep textOf acc str gap)) !! k
         = params (snd acc) !! k.
Proof.
  destruct acc as [result this]. destruct gap as [v|]; [|done].
  destruct v; cbn; split; try done; try lia;
    intros k Hk; apply lookup_insert_ne; lia.
Qed.

Lemma interpolateFrom_keeps textOf strings values :
  ∀ i (acc : string * SQLQuery),
    paramCounter (snd acc)
    ≤ paramCounter (snd (interpolateFrom textOf i strings values acc))
    ∧ ∀ k, k ≤ paramCounter (snd acc) →
           params (snd (interpolateFrom textOf i strings values acc)) !! k
           = params (snd acc) !! k.
Proof.
  induction strings as [|str rest IH]; intros i acc; [done|].
  cbn [interpolateFrom].
  destruct (interpolateStep_keeps textOf acc str (values !! i)) as [Hle Hk].
  destruct (IH (S i) (interpolateStep textOf acc str (values !! i))) as [Hle' Hk'].
  split; [lia|]. intros k Hkle. rewrite Hk' by lia. by apply Hk.
Qed.

(** C3. In a gap whose value is [undefined] the interpolator emits
    [NULL] and leaves the query, its counter included, as it was; in a
    gap whose value is a string, a number or a boolean it increments
    [paramCounter] by one, stores the value under the new counter,
    emits [$<paramCounter>], and the exported parameter array holds the
    value at index [paramCounter - 1], also after the rest of the
    template has been interpolated. *)
Theorem interpolate_undefined_and_primitive :
  ∀ (textOf : loc → string) (result str : string) (this : SQLQuery),
    interpolateStep textOf (result, this) str (Some VUndefined)
      = (result +:+ str +:+ "NULL", this)
    ∧ ∀ v : Value, isPrimitive v = true →
        ∃ this' : SQLQuery,
          interpolateStep textOf (result, this) str (Some v)
            = (result +:+ str +:+ "$" +:+ pretty (paramCounter this'), this')
          ∧ paramCounter this' = S (paramCounter this)
          ∧ params this' = <[paramCounter this' := v]> (params this)
          ∧ parts this' = parts this
          ∧ parameters this' !! (paramCounter this' - 1) = Some v
          ∧ ∀ i rest values text,
              parameters (snd (interpolateFrom textOf i rest values (text, this')))
                !! (paramCounter this' - 1) = Some v.
Proof.
  intros textOf result str this. split; [reflexivity|].
  intros v Hprim.
  exists (mkQuery (parts this) (<[S (paramCounter this) := v]> (params this))
            (S (paramCounter this))).
  split_and!; try reflexivity.
  - destruct v; simpl in Hprim; try discriminate; reflexivity.
  - unfold parameters. cbn [params paramCounter].
    apply exportParams_lookup; [|lia].
    apply lookup_insert_eq.
  - intros i rest values text. unfold parameters. cbn [paramCounter].
    apply exportParams_lookup; [|lia].
    destruct (interpolateFrom_keeps textOf rest values i
                (text, mkQuery (parts this)
                         (<[S (paramCounter this) := v]> (params this))
                         (S (paramCounter this)))) as [_ Hk].
    rewrite Hk by (cbn; lia). cbn. apply lookup_insert_eq.
Qed.

Lemma interpolate_undefined_and_primitive_witness :
  ∃ this' : SQLQuery,
    interpolateStep (λ _, "") ("", emptyQuery) "WHERE id = " (Some (VNumber 1))
      = ("" +:+ "WHERE id = " +:+ "$" +:+ pretty (paramCounter this'), this')
    ∧ paramCounter this' = S (paramCounter emptyQuery)
    ∧ params this' = <[paramCounter this' := VNumber 1]> (params emptyQuery)
    ∧ parts this' = parts emptyQuery
    ∧ parameters this' !! (paramCounter this' - 1) = Some (VNumber 1)
    ∧ ∀ i rest values text,
        parameters (snd (interpolateFrom (λ _, "") i rest values (text, this')))
          !! (paramCounter this' - 1) = Some (VNumber 1).
Proof.
  apply (proj2 (interpolate_undefined_and_primitive (λ _, "") "" "WHERE id = " emptyQuery)
           (VNumber 1)).
  reflexivity.
Defined.

(** C6. In a gap whose value is a plain object the interpolator takes
    one parameter slot: it increments [paramCounter], stores the value
    of the first property of the object under the new counter, emits
    [$<paramCounter>], and no other key of [params] changes, whatever
    further properties the object has. *)
Theorem interpolate_object_first_value_only :
  ∀ (textOf : loc → string) (result str : string) (this : SQLQuery)
    (entries : list (string * Value)),
    let n := S (paramCounter this) in
    let '(text, this') :=
      interpolateStep textOf (result, this) str (Some (VObject entries)) in
    text = result +:+ str +:+ "$" +:+ pretty n
    ∧ paramCounter this' = n
    ∧ params this' !! n = Some (firstValue entries)
    ∧ (∀ k v rest, entries = (k, v) :: rest → params this' !! n = Some v)
    ∧ (∀ j, j ≠ n → params this' !! j = params this !! j)
    ∧ parts this' = parts this.
Proof.
  intros textOf result str this entries n. simpl.
  repeat split.
  - apply lookup_insert_eq.
  - intros k v rest ->. simpl. apply lookup_insert_eq.
  - intros j Hj. by apply lookup_insert_ne.
Qed.

Lemma interpolate_object_first_value_only_witness :
  let '(text, this') :=
    interpolateStep (λ _, "") ("WHERE id = ", emptyQuery) ""
      (Some (VObject [("id", VNumber 7); ("name", VString "x")])) in
  text = "WHERE id = $1" ∧ paramCounter this' = 1
  ∧ params this' !! 1 = Some (VNumber 7) ∧ params this' !! 2 = None.
Proof.
  pose proof (interpolate_object_first_value_only (λ _, "") "WHERE id = " ""
                emptyQuery [("id", VNumber 7); ("name", VString "x")]) as H.
  cbv zeta in H. cbn [interpolateStep isPrimitive] in H |- *.
  destruct H as (Ht & Hc & Hv & _ & Hother & _).
  split_and!; [done|done|done|].
  rewrite (Hother 2) by done. done.
Defined.

(** The older copy of the class does otherwise: in a gap whose value is
    a plain object it stores every property of the object under its own
    key, leaves the counter alone and emits [:<first key>]. *)
Lemma storeEntries_cons k0 v0 (rest : list (string * Value)) (m : gmap string Value) :
  Legacy.storeEntries ((k0, v0) :: rest) m = Legacy.storeEntries rest (<[k0 := v0]> m).
Proof. reflexivity. Qed.

Lemma storeEntries_other (entries : list (string * Value)) :
  ∀ (m : gmap string Value) (k : string),
    k ∉ entries.*1 → Legacy.storeEntries entries m !! k = m !! k.
Proof.
  induction entries as [|[k0 v0] rest IH]; intros m k Hk; [done|].
  rewrite fmap_cons in Hk. apply not_elem_of_cons in Hk as [Hne Hk].
  rewrite storeEntries_cons, IH by done. by rewrite lookup_insert_ne.
Qed.

Lemma storeEntries_lookup (entries : list (string * Value)) :
  NoDup entries.*1 →
  ∀ (m : gmap string Value) k v,
    (k, v) ∈ entries → Legacy.storeEntries entries m !! k = Some v.
Proof.
  induction entries as [|[k0 v0] rest IH]; intros Hnd m k v Hin.
  - by apply elem_of_nil in Hin.
  - rewrite fmap_cons in Hnd. apply NoDup_cons in Hnd as [Hk0 Hnd].
    rewrite storeEntries_cons.
    apply elem_of_cons in Hin as [[= -> ->]|Hin].
    + rewrite storeEntries_other by done. apply lookup_insert_eq.
    + by apply IH.
Qed.

(** X19. The older copy of the class, in a gap whose value is a plain
    object: every property of the object is stored under its own key,
    the counter stays as it is, and the placeholder names the first
    key. *)
Lemma legacy_object_keeps_every_pair (textOf : loc → string) (result str : string)
    (this : Legacy.State) (entries : list (string * Value)) :
  NoDup entries.*1 →
  let '(text, this') :=
    Legacy.interpolateStep textOf (result, this) str (Some (VObject entries)) in
  text = result +:+ str +:+ ":" +:+ Legacy.firstKey entries
  ∧ Legacy.paramCounter this' = Legacy.paramCounter this
  ∧ ∀ k v, (k, v) ∈ entries → Legacy.params this' !! k = Some v.
Proof.
  intros Hnd. cbn [Legacy.interpolateStep isPrimitive Legacy.params
                   Legacy.paramCounter].
  split; [done|]. split; [done|]. intros k v Hin. by apply storeEntries_lookup.
Qed.

Lemma legacy_object_keeps_every_pair_witness :
  let '(text, this') :=
    Legacy.interpolateStep (λ _, "") ("WHERE ", Legacy.mkState ∅ 0) "a = "
      (Some (VObject [("a", VNumber 1); ("b", VNumber 2)])) in
  text = "WHERE " +:+ "a = " +:+ ":"
         +:+ Legacy.firstKey [("a", VNumber 1); ("b", VNumber 2)]
  ∧ Legacy.paramCounter this' = Legacy.paramCounter (Legacy.mkState ∅ 0)
  ∧ ∀ k v, (k, v) ∈ [("a", VNumber 1); ("b", VNumber 2)] →
           Legacy.params this' !! k = Some v.
Proof.
  apply (legacy_object_keeps_every_pair (λ _, "") "WHERE " "a = "
           (Legacy.mkState ∅ 0) [("a", VNumber 1); ("b", VNumber 2)]).
  change (NoDup ["a"; "b"]). apply NoDup_cons. split; [|apply NoDup_singleton].
  intros H%list_elem_of_singleton. discriminate H.
Defined.

(** ** Fragment classifier *)

Lemma isKeyword_false (lower : string) :
  isKeyword lower = false →
  startsWith lower "select" = false ∧ startsWith lower "from" = false
  ∧ isJoin lower = false ∧ startsWith lower "where" = false
  ∧ startsWith lower "and " = false ∧ startsWith lower "or " = false
  ∧ startsWith lower "group by" = false ∧ startsWith lower "order by" = false
  ∧ startsWith lower "limit" = false ∧ startsWith lower "offset" = false.
Proof. unfold isKeyword. rewrite !orb_false_iff. tauto. Qed.

(** The last branch of [parseQuery]. *)
Lemma parseQueryParts_default (query : string) (p : QueryParts) :
  isKeyword (toLowerCase (trim query)) = false →
  parseQueryParts query p
  = set_where (where_ p ++ [if 0 <? length (where_ p)
                            then "AND " +:+ trim query else trim query]) p.
Proof.
  intros (H1 & H2 & H3 & H4 & H5 & H6 & H7 & H8 & H9 & H10)%isKeyword_false.
  unfold parseQueryParts. cbv zeta.
  rewrite H1, H2, H3, H4, H5, H6, H7, H8, H9, H10.
  by destruct (0 <? length (where_ p)).
Qed.

(** C4. A fragment that starts with no clause keyword is a WHERE
    condition: after a non-empty [where] bucket it is appended with the
    prefix [AND ], into an empty one it is appended bare (the fragment
    is trimmed, as in every branch of the classifier; the keywords are
    the tests of the classifier, the four JOIN forms among them).  The
    base [WHERE id = 1] extended with [name = 'John'] renders the block
    [WHERE id = 1\n  AND name = 'John']. *)
Theorem bare_fragment_defaults_to_and :
  (∀ (query : string) (this : SQLQuery),
     isKeyword (toLowerCase (trim query)) = false →
     let this' := parseQuery query this in
     (where_ (parts this) ≠ [] →
        where_ (parts this') = where_ (parts this) ++ ["AND " +:+ trim query])
     ∧ (where_ (parts this) = [] → where_ (parts this') = [trim query])
     ∧ select (parts this') = select (parts this)
     ∧ from (parts this') = from (parts this)
     ∧ joins (parts this') = joins (parts this)
     ∧ groupBy (parts this') = groupBy (parts this)
     ∧ orderBy (parts this') = orderBy (parts this)
     ∧ limit (parts this') = limit (parts this)
     ∧ offset (parts this') = offset (parts this))
  ∧ (∀ textOf : loc → string,
       let base := newSQLQuery textOf (Some (["WHERE id = 1"], [])) in
       let extended := sql textOf ["name = 'John'"] [] base in
       whereBlock (parts extended) = ["WHERE id = 1" +:+ NL +:+ "  AND name = 'John'"]
       ∧ toString extended
         = "SELECT *" +:+ NL +:+ "WHERE id = 1" +:+ NL +:+ "  AND name = 'John'").
Proof.
  split.
  - intros query this Hkw this'. subst this'.
    unfold parseQuery, with_parts. cbn [parts].
    rewrite parseQueryParts_default by done. cbn.
    destruct (where_ (parts this)) as [|w ws] eqn:Hw; repeat split; done.
  - intros textOf. vm_compute. done.
Qed.

Lemma bare_fragment_defaults_to_and_witness :
  let this := parseQuery "WHERE id = 1" emptyQuery in
  let this' := parseQuery " name = 'John' " this in
  where_ (parts this') = ["id = 1"; "AND name = 'John'"].
Proof.
  intros this this'.
  assert (Hkw : isKeyword (toLowerCase (trim " name = 'John' ")) = false)
    by reflexivity.
  destruct (proj1 bare_fragment_defaults_to_and " name = 'John' " this Hkw)
    as (Hne & _).
  apply Hne. discriminate.
Defined.

(** ** The command-line example *)

(** C9. From the empty query, the initial-query parser on
    [SELECT id, name FROM users] and then the classifier on
    [WHERE active = true] and on [LIMIT 10] give a query that renders
    [SELECT\n  id, name FROM users\nWHERE active = true\nLIMIT 10]; so
    does the command-line tool on that base text with
    [--where "active = true" --limit 10]. *)
Theorem cli_example_renders :
  toString
    (parseQuery "LIMIT 10"
       (parseQuery "WHERE active = true"
          (parseInitialQuery "SELECT id, name FROM users" emptyQuery)))
  = "SELECT" +:+ NL +:+ "  id, name FROM users" +:+ NL
    +:+ "WHERE active = true" +:+ NL +:+ "LIMIT 10"
  ∧ fst <$> Store.cli "SELECT id, name FROM users"
              ["--file"; "query.sql"; "--where"; "active = true"; "--limit"; "10"]
              Store.emptyStore
    = Some ("SELECT" +:+ NL +:+ "  id, name FROM users" +:+ NL
            +:+ "WHERE active = true" +:+ NL +:+ "LIMIT 10")
  ∧ fst <$> Store.cli ("SELECT id, name FROM users" +:+ NL)
              ["--file"; "query.sql"; "--where"; "active = true"; "--limit"; "10"]
              Store.emptyStore
    = Some ("SELECT" +:+ NL +:+ "  id, name FROM users" +:+ NL
            +:+ "WHERE active = true" +:+ NL +:+ "LIMIT 10").
Proof. split_and!; vm_compute; reflexivity. Qed.

(** ** Initial-query parser *)

Lemma isLineKeyword_false (lower : string) :
  isLineKeyword lower = false →
  startsWith lower "select" = false ∧ startsWith lower "from" = false
  ∧ isJoin lower = false ∧ startsWith lower "where" = false
  ∧ startsWith lower "group by" = false ∧ startsWith lower "order by" = false
  ∧ startsWith lower "limit" = false ∧ startsWith lower "offset" = false.
Proof. unfold isLineKeyword. rewrite !orb_false_iff. tauto. Qed.

(** A line that is no keyword line continues the current section. *)
Lemma parseLine_continuation (sec : option Section_) (p : QueryParts) (line : string) :
  isLineKeyword (toLowerCase line) = false →
  parseLine (sec, p) line
  = (sec,
     match sec with
     | Some SecSelect => set_select (select p ++ selectContinuation line) p
     | Some SecWhere => set_where (where_ p ++ [line]) p
     | Some SecGroupBy => set_groupBy (groupBy p ++ [line]) p
     | Some SecOrderBy => set_orderBy (orderBy p ++ [line]) p
     | _ => p
     end).
Proof.
  intros (H1 & H2 & H3 & H4 & H5 & H6 & H7 & H8)%isLineKeyword_false.
  unfold parseLine. cbv zeta. rewrite H1, H2, H3, H4, H5, H6, H7, H8.
  destruct sec as [[]|]; try reflexivity.
  unfold selectContinuation. cbv zeta.
  destruct (negb (String.eqb line ",") && negb (matchCommaOnly line)); cbn [andb].
  - destruct (nonEmpty _); [reflexivity|].
    destruct p; unfold set_select; cbn. by rewrite app_nil_r.
  - destruct p; unfold set_select; cbn. by rewrite app_nil_r.
Qed.

(** A LIMIT or OFFSET line reaches its own branch: no earlier test of
    the loop holds for it. *)
Lemma limit_or_offset_not_earlier (lower : string) :
  startsWith lower "limit" || startsWith lower "offset" = true →
  startsWith lower "select" = false ∧ startsWith lower "from" = false
  ∧ isJoin lower = false ∧ startsWith lower "where" = false
  ∧ startsWith lower "group by" = false ∧ startsWith lower "order by" = false.
Proof.
  unfold isJoin. intros H.
  destruct lower as [|c1 [|c2 lower]]; [discriminate| |].
  - exfalso. cbn in H. rewrite !andb_false_r in H. discriminate.
  - cbn [startsWith] in H |- *.
    destruct (Ascii.eqb_spec c1 "l") as [->|]; cbn in H |- *.
    + destruct (Ascii.eqb_spec c2 "i") as [->|]; [|discriminate]. done.
    + destruct (Ascii.eqb_spec c1 "o") as [->|]; [|discriminate]. cbn in H |- *.
      destruct (Ascii.eqb_spec c2 "f") as [->|]; [|discriminate]. done.
Qed.

Lemma parseLine_limit_or_offset (sec : option Section_) (p : QueryParts) (line : string) :
  isLimitOrOffset line = true →
  parseLine (sec, p) line
  = (sec, if startsWith (toLowerCase line) "limit"
          then set_limit (Some (trim (substring_from 5 line))) p
          else set_offset (Some (trim (substring_from 6 line))) p).
Proof.
  unfold isLimitOrOffset. intros H.
  destruct (limit_or_offset_not_earlier _ H) as (H1 & H2 & H3 & H4 & H5 & H6).
  unfold parseLine. cbv zeta. rewrite H1, H2, H3, H4, H5, H6.
  destruct (startsWith (toLowerCase line) "limit") eqn:Hl; [done|].
  cbn [orb] in H. by rewrite H.
Qed.

(** C10. A LIMIT or OFFSET line sets its field, to the trimmed text
    after the keyword, changes no other field and keeps the current
    section: in a statement where a line that names no clause follows
    it, that line continues the section that was current before the
    LIMIT or OFFSET line (select, where, groupBy or orderBy), or is
    ignored when there is none; the [limit] and [offset] fields do not
    take it. *)
Theorem limit_offset_keep_current_section :
  ∀ (before : list string) (p0 : QueryParts) (lim next : string),
    isLimitOrOffset lim = true →
    isLineKeyword (toLowerCase next) = false →
    let '(sec, p) := parseLines before (None, p0) in
    let '(sec1, p1) := parseLines (before ++ [lim]) (None, p0) in
    let '(sec2, p2) := parseLines (before ++ [lim; next]) (None, p0) in
    sec1 = sec ∧ sec2 = sec
    ∧ (if startsWith (toLowerCase lim) "limit"
       then limit p1 = Some (trim (substring_from 5 lim)) ∧ offset p1 = offset p
       else offset p1 = Some (trim (substring_from 6 lim)) ∧ limit p1 = limit p)
    ∧ select p1 = select p ∧ from p1 = from p ∧ joins p1 = joins p
    ∧ where_ p1 = where_ p ∧ groupBy p1 = groupBy p ∧ orderBy p1 = orderBy p
    ∧ limit p2 = limit p1 ∧ offset p2 = offset p1 ∧ from p2 = from p
    ∧ joins p2 = joins p
    ∧ select p2
      = select p ++ (if sec is Some SecSelect then selectContinuation next else [])
    ∧ where_ p2 = where_ p ++ (if sec is Some SecWhere then [next] else [])
    ∧ groupBy p2 = groupBy p ++ (if sec is Some SecGroupBy then [next] else [])
    ∧ orderBy p2 = orderBy p ++ (if sec is Some SecOrderBy then [next] else []).
Proof.
  intros before p0 lim next Hlim Hnext.
  replace (before ++ [lim; next]) with ((before ++ [lim]) ++ [next])
    by (by rewrite <- app_assoc).
  unfold parseLines. rewrite !fold_left_app. cbn [fold_left].
  destruct (fold_left parseLine before (None, p0)) as [sec p].
  rewrite parseLine_limit_or_offset by done.
  rewrite parseLine_continuation by done.
  destruct (startsWith (toLowerCase lim) "limit");
    destruct sec as [[]|]; cbn; rewrite ?app_nil_r; done.
Qed.

Lemma limit_offset_keep_current_section_witness :
  let '(sec, p) := parseLines ["WHERE a = 1"] (None, emptyParts) in
  let '(sec1, p1) := parseLines (["WHERE a = 1"] ++ ["LIMIT 5"]) (None, emptyParts) in
  let '(sec2, p2) := parseLines (["WHERE a = 1"] ++ ["LIMIT 5"; "AND b = 2"])
                       (None, emptyParts) in
  sec2 = sec ∧ limit p1 = Some "5" ∧ offset p1 = None ∧ limit p2 = Some "5"
  ∧ where_ p2 = where_ p ++ ["AND b = 2"].
Proof.
  pose proof (limit_offset_keep_current_section ["WHERE a = 1"] emptyParts
                "LIMIT 5" "AND b = 2" eq_refl eq_refl) as H.
  vm_compute in H. vm_compute. tauto.
Defined.

(** ** Entries of the select, groupBy and orderBy buckets *)

Lemma interpolateStep_parts textOf (acc : string * SQLQuery) str gap :
  parts (snd (interpolateStep textOf acc str gap)) = parts (snd acc).
Proof.
  destruct acc as [result this]. destruct gap as [v|]; [|done].
  destruct v; try done.
Qed.

Lemma interpolateFrom_parts textOf strings values :
  ∀ i (acc : string * SQLQuery),
    parts (snd (interpolateFrom textOf i strings values acc)) = parts (snd acc).
Proof.
  induction strings as [|str rest IH]; intros i acc; [done|].
  cbn [interpolateFrom]. rewrite IH. apply interpolateStep_parts.
Qed.

Lemma _interpolate_parts textOf strings values this :
  parts (snd (_interpolate textOf strings values this)) = parts this.
Proof. unfold _interpolate. by rewrite interpolateFrom_parts. Qed.

Lemma nonEmpty_ne (s : string) : nonEmpty s = true → s ≠ "".
Proof. by destruct s. Qed.

Lemma parseLine_select_noEmpty sec p line :
  noEmptyEntry (select p) → noEmptyEntry (select (snd (parseLine (sec, p) line))).
Proof.
  unfold noEmptyEntry, parseLine. intros Hp. cbv zeta.
  repeat case_match; cbn; try done.
  - apply Forall_singleton. by apply nonEmpty_ne.
  - apply Forall_app. split; [done|]. apply Forall_singleton. by apply nonEmpty_ne.
Qed.

Lemma parseLines_select_noEmpty lines :
  ∀ sec p, noEmptyEntry (select p) →
           noEmptyEntry (select (snd (parseLines lines (sec, p)))).
Proof.
  unfold parseLines.
  induction lines as [|line rest IH]; intros sec p Hp; [done|].
  cbn [fold_left].
  pose proof (parseLine_select_noEmpty sec p line Hp) as H.
  destruct (parseLine (sec, p) line) as [sec' p']. by apply IH.
Qed.

Lemma parseInitialParts_select_noEmpty query p :
  noEmptyEntry (select p) → noEmptyEntry (select (parseInitialParts query p)).
Proof. apply parseLines_select_noEmpty. Qed.

Lemma parseQueryParts_select_noEmpty query p :
  noEmptyEntry (select p) → noEmptyEntry (select (parseQueryParts query p)).
Proof.
  intros Hp. unfold parseQueryParts. cbv zeta.
  repeat case_match; cbn; try done.
  by apply parseInitialParts_select_noEmpty.
Qed.

Lemma reachable_select_noEmpty q :
  reachable q → noEmptyEntry (select (parts q)).
Proof.
  induction 1 as [textOf template|query this _ IH|query this _ IH
                 |textOf strings values this _ IH].
  - unfold newSQLQuery. destruct template as [[strings values]|];
      [|by apply Forall_nil].
    destruct (0 <? length strings); [|by apply Forall_nil].
    pose proof (_interpolate_parts textOf strings values emptyQuery) as Hparts.
    destruct (_interpolate textOf strings values emptyQuery) as [fullQuery this].
    cbn in Hparts |- *. apply parseInitialParts_select_noEmpty.
    rewrite Hparts. by apply Forall_nil.
  - by apply parseInitialParts_select_noEmpty.
  - by apply parseQueryParts_select_noEmpty.
  - unfold sql.
    pose proof (_interpolate_parts textOf strings values
                  (mkQuery (parts this) (params this) (paramCounter this))) as Hparts.
    destruct (_interpolate textOf strings values _) as [fragment newQuery].
    cbn in Hparts |- *. apply parseQueryParts_select_noEmpty. by rewrite Hparts.
Qed.

Lemma validEntry_spec (x : string) : validEntry x = true → x ≠ "" ∧ x ≠ ",".
Proof.
  unfold validEntry. rewrite !andb_true_iff, !negb_true_iff.
  intros [[Hne _] Hcomma]. split; [by apply nonEmpty_ne|].
  intros ->. discriminate.
Qed.

(** C8, as the code has it. The classifier stores what follows
    [GROUP BY] or [ORDER BY] as it is, so a reachable query can hold an
    empty or a bare-comma entry in [groupBy] and [orderBy]; and a
    SELECT line can seed the [select] bucket with a bare comma. *)
Lemma stray_entries_reachable :
  reachable (parseQuery "GROUP BY" emptyQuery)
  ∧ groupBy (parts (parseQuery "GROUP BY" emptyQuery)) = [""]
  ∧ reachable (parseQuery "ORDER BY ," emptyQuery)
  ∧ orderBy (parts (parseQuery "ORDER BY ," emptyQuery)) = [","]
  ∧ reachable (parseInitialQuery "SELECT ," emptyQuery)
  ∧ select (parts (parseInitialQuery "SELECT ," emptyQuery)) = [","].
Proof.
  assert (reachable emptyQuery) by apply (reach_new (λ _, "") None).
  repeat split; try (by constructor).
Qed.

(** ** Strings: lines and trimming *)

#[local] Arguments String.append : simpl nomatch.

Lemma split_no_sep (x : string) :
  hasChar LF x = false → split LF x = [x].
Proof.
  induction x as [|a x IH]; [done|]. cbn [hasChar split].
  intros [Ha Hx]%orb_false_iff. rewrite Ha, IH; done.
Qed.

Lemma split_sep (x rest : string) :
  hasChar LF x = false → split LF (x +:+ String LF rest) = x :: split LF rest.
Proof.
  induction x as [|a x IH]; [done|]. cbn [hasChar].
  intros [Ha Hx]%orb_false_iff. cbn [String.append split].
  rewrite Ha, IH; done.
Qed.

Lemma split_join (ls : list string) :
  ls ≠ [] → forallb noLF ls = true →
  split LF (join NL ls) = ls.
Proof.
  induction ls as [|x [|y ls] IH]; [done| |].
  - intros _ [Hx%negb_true_iff _]%andb_true_iff. by apply split_no_sep.
  - intros _ [Hx%negb_true_iff Hls]%andb_true_iff.
    change (join NL (x :: y :: ls)) with (x +:+ String LF (join NL (y :: ls))).
    rewrite split_sep by done. f_equal. by apply IH.
Qed.

Lemma trimStart_length (s : string) : String.length (trimStart s) ≤ String.length s.
Proof.
  induction s as [|a s IH]; cbn; [lia|]. destruct (isWhiteSpace a); cbn; lia.
Qed.

Lemma trimEnd_length (s : string) : String.length (trimEnd s) ≤ String.length s.
Proof.
  induction s as [|a s IH]; cbn; [lia|].
  destruct (trimEnd s); [destruct (isWhiteSpace a)|]; cbn in *; lia.
Qed.

(** A trimmed, non-empty text starts with a character that is no white
    space, and neither [trimStart] nor [trimEnd] changes it. *)
Lemma trimmed_first (x : string) :
  trim x = x → nonEmpty x = true →
  ∃ c r, x = String c r ∧ isWhiteSpace c = false.
Proof.
  destruct x as [|c r]; [done|]. intros Ht _. exists c, r. split; [done|].
  destruct (isWhiteSpace c) eqn:Hc; [|done]. exfalso.
  unfold trim in Ht. cbn [trimStart] in Ht. rewrite Hc in Ht.
  pose proof (trimEnd_length (trimStart r)). pose proof (trimStart_length r).
  rewrite Ht in *. cbn in *. lia.
Qed.

Lemma trimmed_trimStart (x : string) : trim x = x → trimStart x = x.
Proof.
  destruct x as [|c r]; [done|]. intros Ht.
  destruct (trimmed_first _ Ht eq_refl) as (c' & r' & [= <- <-] & Hc).
  cbn. by rewrite Hc.
Qed.

Lemma trimmed_trimEnd (x : string) : trim x = x → trimEnd x = x.
Proof. intros Ht. unfold trim in Ht. by rewrite (trimmed_trimStart _ Ht) in Ht. Qed.

Lemma trimEnd_cons (a : ascii) (s : string) :
  trimEnd s = s → nonEmpty s = true → trimEnd (String a s) = String a s.
Proof. intros Hs Hne. cbn. rewrite Hs. by destruct s. Qed.

Lemma trimEnd_snoc (s : string) (c : ascii) :
  isWhiteSpace c = false → trimEnd (s +:+ String c "") = s +:+ String c "".
Proof.
  intros Hc. induction s as [|a s IH]; cbn.
  - by rewrite Hc.
  - cbn in IH. rewrite IH. by destruct s.
Qed.

Lemma trim_fixed (x : string) :
  trimStart x = x → trimEnd x = x → trim x = x.
Proof. unfold trim. by intros -> ->. Qed.

Lemma cleanText_spec (x : string) :
  cleanText x = true → nonEmpty x = true ∧ trim x = x ∧ hasChar LF x = false.
Proof.
  unfold cleanText, noLF. rewrite !andb_true_iff, negb_true_iff.
  intros [[? ?%String.eqb_eq] ?]. done.
Qed.

Lemma hasChar_app (c : ascii) (a b : string) :
  hasChar c (a +:+ b) = hasChar c a || hasChar c b.
Proof. induction a as [|x a IH]; cbn; [done|]. by rewrite IH, orb_assoc. Qed.

Lemma toLowerCase_app (a b : string) :
  toLowerCase (a +:+ b) = toLowerCase a +:+ toLowerCase b.
Proof. induction a as [|x a IH]; cbn; [done|]. by rewrite IH. Qed.

Lemma startsWith_snoc (s kw : string) (c : ascii) :
  hasChar c kw = false → startsWith (s +:+ String c "") kw = startsWith s kw.
Proof.
  revert s. induction kw as [|k kw IH]; intros s; [by destruct s|].
  cbn [hasChar]. intros [Hk Hkw]%orb_false_iff.
  destruct s as [|a s]; cbn.
  - rewrite Ascii.eqb_sym, Hk. done.
  - by rewrite IH.
Qed.

Lemma isLineKeyword_snoc_comma (s : string) :
  isLineKeyword (s +:+ ",") = isLineKeyword s.
Proof.
  unfold isLineKeyword, isJoin. by rewrite !startsWith_snoc.
Qed.

(** ** Strings: the commas of a SELECT list *)

Lemma allWhiteSpace_snoc_comma (s : string) : allWhiteSpace (s +:+ ",") = false.
Proof.
  induction s as [|a s IH]; cbn; [done|]. rewrite IH. apply andb_false_r.
Qed.

Lemma allWhiteSpace_trimEnd (s : string) : allWhiteSpace s = true → trimEnd s = "".
Proof.
  induction s as [|a s IH]; cbn; [done|].
  intros [Ha Hs]%andb_true_iff. by rewrite IH, Ha.
Qed.

Lemma replaceTrailingComma_snoc (f : string) : replaceTrailingComma (f +:+ ",") = f.
Proof.
  induction f as [|a f IH]; cbn; [done|].
  by rewrite allWhiteSpace_snoc_comma, andb_false_r, IH.
Qed.

Lemma trimEnd_tail (a : ascii) (r : string) :
  trimEnd (String a r) = String a r → trimEnd r = r.
Proof.
  cbn. destruct (trimEnd r) as [|b t].
  - destruct (isWhiteSpace a); [done|]. by intros [= <-].
  - by intros [= <-].
Qed.

Lemma replaceTrailingComma_clean (f : string) :
  trimEnd f = f → endsWithChar f "," = false → replaceTrailingComma f = f.
Proof.
  induction f as [|a r IH]; [done|]. intros Ht He.
  pose proof (trimEnd_tail _ _ Ht) as Hr. cbn [replaceTrailingComma].
  destruct (Ascii.eqb a "," && allWhiteSpace r) eqn:Hm.
  - exfalso. apply andb_true_iff in Hm as [Ha Hw].
    destruct r as [|b r]; [cbn in He; congruence|].
    rewrite (allWhiteSpace_trimEnd _ Hw) in Hr. done.
  - f_equal. apply IH; [done|]. by destruct r.
Qed.

Lemma cleanField_spec (l : FieldLine) :
  cleanField l = true →
  ∃ c r, fl_field l = String c r ∧ isWhiteSpace c = false
         ∧ Ascii.eqb c "," = false ∧ trimEnd (fl_field l) = fl_field l
         ∧ endsWithChar (fl_field l) "," = false
         ∧ isLineKeyword (toLowerCase (fl_field l)) = false
         ∧ hasChar LF (fl_field l) = false.
Proof.
  unfold cleanField. rewrite !andb_true_iff, !negb_true_iff.
  intros [[[(Hne & Ht & Hlf)%cleanText_spec Hs] He] Hk].
  destruct (trimmed_first _ Ht Hne) as (c & r & Hf & Hc).
  exists c, r. rewrite Hf in Hs. cbn in Hs. rewrite andb_true_r in Hs.
  eauto 10 using trimmed_trimEnd.
Qed.

Lemma append_empty (s : string) : s +:+ "" = s.
Proof. induction s as [|a s IH]; cbn; [done|]. by rewrite IH. Qed.

Lemma append_assoc (a b c : string) : (a +:+ b) +:+ c = a +:+ b +:+ c.
Proof. induction a as [|x a IH]; cbn; [done|]. by rewrite IH. Qed.

Lemma fieldLine_trim (l : FieldLine) :
  cleanField l = true → trim (fieldLineText l) = fieldLineTrimmed l.
Proof.
  intros (c & r & Hf & Hc & Hcomma & Ht & He & Hk & Hlf)%cleanField_spec.
  unfold fieldLineText.
  change (trim ("  " +:+ ?x)) with (trim x).
  fold (fieldLineTrimmed l). unfold fieldLineTrimmed.
  apply trim_fixed.
  - destruct (fl_lead l); [done|]. rewrite Hf. cbn. by rewrite Hc.
  - destruct (fl_trail l).
    + rewrite <- append_assoc. by apply trimEnd_snoc.
    + rewrite append_empty. destruct (fl_lead l); [|done].
      change (", " +:+ ?x) with (String "," (String " " x)).
      assert (nonEmpty (fl_field l) = true) by (by rewrite Hf).
      rewrite trimEnd_cons; [done| |done].
      by rewrite trimEnd_cons.
Qed.

Lemma fieldLine_noLF (l : FieldLine) :
  cleanField l = true → hasChar LF (fieldLineText l) = false.
Proof.
  intros (c & r & Hf & Hc & Hcomma & Ht & He & Hk & Hlf)%cleanField_spec.
  unfold fieldLineText. rewrite !hasChar_app, Hlf.
  by destruct (fl_lead l), (fl_trail l).
Qed.

Lemma fieldLine_nonEmpty (l : FieldLine) :
  cleanField l = true → nonEmpty (fieldLineTrimmed l) = true.
Proof.
  intros (c & r & Hf & _)%cleanField_spec.
  unfold fieldLineTrimmed. rewrite Hf. by destruct (fl_lead l).
Qed.

Lemma fieldLine_notKeyword (l : FieldLine) :
  cleanField l = true → isLineKeyword (toLowerCase (fieldLineTrimmed l)) = false.
Proof.
  intros (c & r & Hf & Hc & Hcomma & Ht & He & Hk & Hlf)%cleanField_spec.
  unfold fieldLineTrimmed.
  destruct (fl_lead l); [done|].
  change ("" +:+ ?x) with x.
  destruct (fl_trail l); rewrite ?append_empty; [|done].
  rewrite toLowerCase_app. change (toLowerCase ",") with ",".
  by rewrite isLineKeyword_snoc_comma.
Qed.

Lemma fieldLine_continuation (l : FieldLine) :
  cleanField l = true → selectContinuation (fieldLineTrimmed l) = [fl_field l].
Proof.
  intros (c & r & Hf & Hc & Hcomma & Ht & He & Hk & Hlf)%cleanField_spec.
  unfold selectContinuation, fieldLineTrimmed. cbv zeta.
  set (y := fl_field l +:+ (if fl_trail l then "," else "")).
  assert (Hclean : replaceTrailingComma y = fl_field l).
  { subst y. destruct (fl_trail l); [apply replaceTrailingComma_snoc|].
    rewrite append_empty. by apply replaceTrailingComma_clean. }
  assert (Hy : ∃ r', y = String c r') by (subst y; rewrite Hf; cbn; eauto).
  destruct Hy as [r' Hy].
  assert (Hne : nonEmpty (fl_field l) = true) by (by rewrite Hf).
  destruct (fl_lead l).
  - change (", " +:+ y) with (String "," (String " " y)).
    unfold matchCommaOnly, replaceLeadingComma.
    cbn [trimStart String.eqb Ascii.eqb Bool.eqb andb negb].
    change (isWhiteSpace ",") with false. change (isWhiteSpace " ") with true.
    cbn match. cbn [allWhiteSpace]. change (isWhiteSpace " ") with true.
    assert (Hts : trimStart y = y) by (rewrite Hy; cbn; by rewrite Hc).
    assert (Haw : allWhiteSpace y = false) by (rewrite Hy; cbn; by rewrite Hc).
    rewrite Hts, Haw, Hclean, Hne. done.
  - change ("" +:+ y) with y.
    unfold matchCommaOnly, replaceLeadingComma.
    rewrite Hy. cbn [trimStart String.eqb]. rewrite Hc, Hcomma. cbn [andb negb].
    rewrite <- Hy, Hclean, Hne. done.
Qed.

(** ** Lines of a statement, one by one *)

Lemma trim_space (x : string) : trim (String " " x) = trim x.
Proof. reflexivity. Qed.

(** Decides the keyword tests on a line whose first characters are
    known. *)
Ltac decide_keywords :=
  repeat match goal with
    | |- context [startsWith ?s ?k] =>
        let b := eval lazy in (startsWith s k) in
        change (startsWith s k) with b
    | |- context [isJoin ?s] =>
        let b := eval lazy in (isJoin s) in
        change (isJoin s) with b
    end;
  cbv iota.

Ltac keyword_line Ht :=
  unfold parseLine; cbv zeta; decide_keywords;
  cbn [substring_from String.append]; rewrite trim_space, Ht.

Lemma parseLine_select_text sec p x :
  cleanText x = true →
  parseLine (sec, p) ("SELECT " +:+ x) = (Some SecSelect, set_select [x] p).
Proof.
  intros (Hne & Ht & _)%cleanText_spec. keyword_line Ht. by rewrite Hne.
Qed.

Lemma parseLine_from sec p t :
  cleanText t = true →
  parseLine (sec, p) ("FROM " +:+ t) = (Some SecFrom, set_from (Some t) p).
Proof. intros (Hne & Ht & _)%cleanText_spec. by keyword_line Ht. Qed.

Lemma parseLine_where sec p c :
  cleanText c = true →
  parseLine (sec, p) ("WHERE " +:+ c) = (Some SecWhere, set_where (where_ p ++ [c]) p).
Proof. intros (Hne & Ht & _)%cleanText_spec. by keyword_line Ht. Qed.

Lemma parseLine_groupBy sec p g :
  cleanText g = true →
  parseLine (sec, p) ("GROUP BY " +:+ g)
  = (Some SecGroupBy, set_groupBy (groupBy p ++ [g]) p).
Proof. intros (Hne & Ht & _)%cleanText_spec. by keyword_line Ht. Qed.

Lemma parseLine_orderBy sec p g :
  cleanText g = true →
  parseLine (sec, p) ("ORDER BY " +:+ g)
  = (Some SecOrderBy, set_orderBy (orderBy p ++ [g]) p).
Proof. intros (Hne & Ht & _)%cleanText_spec. by keyword_line Ht. Qed.

Lemma parseLine_limit sec p v :
  cleanText v = true →
  parseLine (sec, p) ("LIMIT " +:+ v) = (sec, set_limit (Some v) p).
Proof. intros (Hne & Ht & _)%cleanText_spec. by keyword_line Ht. Qed.

Lemma parseLine_offset sec p v :
  cleanText v = true →
  parseLine (sec, p) ("OFFSET " +:+ v) = (sec, set_offset (Some v) p).
Proof. intros (Hne & Ht & _)%cleanText_spec. by keyword_line Ht. Qed.

Lemma isJoin_not_earlier (lower : string) :
  isJoin lower = true →
  startsWith lower "select" = false ∧ startsWith lower "from" = false.
Proof.
  unfold isJoin. destruct lower as [|c lower]; [done|]. cbn.
  destruct (Ascii.eqb_spec c "s") as [->|]; [done|].
  destruct (Ascii.eqb_spec c "f") as [->|]; done.
Qed.

Lemma parseLine_join sec p j :
  isJoin (toLowerCase j) = true →
  parseLine (sec, p) j = (Some SecJoins, set_joins (joins p ++ [j]) p).
Proof.
  intros Hj. destruct (isJoin_not_earlier _ Hj) as [H1 H2].
  unfold parseLine. cbv zeta. by rewrite H1, H2, Hj.
Qed.

(** ** Groups of lines *)

Lemma parseLines_cons line lines st :
  parseLines (line :: lines) st = parseLines lines (parseLine st line).
Proof. reflexivity. Qed.

Lemma parseLines_app l1 l2 st :
  parseLines (l1 ++ l2) st = parseLines l2 (parseLines l1 st).
Proof. apply fold_left_app. Qed.

Lemma parseLines_fields (fs : list FieldLine) :
  ∀ p, forallb cleanField fs = true →
       parseLines (fieldLineTrimmed <$> fs) (Some SecSelect, p)
       = (Some SecSelect, set_select (select p ++ (fl_field <$> fs)) p).
Proof.
  induction fs as [|l fs IH]; intros p Hfs.
  - destruct p. cbn. by rewrite app_nil_r.
  - apply andb_true_iff in Hfs as [Hl Hfs].
    rewrite fmap_cons, parseLines_cons.
    rewrite parseLine_continuation by (by apply fieldLine_notKeyword).
    rewrite fieldLine_continuation by done.
    rewrite IH by done. destruct p. cbn. by rewrite <- app_assoc.
Qed.

Lemma parseLines_joins (js : list string) :
  ∀ sec p, forallb cleanJoin js = true →
           ∃ sec', parseLines js (sec, p) = (sec', set_joins (joins p ++ js) p).
Proof.
  induction js as [|j js IH]; intros sec p Hjs.
  - exists sec. destruct p. cbn. by rewrite app_nil_r.
  - apply andb_true_iff in Hjs as [[_ Hj]%andb_true_iff Hjs].
    rewrite parseLines_cons, parseLine_join by done.
    destruct (IH (Some SecJoins) (set_joins (joins p ++ [j]) p) Hjs) as [sec' ->].
    exists sec'. destruct p. cbn. by rewrite <- app_assoc.
Qed.

Lemma parseLines_continuations (ws : list string) :
  ∀ p, forallb cleanContinuation ws = true →
       parseLines ws (Some SecWhere, p)
       = (Some SecWhere, set_where (where_ p ++ ws) p).
Proof.
  induction ws as [|w ws IH]; intros p Hws.
  - destruct p. cbn. by rewrite app_nil_r.
  - apply andb_true_iff in Hws as [[_ Hw%negb_true_iff]%andb_true_iff Hws].
    rewrite parseLines_cons, parseLine_continuation by done.
    rewrite IH by done. destruct p. cbn. by rewrite <- app_assoc.
Qed.

Lemma parseLines_where (conds : list string) sec p :
  cleanWhere conds = true →
  ∃ sec', parseLines (whereTrimmed conds) (sec, p)
          = (sec', set_where (where_ p ++ conds) p).
Proof.
  destruct conds as [|c conts]; intros Hc.
  - exists sec. destruct p. cbn. by rewrite app_nil_r.
  - apply andb_true_iff in Hc as [Hc Hconts]. exists (Some SecWhere).
    cbn [whereTrimmed]. rewrite parseLines_cons, parseLine_where by done.
    rewrite parseLines_continuations by done.
    destruct p. cbn. by rewrite <- app_assoc.
Qed.

Lemma parseLines_optGroupBy v sec p :
  optAll cleanListEntry v = true →
  ∃ sec', parseLines (optLine "GROUP BY " v) (sec, p)
          = (sec', set_groupBy (groupBy p ++ option_list v) p).
Proof.
  destruct v as [g|]; intros Hv.
  - apply andb_true_iff in Hv as [Hg _]. eexists.
    cbn [optLine]. by rewrite parseLines_cons, parseLine_groupBy.
  - exists sec. destruct p. cbn. by rewrite app_nil_r.
Qed.

Lemma parseLines_optOrderBy v sec p :
  optAll cleanListEntry v = true →
  ∃ sec', parseLines (optLine "ORDER BY " v) (sec, p)
          = (sec', set_orderBy (orderBy p ++ option_list v) p).
Proof.
  destruct v as [g|]; intros Hv.
  - apply andb_true_iff in Hv as [Hg _]. eexists.
    cbn [optLine]. by rewrite parseLines_cons, parseLine_orderBy.
  - exists sec. destruct p. cbn. by rewrite app_nil_r.
Qed.

Lemma parseLines_optLimit v sec p :
  optAll cleanScalar v = true →
  parseLines (optLine "LIMIT " v) (sec, p)
  = (sec, if v is Some _ then set_limit v p else p).
Proof.
  destruct v as [g|]; intros Hv; [|done].
  apply andb_true_iff in Hv as [Hg _].
  cbn [optLine]. by rewrite parseLines_cons, parseLine_limit.
Qed.

Lemma parseLines_optOffset v sec p :
  optAll cleanScalar v = true →
  parseLines (optLine "OFFSET " v) (sec, p)
  = (sec, if v is Some _ then set_offset v p else p).
Proof.
  destruct v as [g|]; intros Hv; [|done].
  apply andb_true_iff in Hv as [Hg _].
  cbn [optLine]. by rewrite parseLines_cons, parseLine_offset.
Qed.

(** ** The text of a statement and its trimmed lines *)

Lemma nonEmpty_app_r (a b : string) : nonEmpty b = true → nonEmpty (a +:+ b) = true.
Proof. destruct a; [done|]. done. Qed.

Lemma trimEnd_app (k x : string) :
  trimEnd x = x → nonEmpty x = true → trimEnd (k +:+ x) = k +:+ x.
Proof.
  intros Hx Hne. induction k as [|a k IH]; [done|].
  change (String a k +:+ x) with (String a (k +:+ x)).
  apply trimEnd_cons; [done|]. by apply nonEmpty_app_r.
Qed.

Lemma trim_keyword (c : ascii) (k x : string) :
  isWhiteSpace c = false → cleanText x = true →
  trim (String c k +:+ x) = String c k +:+ x.
Proof.
  intros Hc (Hne & Ht & _)%cleanText_spec. apply trim_fixed.
  - cbn. by rewrite Hc.
  - apply trimEnd_app; [by apply trimmed_trimEnd|done].
Qed.

Lemma keyword_noLF (k x : string) :
  hasChar LF k = false → cleanText x = true → negb (hasChar LF (k +:+ x)) = true.
Proof.
  intros Hk (_ & _ & Hx)%cleanText_spec. by rewrite hasChar_app, Hk, Hx.
Qed.

Lemma optLine_trim (c : ascii) (k : string) (f : string → bool) v :
  isWhiteSpace c = false → (∀ x, f x = true → cleanText x = true) →
  optAll f v = true → trim <$> optLine (String c k) v = optLine (String c k) v.
Proof.
  intros Hc Hf Hv. destruct v as [x|]; [|done]. cbn [optLine fmap list_fmap].
  rewrite trim_keyword; [done..|]. by apply Hf.
Qed.

Lemma optLine_noLF (k : string) (f : string → bool) v :
  hasChar LF k = false → (∀ x, f x = true → cleanText x = true) →
  optAll f v = true → forallb noLF (optLine k v) = true.
Proof.
  intros Hk Hf Hv. destruct v as [x|]; [|done]. cbn [optLine forallb].
  unfold noLF. rewrite keyword_noLF; [done..|]. by apply Hf.
Qed.

Lemma optLine_nonEmpty (c : ascii) (k : string) v :
  Forall (λ x, nonEmpty x = true) (optLine (String c k) v).
Proof. destruct v; repeat constructor. Qed.

Lemma cleanListEntry_text x : cleanListEntry x = true → cleanText x = true.
Proof. by intros [? _]%andb_true_iff. Qed.

Lemma cleanScalar_text x : cleanScalar x = true → cleanText x = true.
Proof. by intros [? _]%andb_true_iff. Qed.

Lemma fields_trim (fs : list FieldLine) :
  forallb cleanField fs = true →
  trim <$> (fieldLineText <$> fs) = fieldLineTrimmed <$> fs.
Proof.
  induction fs as [|l fs IH]; [done|]. intros [Hl Hfs]%andb_true_iff.
  rewrite !fmap_cons, fieldLine_trim, IH; done.
Qed.

Lemma fields_noLF (fs : list FieldLine) :
  forallb cleanField fs = true → forallb noLF (fieldLineText <$> fs) = true.
Proof.
  induction fs as [|l fs IH]; [done|]. intros [Hl Hfs]%andb_true_iff.
  rewrite fmap_cons. cbn [forallb]. unfold noLF at 1.
  rewrite fieldLine_noLF, IH; done.
Qed.

Lemma fields_nonEmpty (fs : list FieldLine) :
  forallb cleanField fs = true →
  Forall (λ x, nonEmpty x = true) (fieldLineTrimmed <$> fs).
Proof.
  induction fs as [|l fs IH]; [constructor|]. intros [Hl Hfs]%andb_true_iff.
  rewrite fmap_cons. constructor; [by apply fieldLine_nonEmpty|by apply IH].
Qed.

Lemma joins_clean (js : list string) :
  forallb cleanJoin js = true →
  trim <$> js = js ∧ forallb noLF js = true ∧ Forall (λ x, nonEmpty x = true) js.
Proof.
  induction js as [|j js IH]; [done|].
  intros [[(Hne & Ht & Hlf)%cleanText_spec _]%andb_true_iff Hjs]%andb_true_iff.
  destruct (IH Hjs) as (IH1 & IH2 & IH3).
  rewrite fmap_cons, Ht, IH1. cbn [forallb]. unfold noLF at 1. rewrite Hlf, IH2.
  repeat split. by constructor.
Qed.

Lemma continuations_clean (ws : list string) :
  forallb cleanContinuation ws = true →
  trim <$> ((λ w, "  " +:+ w) <$> ws) = ws
  ∧ forallb noLF ((λ w, "  " +:+ w) <$> ws) = true
  ∧ Forall (λ x, nonEmpty x = true) ws.
Proof.
  induction ws as [|w ws IH]; [done|].
  intros [[(Hne & Ht & Hlf)%cleanText_spec _]%andb_true_iff Hws]%andb_true_iff.
  destruct (IH Hws) as (IH1 & IH2 & IH3).
  rewrite !fmap_cons, IH1. cbn [forallb]. rewrite IH2.
  change (trim ("  " +:+ w)) with (trim w). rewrite Ht.
  unfold noLF at 1. rewrite hasChar_app, Hlf.
  repeat split. by constructor.
Qed.

Lemma where_clean (conds : list string) :
  cleanWhere conds = true →
  trim <$> whereLines conds = whereTrimmed conds
  ∧ forallb noLF (whereLines conds) = true
  ∧ Forall (λ x, nonEmpty x = true) (whereTrimmed conds).
Proof.
  destruct conds as [|c conts]; [done|]. intros [Hc Hconts]%andb_true_iff.
  destruct (continuations_clean _ Hconts) as (H1 & H2 & H3).
  cbn [whereLines whereTrimmed]. rewrite fmap_cons, H1, trim_keyword by done.
  cbn [forallb]. unfold noLF at 1. rewrite keyword_noLF, H2 by done.
  repeat split. by constructor.
Qed.

Lemma filter_nonEmpty (ls : list string) :
  Forall (λ x, nonEmpty x = true) ls →
  filter (λ line, nonEmpty line = true) ls = ls.
Proof.
  induction 1 as [|x ls Hx _ IH]; [done|].
  rewrite filter_cons_True by done. by rewrite IH.
Qed.

Lemma validStatement_spec (st : Statement) :
  validStatement st = true →
  optAll cleanText (st_first st) = true
  ∧ forallb cleanField (st_fields st) = true
  ∧ cleanText (st_from st) = true
  ∧ forallb cleanJoin (st_joins st) = true
  ∧ cleanWhere (st_where st) = true
  ∧ optAll cleanListEntry (st_groupBy st) = true
  ∧ optAll cleanListEntry (st_orderBy st) = true
  ∧ optAll cleanScalar (st_limit st) = true
  ∧ optAll cleanScalar (st_offset st) = true.
Proof. unfold validStatement. rewrite !andb_true_iff. tauto. Qed.

Lemma queryLines_statement (st : Statement) :
  validStatement st = true →
  queryLines (statementText st) = statementTrimmed st.
Proof.
  intros (H1 & H2 & H3 & H4 & H5 & H6 & H7 & H8 & H9)%validStatement_spec.
  destruct (joins_clean _ H4) as (J1 & J2 & J3).
  destruct (where_clean _ H5) as (W1 & W2 & W3).
  unfold queryLines, statementText.
  rewrite split_join.
  - unfold statementLines, statementTrimmed.
    rewrite !fmap_app, fields_trim, J1, W1 by done.
    rewrite (optLine_trim "G" "ROUP BY " cleanListEntry),
      (optLine_trim "O" "RDER BY " cleanListEntry),
      (optLine_trim "L" "IMIT " cleanScalar),
      (optLine_trim "O" "FFSET " cleanScalar)
      by eauto using cleanListEntry_text, cleanScalar_text.
    assert (Hfirst : trim <$> [match st_first st with
                                | Some x => "SELECT " +:+ x
                                | None => "SELECT"
                                end]
                     = [match st_first st with
                        | Some x => "SELECT " +:+ x
                        | None => "SELECT"
                        end]).
    { destruct (st_first st) as [x|]; [|done].
      cbn [fmap list_fmap]. by rewrite trim_keyword. }
    rewrite Hfirst. cbn [fmap list_fmap]. rewrite trim_keyword by done.
    apply filter_nonEmpty.
    repeat (apply Forall_app; split);
      eauto using fields_nonEmpty, optLine_nonEmpty.
    constructor; [by destruct (st_first st)|constructor].
  - by destruct (st_first st).
  - unfold statementLines. rewrite !forallb_app.
    fold noLF.
    rewrite fields_noLF, J2, W2 by done.
    rewrite !(optLine_noLF _ cleanListEntry), !(optLine_noLF _ cleanScalar)
      by eauto using cleanListEntry_text, cleanScalar_text.
    cbn [forallb]. unfold noLF. rewrite keyword_noLF by done.
    destruct (st_first st) as [x|]; [|done].
    by rewrite keyword_noLF.
Qed.

(** ** Parsing and rendering a statement *)

Lemma parseLines_statement (st : Statement) :
  validStatement st = true →
  snd (parseLines (statementTrimmed st) (None, emptyParts)) = statementParts st.
Proof.
  intros (H1 & H2 & H3 & H4 & H5 & H6 & H7 & H8 & H9)%validStatement_spec.
  unfold statementTrimmed. rewrite !parseLines_app.
  assert (Hfirst :
    parseLines [match st_first st with
                | Some x => "SELECT " +:+ x
                | None => "SELECT"
                end] (None, emptyParts)
    = (Some SecSelect, set_select (option_list (st_first st)) emptyParts)).
  { destruct (st_first st) as [x|]; [|done].
    by rewrite parseLines_cons, parseLine_select_text. }
  rewrite Hfirst, parseLines_fields by done.
  rewrite parseLines_cons, parseLine_from by done. cbn [parseLines fold_left].
  edestruct parseLines_joins as [sec1 ->]; [done|].
  edestruct parseLines_where as [sec2 ->]; [done|].
  edestruct parseLines_optGroupBy as [sec3 ->]; [done|].
  edestruct parseLines_optOrderBy as [sec4 ->]; [done|].
  rewrite parseLines_optLimit, parseLines_optOffset by done.
  unfold statementParts. destruct (st_limit st), (st_offset st); reflexivity.
Qed.

Lemma filter_valid_singleton (g : string) :
  validEntry g = true → filter (λ part, validEntry part = true) [g] = [g].
Proof. intros Hg. by rewrite filter_cons_True. Qed.

Lemma listBlock_option (k : string) (v : option string) :
  optAll cleanListEntry v = true → listBlock k (option_list v) = optLine k v.
Proof.
  destruct v as [g|]; [|done]. intros [_ Hg]%andb_true_iff.
  unfold listBlock. cbv zeta. change (option_list (Some g)) with [g].
  by rewrite filter_valid_singleton.
Qed.

Lemma scalarBlock_option (k : string) (v : option string) :
  optAll cleanScalar v = true → scalarBlock k v = optLine k v.
Proof.
  destruct v as [x|]; [|done]. intros [_ Hx%negb_true_iff]%andb_true_iff.
  unfold scalarBlock. by rewrite Hx.
Qed.

(** The blocks of a statement, by the blocks of the renderer. *)
Lemma statementBlocks_code (st : Statement) :
  statementBlocks st
  = selectBlock (statementParts st)
    ++ ["FROM " +:+ st_from st]
    ++ optBlock (0 <? length (st_joins st)) (join NL (st_joins st))
    ++ optBlock (0 <? length (st_where st))
         ("WHERE " +:+ join (NL +:+ "  ") (st_where st))
    ++ optLine "GROUP BY " (st_groupBy st)
    ++ optLine "ORDER BY " (st_orderBy st)
    ++ optLine "LIMIT " (st_limit st)
    ++ optLine "OFFSET " (st_offset st).
Proof.
  unfold statementBlocks, selectBlock, statementParts. cbn [select].
  destruct (option_list (st_first st) ++ (fl_field <$> st_fields st)),
    (st_joins st), (st_where st); reflexivity.
Qed.

Lemma renderBlocks_statement (st : Statement) :
  validStatement st = true →
  renderBlocks (statementParts st) = statementBlocks st.
Proof.
  intros (H1 & H2 & H3 & H4 & H5 & H6 & H7 & H8 & H9)%validStatement_spec.
  apply cleanText_spec in H3 as (Hne & _ & _).
  rewrite statementBlocks_code. unfold renderBlocks.
  assert (Hfrom : fromBlock (statementParts st) = ["FROM " +:+ st_from st]).
  { unfold fromBlock, statementParts. cbn [from]. by rewrite Hne. }
  rewrite Hfrom.
  change (groupBy (statementParts st)) with (option_list (st_groupBy st)).
  change (orderBy (statementParts st)) with (option_list (st_orderBy st)).
  change (limit (statementParts st)) with (st_limit st).
  change (offset (statementParts st)) with (st_offset st).
  by rewrite !listBlock_option, !scalarBlock_option.
Qed.

(** ** A statement in any layout *)


Lemma trimStart_app_blank (b x : string) :
  allWhiteSpace b = true → trimStart (b +:+ x) = trimStart x.
Proof.
  induction b as [|c b IH]; [done|]. cbn.
  intros [Hc Hb]%andb_true_iff. rewrite Hc. by apply IH.
Qed.




















(** ** Stray entries: what the parser drops and what the renderer hides *)

(** A line that starts with white space or with a comma names no
    clause. *)
Lemma notLetter_notKeyword (c : ascii) (r : string) :
  isWhiteSpace c = true ∨ c = ","%char →
  isLineKeyword (toLowerCase (String c r)) = false.
Proof.
  intros Hc. destruct c as [[] [] [] [] [] [] [] []];
    destruct Hc as [Hc|Hc]; try discriminate Hc; reflexivity.
Qed.

Lemma commaLine_notKeyword (before after : string) :
  allWhiteSpace before = true →
  isLineKeyword (toLowerCase (before +:+ "," +:+ after)) = false.
Proof.
  destruct before as [|c before]; intros Hb.
  - apply notLetter_notKeyword. by right.
  - apply andb_true_iff in Hb as [Hc _]. apply notLetter_notKeyword. by left.
Qed.

Lemma commaLine_continuation (before after : string) :
  allWhiteSpace before = true → allWhiteSpace after = true →
  selectContinuation (before +:+ "," +:+ after) = [].
Proof.
  intros Hb Ha. unfold selectContinuation. cbv zeta.
  assert (Hm : matchCommaOnly (before +:+ "," +:+ after) = true).
  { unfold matchCommaOnly. rewrite trimStart_app_blank by done.
    cbn [String.append trimStart]. change (isWhiteSpace ",") with false.
    cbv iota. by rewrite Ha. }
  by rewrite Hm, andb_false_r.
Qed.

(** The filter of the renderer keeps the entries that are to show. *)
Lemma validEntry_shown (x : string) :
  validEntry x = true ↔ x ≠ "" ∧ x ≠ "," ∧ includes x ":undefined" = false.
Proof.
  unfold validEntry. rewrite !andb_true_iff, !negb_true_iff. split.
  - intros [[Hne Hu] Hc]. split_and!; [by apply nonEmpty_ne| |done].
    intros ->. discriminate Hc.
  - intros (Hne & Hc & Hu). split_and!; [by destruct x|done|].
    by apply String.eqb_neq.
Qed.

Lemma listBlock_shown (keyword : string) (entries : list string) :
  listBlock keyword entries = shownList keyword entries.
Proof.
  unfold listBlock, shownList, shownEntries. cbv zeta.
  rewrite (list_filter_iff _ _ entries validEntry_shown).
  destruct entries as [|e entries]; [done|].
  change (0 <? length (e :: entries)) with true. cbv iota.
  by destruct (filter _ (e :: entries)).
Qed.

(** C8, amended. In every query the public operations build, the
    [select] bucket holds no empty string, and a continuation line of
    a SELECT list that is a comma between white space adds nothing to
    it.  The [groupBy] and [orderBy] buckets are not cleaned when they
    are filled: the fragments [GROUP BY] and [GROUP BY ,] (and those of
    ORDER BY) store the empty string and the bare comma.  The renderer
    hides them: the GROUP BY and the ORDER BY line of the text list the
    entries that are not empty, not a bare comma and without
    [:undefined], and the line is left out when there is none. *)
Theorem reachable_entries :
  ∀ q : SQLQuery,
    reachable q →
    ("" ∉ select (parts q))
    ∧ (∀ (before after : string) (p : QueryParts),
         allWhiteSpace before = true → allWhiteSpace after = true →
         parseLine (Some SecSelect, p) (before +:+ "," +:+ after)
         = (Some SecSelect, p))
    ∧ groupBy (parts (parseQuery "GROUP BY" q)) = groupBy (parts q) ++ [""]
    ∧ groupBy (parts (parseQuery "GROUP BY ," q)) = groupBy (parts q) ++ [","]
    ∧ orderBy (parts (parseQuery "ORDER BY" q)) = orderBy (parts q) ++ [""]
    ∧ orderBy (parts (parseQuery "ORDER BY ," q)) = orderBy (parts q) ++ [","]
    ∧ toString q
      = join NL
          (selectBlock (parts q) ++ fromBlock (parts q) ++ joinsBlock (parts q)
           ++ whereBlock (parts q)
           ++ shownList "GROUP BY " (groupBy (parts q))
           ++ shownList "ORDER BY " (orderBy (parts q))
           ++ scalarBlock "LIMIT " (limit (parts q))
           ++ scalarBlock "OFFSET " (offset (parts q))).
Proof.
  intros q Hq. split_and!.
  - intros Hin. pose proof (reachable_select_noEmpty q Hq) as Hall.
    unfold noEmptyEntry in Hall. rewrite Forall_forall in Hall.
    by apply (Hall "").
  - intros before after p Hb Ha.
    rewrite parseLine_continuation by (by apply commaLine_notKeyword).
    rewrite commaLine_continuation by done.
    destruct p. unfold set_select. cbn. by rewrite app_nil_r.
  - reflexivity.
  - reflexivity.
  - reflexivity.
  - reflexivity.
  - unfold toString, renderParts, renderBlocks. by rewrite !listBlock_shown.
Qed.

Lemma reachable_entries_witness :
  let q :=
    parseQuery "GROUP BY"
      (parseQuery "GROUP BY department"
         (newSQLQuery (λ _, "") (Some (["SELECT" +:+ NL +:+ "  ,"
                                        +:+ NL +:+ "  id," +:+ NL
                                        +:+ "FROM users"], [])))) in
  ("" ∉ select (parts q))
  ∧ (∀ (before after : string) (p : QueryParts),
       allWhiteSpace before = true → allWhiteSpace after = true →
       parseLine (Some SecSelect, p) (before +:+ "," +:+ after)
       = (Some SecSelect, p))
  ∧ groupBy (parts (parseQuery "GROUP BY" q)) = ["department"; ""; ""]
  ∧ groupBy (parts (parseQuery "GROUP BY ," q)) = ["department"; ""; ","]
  ∧ orderBy (parts (parseQuery "ORDER BY" q)) = [""]
  ∧ orderBy (parts (parseQuery "ORDER BY ," q)) = [","]
  ∧ toString q
    = "SELECT" +:+ NL +:+ "  id" +:+ NL +:+ "FROM users" +:+ NL
      +:+ "GROUP BY department".
Proof.
  intros q. apply (reachable_entries q).
  apply reach_parseQuery, reach_parseQuery, reach_new.
Defined.

(** ** The store: running a method *)

Lemma wp_ret {A} (a : A) σ (Q : A → Store.store → Prop) :
  Q a σ → Store.wp (mret a) σ Q.
Proof. intros HQ. by exists a, σ. Qed.

Lemma wp_bind {A B} (m : Store.M A) (k : A → Store.M B) σ Q :
  Store.wp m σ (λ a σ', Store.wp (k a) σ' Q) → Store.wp (m ≫= k) σ Q.
Proof.
  intros (a & σ' & Hm & b & σ'' & Hk & HQ). exists b, σ''. split; [|done].
  unfold mbind, Store.M_bind. by rewrite Hm.
Qed.

Lemma wp_mono {A} (m : Store.M A) σ (Q Q' : A → Store.store → Prop) :
  Store.wp m σ Q → (∀ a σ', Q a σ' → Q' a σ') → Store.wp m σ Q'.
Proof. intros (a & σ' & Hm & HQ) HQQ. exists a, σ'. eauto. Qed.

Lemma wp_readQuery l σ qo (Q : Store.QueryObj → Store.store → Prop) :
  Store.queries σ !! l = Some qo → Q qo σ → Store.wp (Store.readQuery l) σ Q.
Proof. intros Hl HQ. exists qo, σ. unfold Store.readQuery. by rewrite Hl. Qed.

Lemma wp_readParts l σ po (Q : Store.PartsObj → Store.store → Prop) :
  Store.partsObjs σ !! l = Some po → Q po σ → Store.wp (Store.readParts l) σ Q.
Proof. intros Hl HQ. exists po, σ. unfold Store.readParts. by rewrite Hl. Qed.

Lemma wp_readParams l σ m (Q : gmap nat Value → Store.store → Prop) :
  Store.paramsObjs σ !! l = Some m → Q m σ → Store.wp (Store.readParams l) σ Q.
Proof. intros Hl HQ. exists m, σ. unfold Store.readParams. by rewrite Hl. Qed.

Lemma wp_readArray l σ xs (Q : list string → Store.store → Prop) :
  Store.arrays σ !! l = Some xs → Q xs σ → Store.wp (Store.readArray l) σ Q.
Proof. intros Hl HQ. exists xs, σ. unfold Store.readArray. by rewrite Hl. Qed.

Lemma wp_writeQuery l qo' σ qo (Q : unit → Store.store → Prop) :
  Store.queries σ !! l = Some qo →
  Q tt (Store.mkStore (Store.arrays σ) (Store.partsObjs σ) (Store.paramsObjs σ)
          (<[l := qo']> (Store.queries σ))) →
  Store.wp (Store.writeQuery l qo') σ Q.
Proof. intros Hl HQ. eexists _, _. unfold Store.writeQuery. by rewrite Hl. Qed.

Lemma wp_writeParts l po' σ po (Q : unit → Store.store → Prop) :
  Store.partsObjs σ !! l = Some po →
  Q tt (Store.mkStore (Store.arrays σ) (<[l := po']> (Store.partsObjs σ))
          (Store.paramsObjs σ) (Store.queries σ)) →
  Store.wp (Store.writeParts l po') σ Q.
Proof. intros Hl HQ. eexists _, _. unfold Store.writeParts. by rewrite Hl. Qed.

Lemma wp_writeParams l m' σ m (Q : unit → Store.store → Prop) :
  Store.paramsObjs σ !! l = Some m →
  Q tt (Store.mkStore (Store.arrays σ) (Store.partsObjs σ)
          (<[l := m']> (Store.paramsObjs σ)) (Store.queries σ)) →
  Store.wp (Store.writeParams l m') σ Q.
Proof. intros Hl HQ. eexists _, _. unfold Store.writeParams. by rewrite Hl. Qed.

Lemma wp_writeArray l xs' σ xs (Q : unit → Store.store → Prop) :
  Store.arrays σ !! l = Some xs →
  Q tt (Store.mkStore (<[l := xs']> (Store.arrays σ)) (Store.partsObjs σ)
          (Store.paramsObjs σ) (Store.queries σ)) →
  Store.wp (Store.writeArray l xs') σ Q.
Proof. intros Hl HQ. eexists _, _. unfold Store.writeArray. by rewrite Hl. Qed.

Lemma wp_allocArray xs σ (Q : loc → Store.store → Prop) :
  (∀ l, Store.arrays σ !! l = None →
        Q l (Store.mkStore (<[l := xs]> (Store.arrays σ)) (Store.partsObjs σ)
               (Store.paramsObjs σ) (Store.queries σ))) →
  Store.wp (Store.allocArray xs) σ Q.
Proof.
  intros HQ. eexists _, _. split; [reflexivity|]. apply HQ.
  apply not_elem_of_dom, is_fresh.
Qed.

Lemma wp_allocParts po σ (Q : loc → Store.store → Prop) :
  (∀ l, Store.partsObjs σ !! l = None →
        Q l (Store.mkStore (Store.arrays σ) (<[l := po]> (Store.partsObjs σ))
               (Store.paramsObjs σ) (Store.queries σ))) →
  Store.wp (Store.allocParts po) σ Q.
Proof.
  intros HQ. eexists _, _. split; [reflexivity|]. apply HQ.
  apply not_elem_of_dom, is_fresh.
Qed.

Lemma wp_allocParams m σ (Q : loc → Store.store → Prop) :
  (∀ l, Store.paramsObjs σ !! l = None →
        Q l (Store.mkStore (Store.arrays σ) (Store.partsObjs σ)
               (<[l := m]> (Store.paramsObjs σ)) (Store.queries σ))) →
  Store.wp (Store.allocParams m) σ Q.
Proof.
  intros HQ. eexists _, _. split; [reflexivity|]. apply HQ.
  apply not_elem_of_dom, is_fresh.
Qed.

Lemma wp_allocQuery qo σ (Q : loc → Store.store → Prop) :
  (∀ l, Store.queries σ !! l = None →
        Q l (Store.mkStore (Store.arrays σ) (Store.partsObjs σ)
               (Store.paramsObjs σ) (<[l := qo]> (Store.queries σ)))) →
  Store.wp (Store.allocQuery qo) σ Q.
Proof.
  intros HQ. eexists _, _. split; [reflexivity|]. apply HQ.
  apply not_elem_of_dom, is_fresh.
Qed.

Ltac wp_read :=
  cbn [Store.queries Store.partsObjs Store.paramsObjs Store.arrays];
  first [ apply lookup_insert_eq
        | rewrite !lookup_insert_ne by done; eassumption
        | eassumption
        | by simplify_map_eq ].

Ltac wp_step :=
  first
    [ apply wp_ret
    | apply wp_bind
    | eapply wp_readQuery; [wp_read|]
    | eapply wp_readParts; [wp_read|]
    | eapply wp_readParams; [wp_read|]
    | eapply wp_readArray; [wp_read|]
    | eapply wp_writeQuery; [wp_read|]
    | eapply wp_writeParts; [wp_read|]
    | eapply wp_writeParams; [wp_read|]
    | eapply wp_writeArray; [wp_read|] ].

Ltac open_extends H :=
  let Hincl := fresh "Hincl" in
  destruct H as [Hincl H];
  destruct H as (qo & po & Hq & Hp & Hm & Hcnt & Hsel & Hjns & Hwhr & Hgrp & Hord
                 & Hfrom & Hlim & Hoff & Hdist & Fq & Fp & Fm & Fsel & Fjns & Fwhr
                 & Fgrp & Ford);
  destruct Hincl as (Ia & Ip & Im & Iq);
  destruct Hdist as (D1 & D2 & D3 & D4 & D5 & D6 & D7 & D8 & D9 & D10).

Lemma insert_fresh_subseteq `{Countable K} {V} (m0 m : gmap K V) i x :
  m0 !! i = None → m0 ⊆ m → m0 ⊆ <[i := x]> m.
Proof. intros Hi Hm. by apply insert_subseteq_r. Qed.

Ltac close_extends :=
  split;
  [ split_and!; cbn [Store.queries Store.partsObjs Store.paramsObjs Store.arrays];
    first [ assumption | by apply insert_fresh_subseteq ]
  | eexists _, _;
    cbn [Store.queries Store.partsObjs Store.paramsObjs Store.arrays
         Store.r_select Store.r_from Store.r_joins Store.r_where Store.r_groupBy
         Store.r_orderBy Store.r_limit Store.r_offset Store.r_parts Store.r_params
         Store.r_paramCounter];
    split_and!;
    cbn [parts params paramCounter select from joins where_ groupBy orderBy
         limit offset set_select set_from set_joins set_where set_groupBy
         set_orderBy set_limit set_offset with_parts];
    try first [ eassumption | by simplify_map_eq | congruence ] ].

Lemma push_where σ0 this q σ x :
  Store.extends σ0 this q σ →
  Store.wp (Store.push Store.r_where this x) σ
    (λ _, Store.extends σ0 this (with_parts (set_where (where_ (parts q) ++ [x])) q)).
Proof.
  intros H. open_extends H. unfold Store.push, Store.thisParts.
  repeat wp_step. close_extends.
Qed.

Lemma push_select σ0 this q σ x :
  Store.extends σ0 this q σ →
  Store.wp (Store.push Store.r_select this x) σ
    (λ _, Store.extends σ0 this (with_parts (set_select (select (parts q) ++ [x])) q)).
Proof.
  intros H. open_extends H. unfold Store.push, Store.thisParts.
  repeat wp_step. close_extends.
Qed.

Lemma push_joins σ0 this q σ x :
  Store.extends σ0 this q σ →
  Store.wp (Store.push Store.r_joins this x) σ
    (λ _, Store.extends σ0 this (with_parts (set_joins (joins (parts q) ++ [x])) q)).
Proof.
  intros H. open_extends H. unfold Store.push, Store.thisParts.
  repeat wp_step. close_extends.
Qed.

Lemma push_groupBy σ0 this q σ x :
  Store.extends σ0 this q σ →
  Store.wp (Store.push Store.r_groupBy this x) σ
    (λ _, Store.extends σ0 this (with_parts (set_groupBy (groupBy (parts q) ++ [x])) q)).
Proof.
  intros H. open_extends H. unfold Store.push, Store.thisParts.
  repeat wp_step. close_extends.
Qed.

Lemma push_orderBy σ0 this q σ x :
  Store.extends σ0 this q σ →
  Store.wp (Store.push Store.r_orderBy this x) σ
    (λ _, Store.extends σ0 this (with_parts (set_orderBy (orderBy (parts q) ++ [x])) q)).
Proof.
  intros H. open_extends H. unfold Store.push, Store.thisParts.
  repeat wp_step. close_extends.
Qed.

Lemma lengthOf_where σ0 this q σ :
  Store.extends σ0 this q σ →
  Store.wp (Store.lengthOf Store.r_where this) σ
    (λ n σ', n = length (where_ (parts q)) ∧ Store.extends σ0 this q σ').
Proof.
  intros H. pose proof H as H'. open_extends H.
  unfold Store.lengthOf, Store.thisParts. repeat wp_step. done.
Qed.

Lemma assignSelect_spec σ0 this q σ xs :
  Store.extends σ0 this q σ →
  Store.wp (Store.assignSelect this xs) σ
    (λ _, Store.extends σ0 this (with_parts (set_select xs) q)).
Proof.
  intros H. open_extends H. unfold Store.assignSelect, Store.updateParts.
  apply wp_bind. apply wp_allocArray. intros a Ha.
  assert (Store.arrays σ0 !! a = None)
    by (eapply lookup_weaken_None; eauto).
  assert (a ≠ Store.r_joins po ∧ a ≠ Store.r_where po
          ∧ a ≠ Store.r_groupBy po ∧ a ≠ Store.r_orderBy po) as (?&?&?&?)
    by (split_and!; congruence).
  repeat wp_step. close_extends.
Qed.

Lemma assignFrom_spec σ0 this q σ v :
  Store.extends σ0 this q σ →
  Store.wp (Store.assignFrom this v) σ
    (λ _, Store.extends σ0 this (with_parts (set_from v) q)).
Proof.
  intros H. open_extends H. unfold Store.assignFrom, Store.updateParts.
  repeat wp_step. close_extends.
Qed.

Lemma assignLimit_spec σ0 this q σ v :
  Store.extends σ0 this q σ →
  Store.wp (Store.assignLimit this v) σ
    (λ _, Store.extends σ0 this (with_parts (set_limit v) q)).
Proof.
  intros H. open_extends H. unfold Store.assignLimit, Store.updateParts.
  repeat wp_step. close_extends.
Qed.

Lemma assignOffset_spec σ0 this q σ v :
  Store.extends σ0 this q σ →
  Store.wp (Store.assignOffset this v) σ
    (λ _, Store.extends σ0 this (with_parts (set_offset v) q)).
Proof.
  intros H. open_extends H. unfold Store.assignOffset, Store.updateParts.
  repeat wp_step. close_extends.
Qed.

(** ** The store: the methods compute the values of the by-value model *)

Ltac sim_op lem :=
  apply wp_bind; eapply wp_mono; [by apply lem|];
  cbv beta; intros; apply wp_ret; split; [reflexivity|assumption].

Ltac sim_leaf :=
  first
    [ apply wp_ret; split; [reflexivity|assumption]
    | sim_op push_select | sim_op push_joins | sim_op push_where
    | sim_op push_groupBy | sim_op push_orderBy
    | sim_op assignSelect_spec | sim_op assignFrom_spec
    | sim_op assignLimit_spec | sim_op assignOffset_spec ].

Lemma parseLine_sim σ0 this q σ sec line :
  Store.extends σ0 this q σ →
  Store.wp (Store.parseLine this sec line) σ
    (λ sec' σ',
       sec' = fst (parseLine (sec, parts q) line)
       ∧ Store.extends σ0 this (with_parts (λ _, snd (parseLine (sec, parts q) line)) q) σ').
Proof.
  intros H. unfold Store.parseLine, parseLine. cbv zeta.
  repeat match goal with
         | |- context [if ?b then _ else _] => destruct b eqn:?
         end;
    try sim_leaf.
  all: destruct sec as [[]|]; try sim_leaf.
  all: repeat match goal with
         | |- context [if ?b then _ else _] => destruct b eqn:?
         end; try sim_leaf.
Qed.

Lemma parseLines_sim σ0 this lines :
  ∀ sec q σ,
    Store.extends σ0 this q σ →
    Store.wp (Store.parseLines this lines sec) σ
      (λ sec' σ',
         sec' = fst (parseLines lines (sec, parts q))
         ∧ Store.extends σ0 this
             (with_parts (λ _, snd (parseLines lines (sec, parts q))) q) σ').
Proof.
  induction lines as [|line rest IH]; intros sec q σ H.
  - apply wp_ret. split; [reflexivity|assumption].
  - cbn [Store.parseLines]. apply wp_bind.
    eapply wp_mono; [by apply parseLine_sim|]. cbv beta.
    intros sec1 σ1 [-> H1]. rewrite parseLines_cons.
    destruct (parseLine (sec, parts q) line) as [sec1 p1].
    eapply wp_mono; [by apply IH|]. cbv beta. intros sec2 σ2 [-> H2].
    split; [reflexivity|assumption].
Qed.

Lemma parseInitialQuery_sim σ0 this q σ query :
  Store.extends σ0 this q σ →
  Store.wp (Store.parseInitialQuery this query) σ
    (λ _, Store.extends σ0 this (parseInitialQuery query q)).
Proof.
  intros H. unfold Store.parseInitialQuery. apply wp_bind.
  eapply wp_mono; [by apply parseLines_sim|]. cbv beta.
  intros sec σ1 [_ H1]. apply wp_ret. assumption.
Qed.

Ltac sim_unit lem := eapply wp_mono; [by apply lem|]; cbv beta; intros; assumption.

Lemma parseQuery_sim σ0 this q σ query :
  Store.extends σ0 this q σ →
  Store.wp (Store.parseQuery this query) σ
    (λ _, Store.extends σ0 this (parseQuery query q)).
Proof.
  intros H. unfold Store.parseQuery, parseQuery, with_parts, parseQueryParts.
  cbv zeta.
  repeat match goal with
         | |- context [if startsWith ?s ?k then _ else _] =>
             destruct (startsWith s k) eqn:?
         | |- context [if isJoin ?s then _ else _] => destruct (isJoin s) eqn:?
         end.
  all: try (apply wp_bind; eapply wp_mono; [by apply lengthOf_where|];
            cbv beta; intros n σ1 [-> H1];
            destruct (0 <? length (where_ (parts q)))).
  all: first [ sim_unit parseInitialQuery_sim | sim_unit push_joins
             | sim_unit push_where | sim_unit push_groupBy | sim_unit push_orderBy
             | sim_unit assignFrom_spec | sim_unit assignLimit_spec
             | sim_unit assignOffset_spec ].
Qed.

(** ** The store: reading a query *)

Lemma bind_inv {A B} (m : Store.M A) (k : A → Store.M B) σ b σ' :
  (m ≫= k) σ = Some (b, σ') → ∃ a σ1, m σ = Some (a, σ1) ∧ k a σ1 = Some (b, σ').
Proof.
  unfold mbind, Store.M_bind. destruct (m σ) as [[a σ1]|]; [|done]. eauto.
Qed.

Lemma ret_inv {A} (a b : A) (σ σ' : Store.store) :
  (mret a : Store.M A) σ = Some (b, σ') → b = a ∧ σ' = σ.
Proof. by intros [= -> ->]. Qed.

Lemma readQuery_inv l σ qo σ' :
  Store.readQuery l σ = Some (qo, σ') → Store.queries σ !! l = Some qo ∧ σ' = σ.
Proof. unfold Store.readQuery. destruct (_ !! _); [|done]. by intros [= -> ->]. Qed.

Lemma readParts_inv l σ po σ' :
  Store.readParts l σ = Some (po, σ') → Store.partsObjs σ !! l = Some po ∧ σ' = σ.
Proof. unfold Store.readParts. destruct (_ !! _); [|done]. by intros [= -> ->]. Qed.

Lemma readParams_inv l σ m σ' :
  Store.readParams l σ = Some (m, σ') → Store.paramsObjs σ !! l = Some m ∧ σ' = σ.
Proof. unfold Store.readParams. destruct (_ !! _); [|done]. by intros [= -> ->]. Qed.

Lemma readArray_inv l σ xs σ' :
  Store.readArray l σ = Some (xs, σ') → Store.arrays σ !! l = Some xs ∧ σ' = σ.
Proof. unfold Store.readArray. destruct (_ !! _); [|done]. by intros [= -> ->]. Qed.

Ltac inv_run :=
  repeat match goal with
    | H : (_ ≫= _) _ = Some _ |- _ =>
        let a := fresh "a" in let σ1 := fresh "σ" in let H1 := fresh "H" in
        apply bind_inv in H as (a & σ1 & H1 & H)
    | H : mret _ _ = Some _ |- _ => apply ret_inv in H as [-> ->]
    | H : Store.M_ret _ _ _ = Some _ |- _ => apply ret_inv in H as [-> ->]
    | H : Store.readQuery _ _ = Some _ |- _ => apply readQuery_inv in H as [H ->]
    | H : Store.readParts _ _ = Some _ |- _ => apply readParts_inv in H as [H ->]
    | H : Store.readParams _ _ = Some _ |- _ => apply readParams_inv in H as [H ->]
    | H : Store.readArray _ _ = Some _ |- _ => apply readArray_inv in H as [H ->]
    end.

Lemma snapshot_spec σ l q :
  Store.snapshot σ l = Some q →
  ∃ qo po,
    Store.queries σ !! l = Some qo
    ∧ Store.partsObjs σ !! Store.r_parts qo = Some po
    ∧ Store.paramsObjs σ !! Store.r_params qo = Some (params q)
    ∧ Store.r_paramCounter qo = paramCounter q
    ∧ Store.arrays σ !! Store.r_select po = Some (select (parts q))
    ∧ Store.arrays σ !! Store.r_joins po = Some (joins (parts q))
    ∧ Store.arrays σ !! Store.r_where po = Some (where_ (parts q))
    ∧ Store.arrays σ !! Store.r_groupBy po = Some (groupBy (parts q))
    ∧ Store.arrays σ !! Store.r_orderBy po = Some (orderBy (parts q))
    ∧ Store.r_from po = from (parts q)
    ∧ Store.r_limit po = limit (parts q)
    ∧ Store.r_offset po = offset (parts q).
Proof.
  unfold Store.snapshot. destruct (Store.readQueryValue l σ) as [[q' σ']|] eqn:H;
    [|done].
  intros [= ->]. unfold Store.readQueryValue, Store.readPartsValue in H.
  inv_run. eexists _, _. split_and!; first [eassumption|reflexivity].
Qed.

Lemma readPartsValue_spec σ pl po p (Q : QueryParts → Store.store → Prop) :
  Store.partsObjs σ !! pl = Some po →
  Store.arrays σ !! Store.r_select po = Some (select p) →
  Store.arrays σ !! Store.r_joins po = Some (joins p) →
  Store.arrays σ !! Store.r_where po = Some (where_ p) →
  Store.arrays σ !! Store.r_groupBy po = Some (groupBy p) →
  Store.arrays σ !! Store.r_orderBy po = Some (orderBy p) →
  Store.r_from po = from p → Store.r_limit po = limit p →
  Store.r_offset po = offset p →
  Q p σ → Store.wp (Store.readPartsValue pl) σ Q.
Proof.
  intros Hp H1 H2 H3 H4 H5 Hf Hl Ho HQ. unfold Store.readPartsValue.
  repeat wp_step. rewrite Hf, Hl, Ho. by destruct p.
Qed.

(** A query of [σ0] reads the same in every store that keeps the cells
    of [σ0]. *)
Lemma snapshot_incl σ0 σ l q :
  Store.incl σ0 σ → Store.snapshot σ0 l = Some q → Store.snapshot σ l = Some q.
Proof.
  intros (Ia & Ip & Im & Iq)
    (qo & po & Hq & Hp & Hm & Hc & H1 & H2 & H3 & H4 & H5 & Hf & Hl & Ho)%snapshot_spec.
  assert (Hwp : Store.wp (Store.readQueryValue l) σ (λ q' _, q' = q)).
  { unfold Store.readQueryValue. apply wp_bind.
    eapply wp_readQuery; [by eapply lookup_weaken|].
    apply wp_bind.
    eapply readPartsValue_spec; eauto using lookup_weaken.
    apply wp_bind. eapply wp_readParams; [by eapply lookup_weaken|].
    apply wp_ret. rewrite Hc. by destruct q. }
  destruct Hwp as (q' & σ' & Hrun & ->). unfold Store.snapshot. by rewrite Hrun.
Qed.

Lemma toString_snapshot σ l q :
  Store.snapshot σ l = Some q → Store.toString l σ = Some (toString q, σ).
Proof.
  intros (qo & po & Hq & Hp & Hm & Hc & H1 & H2 & H3 & H4 & H5 & Hf & Hl & Ho)%snapshot_spec.
  assert (Hwp : Store.wp (Store.toString l) σ (λ t σ', t = toString q ∧ σ' = σ)).
  { unfold Store.toString. apply wp_bind. eapply wp_readQuery; [done|].
    apply wp_bind. eapply readPartsValue_spec; eauto.
    by apply wp_ret. }
  by destruct Hwp as (t & σ' & -> & -> & ->).
Qed.

Lemma textOf_snapshot σ l q :
  Store.snapshot σ l = Some q → Store.textOf σ l = toString q.
Proof. intros H. unfold Store.textOf. by rewrite (toString_snapshot _ _ _ H). Qed.

Lemma repr_snapshot σ0 σ this q :
  Store.repr σ0 σ this q → Store.snapshot σ this = Some q.
Proof.
  intros (qo & po & Hq & Hp & Hm & Hcnt & Hsel & Hjns & Hwhr & Hgrp & Hord
          & Hfrom & Hlim & Hoff & _).
  assert (Hwp : Store.wp (Store.readQueryValue this) σ (λ q' _, q' = q)).
  { unfold Store.readQueryValue. apply wp_bind. eapply wp_readQuery; [done|].
    apply wp_bind. eapply readPartsValue_spec; eauto.
    apply wp_bind. eapply wp_readParams; [done|].
    apply wp_ret. rewrite Hcnt. by destruct q. }
  destruct Hwp as (q' & σ' & Hrun & ->). unfold Store.snapshot. by rewrite Hrun.
Qed.

(** ** The store: the interpolator *)

Lemma addParam_spec σ0 this q σ v :
  Store.extends σ0 this q σ →
  Store.wp (Store.addParam this v) σ
    (λ ph σ',
       ph = "$" +:+ pretty (S (paramCounter q))
       ∧ Store.extends σ0 this
           (mkQuery (parts q) (<[S (paramCounter q) := v]> (params q))
              (S (paramCounter q))) σ').
Proof.
  intros H. open_extends H. unfold Store.addParam. cbv zeta.
  repeat wp_step. rewrite Hcnt. split; [done|]. close_extends.
Qed.

Lemma interpolateStep_sim σ0 this q σ result str gap :
  Store.extends σ0 this q σ → Store.gapOk σ0 gap →
  Store.wp (Store.interpolateStep this result str gap) σ
    (λ text σ',
       text = fst (interpolateStep (Store.textOf σ0) (result, q) str gap)
       ∧ Store.extends σ0 this
           (snd (interpolateStep (Store.textOf σ0) (result, q) str gap)) σ').
Proof.
  intros H Hgap. unfold Store.interpolateStep, interpolateStep.
  destruct gap as [[| |s|n|b|entries|l]|]; cbn [isPrimitive];
    try (apply wp_ret; split; [reflexivity|assumption]).
  1-4: apply wp_bind; eapply wp_mono; [by apply addParam_spec|]; cbv beta;
       intros ph σ1 [-> H1]; apply wp_ret; split; [reflexivity|assumption].
  destruct Hgap as [ql Hql]. apply wp_bind.
  pose proof H as [Hincl _].
  exists (toString ql), σ. split.
  - apply toString_snapshot. by eapply snapshot_incl.
  - apply wp_ret. rewrite (textOf_snapshot _ _ _ Hql). split; [reflexivity|assumption].
Qed.

Lemma interpolateFrom_sim σ0 this strings values :
  Forall (Store.valueOk σ0) values →
  ∀ i result q σ,
    Store.extends σ0 this q σ →
    Store.wp (Store.interpolateFrom this i strings values result) σ
      (λ text σ',
         text = fst (interpolateFrom (Store.textOf σ0) i strings values (result, q))
         ∧ Store.extends σ0 this
             (snd (interpolateFrom (Store.textOf σ0) i strings values (result, q)))
             σ').
Proof.
  intros Hvalues. induction strings as [|str rest IH]; intros i result q σ H.
  - apply wp_ret. split; [reflexivity|assumption].
  - cbn [Store.interpolateFrom interpolateFrom]. apply wp_bind.
    eapply wp_mono.
    { apply interpolateStep_sim; [done|].
      destruct (values !! i) as [v|] eqn:Hv; [|done].
      cbn. by eapply Forall_lookup_1. }
    cbv beta. intros text σ1 [-> H1].
    destruct (interpolateStep (Store.textOf σ0) (result, q) str (values !! i))
      as [text1 q1].
    by apply IH.
Qed.

Lemma _interpolate_sim σ0 this q σ strings values :
  Forall (Store.valueOk σ0) values →
  Store.extends σ0 this q σ →
  Store.wp (Store._interpolate this strings values) σ
    (λ text σ',
       text = fst (_interpolate (Store.textOf σ0) strings values q)
       ∧ Store.extends σ0 this (snd (_interpolate (Store.textOf σ0) strings values q)) σ').
Proof. intros Hv H. by apply interpolateFrom_sim. Qed.

(** ** The store: new objects *)

Ltac split_fresh :=
  repeat match goal with
    | H : <[_ := _]> _ !! _ = None |- _ =>
        let H1 := fresh "N" in apply lookup_insert_None in H as [H H1]
    end.

Lemma allocPartsValue_spec σ p :
  Store.wp (Store.allocPartsValue p) σ
    (λ pl σ',
       Store.queries σ' = Store.queries σ
       ∧ Store.paramsObjs σ' = Store.paramsObjs σ
       ∧ Store.arrays σ ⊆ Store.arrays σ'
       ∧ Store.partsObjs σ ⊆ Store.partsObjs σ'
       ∧ Store.partsObjs σ !! pl = None
       ∧ ∃ po,
           Store.partsObjs σ' !! pl = Some po
           ∧ Store.arrays σ' !! Store.r_select po = Some (select p)
           ∧ Store.arrays σ' !! Store.r_joins po = Some (joins p)
           ∧ Store.arrays σ' !! Store.r_where po = Some (where_ p)
           ∧ Store.arrays σ' !! Store.r_groupBy po = Some (groupBy p)
           ∧ Store.arrays σ' !! Store.r_orderBy po = Some (orderBy p)
           ∧ Store.r_from po = from p
           ∧ Store.r_limit po = limit p
           ∧ Store.r_offset po = offset p
           ∧ Store.distinct5 (Store.r_select po) (Store.r_joins po)
               (Store.r_where po) (Store.r_groupBy po) (Store.r_orderBy po)
           ∧ Store.arrays σ !! Store.r_select po = None
           ∧ Store.arrays σ !! Store.r_joins po = None
           ∧ Store.arrays σ !! Store.r_where po = None
           ∧ Store.arrays σ !! Store.r_groupBy po = None
           ∧ Store.arrays σ !! Store.r_orderBy po = None).
Proof.
  unfold Store.allocPartsValue.
  apply wp_bind, wp_allocArray. intros a1 F1.
  apply wp_bind, wp_allocArray. intros a2 F2.
  apply wp_bind, wp_allocArray. intros a3 F3.
  apply wp_bind, wp_allocArray. intros a4 F4.
  apply wp_bind, wp_allocArray. intros a5 F5.
  apply wp_allocParts. intros pl Fpl.
  cbn [Store.queries Store.partsObjs Store.paramsObjs Store.arrays] in *.
  split_fresh.
  split; [done|]. split; [done|].
  split. { repeat (apply insert_subseteq_r; [by simplify_map_eq|]). done. }
  split. { by apply insert_subseteq. }
  split; [done|].
  eexists. split; [by simplify_map_eq|].
  cbn [Store.r_select Store.r_from Store.r_joins Store.r_where Store.r_groupBy
       Store.r_orderBy Store.r_limit Store.r_offset].
  unfold Store.distinct5.
  split_and!; first [ by simplify_map_eq | congruence ].
Qed.

Lemma allocEmptyQuery_spec σ :
  Store.wp Store.allocEmptyQuery σ (λ this σ', Store.extends σ this emptyQuery σ').
Proof.
  unfold Store.allocEmptyQuery. apply wp_bind.
  eapply wp_mono; [apply allocPartsValue_spec|]. cbv beta.
  intros pl σ1 (Eq & Em & Ia & Ip & Fpl & po & Hp & H1 & H2 & H3 & H4 & H5 & Hf & Hl
                & Ho & Hd & F1 & F2 & F3 & F4 & F5).
  apply wp_bind, wp_allocParams. intros ml Fml.
  apply wp_allocQuery. intros this Fthis.
  cbn [Store.queries Store.partsObjs Store.paramsObjs Store.arrays] in *.
  rewrite Em in Fml. rewrite Eq in Fthis.
  split.
  - split_and!; cbn [Store.queries Store.partsObjs Store.paramsObjs Store.arrays];
      [done|done| |].
    + rewrite Em. by apply insert_subseteq.
    + rewrite Eq. by apply insert_subseteq.
  - exists (Store.mkQueryObj pl ml 0), po.
    cbn [Store.queries Store.partsObjs Store.paramsObjs Store.arrays
         Store.r_parts Store.r_params Store.r_paramCounter].
    destruct Hd as (?&?&?&?&?&?&?&?&?&?).
    split_and!; first [ assumption | by simplify_map_eq ].
Qed.

(** ** The store: the [sql] method *)

Lemma sql_sim σ base q strings values :
  Store.snapshot σ base = Some q →
  Forall (Store.valueOk σ) values →
  Store.wp (Store.sql base strings values) σ
    (λ newQuery σ',
       Store.extends σ newQuery (sql (Store.textOf σ) strings values q) σ').
Proof.
  intros Hbase Hvalues.
  pose proof Hbase as
    (bo & bpo & Bq & Bp & Bm & Bc & S1 & S2 & S3 & S4 & S5 & Sf & Sl & So)%snapshot_spec.
  unfold Store.sql, Store.newSQLQuery. apply wp_bind, wp_bind.
  eapply wp_mono; [apply allocEmptyQuery_spec|]. cbv beta.
  intros newQuery σ1 H1. apply wp_ret. open_extends H1.
  assert (Hne : base ≠ newQuery) by congruence.
  (* const q = this *)
  apply wp_bind. eapply wp_readQuery; [by eapply lookup_weaken|].
  (* structuredClone(this.parts) *)
  apply wp_bind. unfold Store.structuredClone. apply wp_bind.
  eapply readPartsValue_spec; eauto using lookup_weaken.
  eapply wp_mono; [apply allocPartsValue_spec|]. cbv beta.
  intros cloned σ2 (Eq & Em & Ja & Jp & Fcl & cpo & Cp & C1 & C2 & C3 & C4 & C5 & Cf
                    & Cl & Co & Cd & G1 & G2 & G3 & G4 & G5).
  (* newQuery.parts = cloned *)
  apply wp_bind. eapply wp_readQuery; [by rewrite Eq|].
  apply wp_bind. eapply wp_writeQuery; [by rewrite Eq|].
  (* newQuery.params = { ...this.params } *)
  apply wp_bind. eapply wp_readParams.
  { cbn [Store.paramsObjs]. rewrite Em. by eapply lookup_weaken. }
  apply wp_bind, wp_allocParams. intros copied Fcopied.
  apply wp_bind. eapply wp_readQuery; [wp_read|].
  apply wp_bind. eapply wp_writeQuery; [wp_read|].
  (* newQuery.paramCounter = this.paramCounter *)
  apply wp_bind. eapply wp_readQuery.
  { cbn [Store.queries]. rewrite !lookup_insert_ne by done. rewrite Eq.
    by eapply lookup_weaken. }
  apply wp_bind. eapply wp_readQuery; [wp_read|].
  apply wp_bind. eapply wp_writeQuery; [wp_read|].
  cbn [Store.queries Store.partsObjs Store.paramsObjs Store.arrays
       Store.r_parts Store.r_params Store.r_paramCounter] in *.
  rewrite Em in Fcopied.
  (* the copy has the value of the original and owns its cells *)
  match goal with
  | |- Store.wp _ ?σ6 _ =>
      assert (Hcopy : Store.extends σ newQuery
                        (mkQuery (parts q) (params q) (paramCounter q)) σ6)
  end.
  { split.
    - split_and!;
        cbn [Store.queries Store.partsObjs Store.paramsObjs Store.arrays].
      + by etrans.
      + by etrans.
      + apply insert_subseteq_r; [by eapply lookup_weaken_None|]. by rewrite Em.
      + repeat (apply insert_subseteq_r; [done|]). by rewrite Eq.
    - exists (Store.mkQueryObj cloned copied (Store.r_paramCounter bo)), cpo.
      cbn [Store.queries Store.partsObjs Store.paramsObjs Store.arrays
           Store.r_parts Store.r_params Store.r_paramCounter
           parts params paramCounter].
      destruct Cd as (?&?&?&?&?&?&?&?&?&?).
      split_and!; rewrite ?lookup_insert_eq;
        first [ done | by eapply lookup_weaken_None ]. }
  (* the fragment *)
  apply wp_bind. eapply wp_mono; [by apply _interpolate_sim|]. cbv beta.
  intros fragment σ7 [-> H7].
  apply wp_bind. eapply wp_mono; [by apply parseQuery_sim|]. cbv beta.
  intros _ σ8 H8. apply wp_ret. unfold sql.
  by destruct (_interpolate (Store.textOf σ) strings values
                 (mkQuery (parts q) (params q) (paramCounter q))).
Qed.

Lemma newSQLQuery_sim σ template :
  (if template is Some (_, values) then Forall (Store.valueOk σ) values else True) →
  Store.wp (Store.newSQLQuery template) σ
    (λ this σ', Store.extends σ this (newSQLQuery (Store.textOf σ) template) σ').
Proof.
  intros Hvalues. unfold Store.newSQLQuery. apply wp_bind.
  eapply wp_mono; [apply allocEmptyQuery_spec|]. cbv beta. intros this σ1 H1.
  destruct template as [[strings values]|]; [|by apply wp_ret].
  cbn [newSQLQuery]. destruct (0 <? length strings); [|by apply wp_ret].
  apply wp_bind. eapply wp_mono; [by apply _interpolate_sim|]. cbv beta.
  intros fullQuery σ2 [-> H2].
  destruct (_interpolate (Store.textOf σ) strings values emptyQuery)
    as [fullQuery this'].
  apply wp_bind. eapply wp_mono; [by apply parseInitialQuery_sim|]. cbv beta.
  intros _ σ3 H3. by apply wp_ret.
Qed.

Lemma parameters_snapshot σ l q :
  Store.snapshot σ l = Some q → Store.parameters l σ = Some (parameters q, σ).
Proof.
  intros (qo & po & Hq & Hp & Hm & _)%snapshot_spec.
  assert (Hwp : Store.wp (Store.parameters l) σ
                  (λ ps σ', ps = parameters q ∧ σ' = σ)).
  { unfold Store.parameters. repeat wp_step. done. }
  by destruct Hwp as (ps & σ' & -> & -> & ->).
Qed.

Lemma incl_trans σ1 σ2 σ3 :
  Store.incl σ1 σ2 → Store.incl σ2 σ3 → Store.incl σ1 σ3.
Proof.
  intros (?&?&?&?) (?&?&?&?). split_and!; by etrans.
Qed.

(** C1. The [sql] method returns a new object and writes to no cell
    of the store it was called in: the object it was called on has the
    same buckets, scalar fields, parameters and counter after the call
    as before, and renders the same string (and so does every other
    query of the store); the new object has the value the by-value
    model gives for the extension. *)
Theorem sql_leaves_base_unchanged :
  ∀ (σ : Store.store) (base : loc) (q : SQLQuery) (strings : list string)
    (values : list Value),
    Store.snapshot σ base = Some q →
    Forall (Store.valueOk σ) values →
    ∃ (newQuery : loc) (σ' : Store.store),
      Store.sql base strings values σ = Some (newQuery, σ')
      ∧ Store.queries σ !! newQuery = None
      ∧ newQuery ≠ base
      ∧ Store.snapshot σ' newQuery = Some (sql (Store.textOf σ) strings values q)
      ∧ Store.incl σ σ'
      ∧ Store.snapshot σ' base = Some q
      ∧ fst <$> Store.toString base σ' = fst <$> Store.toString base σ
      ∧ ∀ l ql, Store.snapshot σ l = Some ql → Store.snapshot σ' l = Some ql.
Proof.
  intros σ base q strings values Hbase Hvalues.
  destruct (sql_sim σ base q strings values Hbase Hvalues)
    as (newQuery & σ' & Hrun & Hincl & Hrepr).
  exists newQuery, σ'. split; [done|].
  assert (Hfresh : Store.queries σ !! newQuery = None).
  { by destruct Hrepr as (? & ? & ? & ? & ? & ? & ? & ? & ? & ? & ? & ? & ? & ? & ?
                          & ? & _). }
  split; [done|]. split.
  { intros ->. apply snapshot_spec in Hbase as (? & ? & ? & _). congruence. }
  split; [by eapply repr_snapshot|]. split; [done|].
  pose proof (snapshot_incl _ _ _ _ Hincl Hbase) as Hbase'.
  split; [done|]. split.
  - by rewrite (toString_snapshot _ _ _ Hbase), (toString_snapshot _ _ _ Hbase').
  - intros l ql Hl. by eapply snapshot_incl.
Qed.

Lemma sql_leaves_base_unchanged_witness :
  ∃ (newQuery : loc) (σ' : Store.store),
    Store.sql 1%positive ["WHERE id = "; ""] [VNumber 1] Store.exampleStore
      = Some (newQuery, σ')
    ∧ Store.queries Store.exampleStore !! newQuery = None
    ∧ newQuery ≠ 1%positive
    ∧ Store.snapshot σ' newQuery
      = Some (sql (Store.textOf Store.exampleStore) ["WHERE id = "; ""] [VNumber 1]
                Store.exampleQuery)
    ∧ Store.incl Store.exampleStore σ'
    ∧ Store.snapshot σ' 1%positive = Some Store.exampleQuery
    ∧ fst <$> Store.toString 1%positive σ'
      = fst <$> Store.toString 1%positive Store.exampleStore
    ∧ ∀ l ql, Store.snapshot Store.exampleStore l = Some ql →
              Store.snapshot σ' l = Some ql.
Proof.
  apply (sql_leaves_base_unchanged Store.exampleStore 1%positive Store.exampleQuery).
  - reflexivity.
  - repeat constructor.
Defined.

(** C2. The query of [SELECT * FROM users] extended with
    [WHERE id = ${1}] and then with [AND name = ${"John"}] renders
    [$1] and then [$2], and exports the parameters [1, "John"]:
    in the by-value model, and for the objects in any store. *)
Theorem sequential_extensions_number_cumulatively :
  (∀ textOf : loc → string,
     let base := newSQLQuery textOf (Some (["SELECT * FROM users"], [])) in
     let q1 := sql textOf ["WHERE id = "; ""] [VNumber 1] base in
     let q2 := sql textOf ["AND name = "; ""] [VString "John"] q1 in
     toString q2
     = ("SELECT" +:+ NL +:+ "  * FROM users" +:+ NL +:+ "WHERE id = ")
       +:+ "$1" +:+ (NL +:+ "  AND name = ") +:+ "$2" +:+ ""
     ∧ parameters q2 = [VNumber 1; VString "John"]
     ∧ paramCounter q1 = 1 ∧ paramCounter q2 = 2)
  ∧ ∀ σ : Store.store,
      ∃ σ' : Store.store,
        Store.sequentialExample σ
        = Some (("SELECT" +:+ NL +:+ "  * FROM users" +:+ NL +:+ "WHERE id = $1"
                 +:+ NL +:+ "  AND name = $2",
                 [VNumber 1; VString "John"]), σ')
        ∧ Store.incl σ σ'.
Proof.
  split; [intros textOf; vm_compute; done|].
  intros σ.
  assert (Hwp : Store.wp Store.sequentialExample σ
    (λ r σ', r = ("SELECT" +:+ NL +:+ "  * FROM users" +:+ NL +:+ "WHERE id = $1"
                  +:+ NL +:+ "  AND name = $2", [VNumber 1; VString "John"])
             ∧ Store.incl σ σ')).
  { unfold Store.sequentialExample.
    apply wp_bind. eapply wp_mono; [apply newSQLQuery_sim; constructor|].
    cbv beta. intros base σ1 [I1 R1%repr_snapshot].
    apply wp_bind.
    eapply wp_mono; [apply sql_sim; [eassumption|repeat constructor]|].
    cbv beta. intros q1 σ2 [I2 R2%repr_snapshot].
    apply wp_bind.
    eapply wp_mono; [apply sql_sim; [eassumption|repeat constructor]|].
    cbv beta. intros q2 σ3 [I3 R3%repr_snapshot].
    apply wp_bind. eexists _, _. split; [by apply toString_snapshot|].
    apply wp_bind. eexists _, _. split; [by apply parameters_snapshot|].
    apply wp_ret. split; [|by eauto using incl_trans].
    vm_compute. reflexivity. }
  destruct Hwp as (r & σ' & Hrun & -> & Hincl). eauto.
Qed.

(** C7. The classifier has no failing branch.  By value it is a total
    function that leaves the parameters alone and puts a text that
    starts with no clause keyword, trimmed, last into the [where]
    bucket; on an object of the store that holds a query it always runs
    to the end, and the object then holds that result. *)
Theorem parseQuery_total_unrecognized_to_where :
  (∀ (query : string) (this : SQLQuery),
     ∃ this' : SQLQuery,
       parseQuery query this = this'
       ∧ params this' = params this
       ∧ paramCounter this' = paramCounter this
       ∧ (isKeyword (toLowerCase (trim query)) = true
          ∨ ∃ entry : string,
              where_ (parts this') = where_ (parts this) ++ [entry]
              ∧ (entry = trim query ∨ entry = "AND " +:+ trim query)))
  ∧ (∀ (σ : Store.store) (this : loc) (q : SQLQuery) (query : string),
       Store.separate σ this q →
       ∃ σ' : Store.store,
         Store.parseQuery this query σ = Some (tt, σ')
         ∧ Store.separate σ' this (parseQuery query q)).
Proof.
  split.
  - intros query this. exists (parseQuery query this).
    do 3 (split; [reflexivity|]).
    destruct (isKeyword (toLowerCase (trim query))) eqn:Hkw; [by left|right].
    unfold parseQuery, with_parts. cbn [parts].
    rewrite parseQueryParts_default by done. cbn.
    destruct (length (where_ (parts this))); eexists; split; eauto.
  - intros σ this q query Hsep.
    destruct (parseQuery_sim Store.emptyStore this q σ query)
      as ([] & σ' & Hrun & _ & Hrepr).
    { split; [|done]. split_and!; apply map_empty_subseteq. }
    eauto.
Qed.

Lemma parseQuery_total_unrecognized_to_where_witness :
  ∃ σ' : Store.store,
    Store.parseQuery 1%positive "id > 100" Store.exampleStore = Some (tt, σ')
    ∧ Store.separate σ' 1%positive (parseQuery "id > 100" Store.exampleQuery).
Proof.
  apply (proj2 parseQuery_total_unrecognized_to_where Store.exampleStore 1%positive
           Store.exampleQuery "id > 100").
  exists (Store.mkQueryObj 1%positive 1%positive 0),
    (Store.mkPartsObj 1%positive (Some "users") 2%positive 3%positive 4%positive
       5%positive None None).
  unfold Store.distinct5. split_and!; done.
Defined.

(** ** Parameters: numbering and export *)

Lemma max_list_bound (l : list nat) (n : nat) :
  Forall (λ x, x ≤ n) l → max_list l ≤ n.
Proof. induction 1; cbn; lia. Qed.

Lemma exportParams_dense (m : gmap nat Value) (n : nat) :
  (∀ k, is_Some (m !! k) ↔ 1 ≤ k ≤ n) →
  exportParams m = (λ i, default VUndefined (m !! i)) <$> seq 1 n.
Proof.
  intros Hd. unfold exportParams. destruct (decide (size m = 0)) as [Hz|Hnz].
  - apply map_size_empty_inv in Hz. subst m. destruct n as [|n]; [done|].
    destruct (proj2 (Hd 1)) as [v Hv]; [lia|]. by rewrite lookup_empty in Hv.
  - assert (n ≠ 0).
    { intros ->. apply Hnz, map_size_empty_iff, map_empty. intros k.
      apply eq_None_not_Some. rewrite Hd. lia. }
    replace (maxParam m) with n; [done|]. apply Nat.le_antisymm.
    + apply maxParam_ge, Hd. lia.
    + apply max_list_bound, Forall_forall. intros k Hk.
      apply elem_of_elements, elem_of_dom, Hd in Hk. lia.
Qed.

Lemma interpolateStep_dense textOf (acc : string * SQLQuery) str gap :
  dense (snd acc) → dense (snd (interpolateStep textOf acc str gap)).
Proof.
  destruct acc as [result this]. unfold dense. cbn [snd]. intros Hd.
  destruct gap as [v|]; [|done].
  destruct v; cbn; try done; intros k; rewrite lookup_insert_is_Some, Hd; lia.
Qed.

Lemma interpolateFrom_dense textOf strings values :
  ∀ i (acc : string * SQLQuery),
    dense (snd acc) → dense (snd (interpolateFrom textOf i strings values acc)).
Proof.
  induction strings as [|str rest IH]; intros i acc Hd; [done|].
  cbn [interpolateFrom]. by apply IH, interpolateStep_dense.
Qed.

Lemma reachable_dense q : reachable q → dense q.
Proof.
  induction 1 as [textOf template|query this _ IH|query this _ IH
                 |textOf strings values this _ IH]; try done.
  - unfold newSQLQuery.
    assert (He : dense emptyQuery).
    { intros k. cbn. rewrite lookup_empty. split; [by intros []|lia]. }
    destruct template as [[strings values]|]; [|done].
    destruct (0 <? length strings); [|done].
    pose proof (interpolateFrom_dense textOf strings values 0 ("", emptyQuery) He) as H.
    unfold _interpolate.
    by destruct (interpolateFrom textOf 0 strings values ("", emptyQuery)).
  - unfold sql.
    pose proof (interpolateFrom_dense textOf strings values 0
                  ("", mkQuery (parts this) (params this) (paramCounter this)) IH) as H.
    unfold _interpolate.
    by destruct (interpolateFrom textOf 0 strings values _).
Qed.

(** X1. The parameters of a query built with the public operations
    are numbered without gaps: the keys of [params] are exactly
    1 .. [paramCounter], the exported array has [paramCounter]
    entries, and entry [i] is the value stored under key [i + 1] (no
    hole is filled with [undefined]). *)
Theorem reachable_parameters_dense :
  ∀ q : SQLQuery,
    reachable q →
    length (parameters q) = paramCounter q
    ∧ (∀ k, is_Some (params q !! k) ↔ 1 ≤ k ≤ paramCounter q)
    ∧ ∀ i, i < paramCounter q →
           is_Some (params q !! S i) ∧ parameters q !! i = params q !! S i.
Proof.
  intros q Hq. pose proof (reachable_dense q Hq) as Hd.
  unfold parameters. rewrite (exportParams_dense _ _ Hd).
  split; [by rewrite length_fmap, length_seq|]. split; [done|].
  intros i Hi. destruct (proj2 (Hd (S i))) as [v Hv]; [lia|].
  split; [by eauto|].
  rewrite list_lookup_fmap, lookup_seq_lt by done. cbn. by rewrite Hv.
Qed.

Lemma reachable_parameters_dense_witness :
  let q := sql (λ _, "") ["WHERE id = "; ""] [VNumber 1]
             (newSQLQuery (λ _, "") (Some (["SELECT * FROM users"], []))) in
  length (parameters q) = paramCounter q
  ∧ (∀ k, is_Some (params q !! k) ↔ 1 ≤ k ≤ paramCounter q)
  ∧ ∀ i, i < paramCounter q →
         is_Some (params q !! S i) ∧ parameters q !! i = params q !! S i.
Proof.
  intros q. apply (reachable_parameters_dense q). apply reach_sql, reach_new.
Defined.

Lemma sql_params textOf strings values q :
  paramCounter q ≤ paramCounter (sql textOf strings values q)
  ∧ ∀ k, k ≤ paramCounter q →
         params (sql textOf strings values q) !! k = params q !! k.
Proof.
  unfold sql, _interpolate.
  pose proof (interpolateFrom_keeps textOf strings values 0
                ("", mkQuery (parts q) (params q) (paramCounter q))) as H.
  by destruct (interpolateFrom textOf 0 strings values _).
Qed.

(** X2. Extending a query with [sql] keeps the parameters it already
    exports and their positions: the counter does not decrease and the
    exported array of the base is a prefix of the exported array of the
    extension. *)
Theorem sql_keeps_exported_parameters :
  ∀ (textOf : loc → string) (strings : list string) (values : list Value)
    (q : SQLQuery),
    reachable q →
    paramCounter q ≤ paramCounter (sql textOf strings values q)
    ∧ parameters q `prefix_of` parameters (sql textOf strings values q).
Proof.
  intros textOf strings values q Hq.
  destruct (sql_params textOf strings values q) as [Hle Hkeep].
  split; [done|].
  pose proof (reachable_dense q Hq) as Hd.
  pose proof (reachable_dense _ (reach_sql textOf strings values q Hq)) as Hd'.
  unfold parameters.
  rewrite (exportParams_dense _ _ Hd), (exportParams_dense _ _ Hd').
  replace (paramCounter (sql textOf strings values q))
    with (paramCounter q + (paramCounter (sql textOf strings values q) - paramCounter q))
    by lia.
  rewrite seq_app, fmap_app.
  eexists. f_equal. apply list_fmap_ext. intros i k Hk.
  apply lookup_seq in Hk as [-> Hi]. by rewrite Hkeep by lia.
Qed.

Lemma sql_keeps_exported_parameters_witness :
  let base :=
    newSQLQuery (λ _, "") (Some (["SELECT * FROM users WHERE id = "; ""],
                                 [VNumber 1])) in
  let extended := sql (λ _, "") ["AND name = "; ""] [VString "John"] base in
  paramCounter base ≤ paramCounter extended
  ∧ parameters base `prefix_of` parameters extended.
Proof.
  intros base extended.
  apply (sql_keeps_exported_parameters (λ _, "") ["AND name = "; ""]
           [VString "John"] base).
  apply reach_new.
Defined.

(** ** Interpolator: how many slots a template takes *)

Lemma interpolateStep_count textOf (acc : string * SQLQuery) str gap :
  paramCounter (snd (interpolateStep textOf acc str gap))
  = paramCounter (snd acc)
    + (if gap is Some v then if makesParam v then 1 else 0 else 0).
Proof.
  destruct acc as [result this]. destruct gap as [v|]; [|cbn; lia].
  destruct v; cbn; lia.
Qed.

Lemma interpolateFrom_count textOf strings values :
  ∀ i (acc : string * SQLQuery),
    paramCounter (snd (interpolateFrom textOf i strings values acc))
    = paramCounter (snd acc)
      + length (filter (λ v, makesParam v = true)
                  (take (length strings) (drop i values))).
Proof.
  induction strings as [|str rest IH]; intros i acc.
  - cbn [interpolateFrom length]. rewrite take_0. cbn. lia.
  - cbn [interpolateFrom length]. rewrite IH, interpolateStep_count.
    destruct (values !! i) as [v|] eqn:Hv.
    + rewrite (drop_S _ _ _ Hv). cbn [take].
      rewrite filter_cons. destruct (makesParam v); cbn.
      * rewrite decide_True by done. cbn. lia.
      * rewrite decide_False by done. lia.
    + apply lookup_ge_None in Hv.
      rewrite !drop_ge by lia. rewrite !take_nil. cbn. lia.
Qed.

(** X3. [_interpolate] advances the counter by the number of values
    that are primitives or plain objects among the values that stand in
    a gap of the template (the first [strings.length] values);
    [undefined], [null] and embedded queries take no number. *)
Theorem interpolate_counts_parameters :
  ∀ (textOf : loc → string) (strings : list string) (values : list Value)
    (this : SQLQuery),
    paramCounter (snd (_interpolate textOf strings values this))
    = paramCounter this
      + length (filter (λ v, makesParam v = true) (take (length strings) values)).
Proof.
  intros. unfold _interpolate. by rewrite interpolateFrom_count, drop_0.
Qed.

Lemma interpolateStep_inert textOf (acc : string * SQLQuery) str gap :
  (if gap is Some v then makesParam v = false else True) →
  snd (interpolateStep textOf acc str gap) = snd acc.
Proof.
  destruct acc as [result this]. destruct gap as [v|]; [|done].
  by destruct v.
Qed.

Lemma interpolateFrom_inert textOf strings values :
  Forall (λ v, makesParam v = false) values →
  ∀ i (acc : string * SQLQuery),
    snd (interpolateFrom textOf i strings values acc) = snd acc.
Proof.
  intros Hv. induction strings as [|str rest IH]; intros i acc; [done|].
  cbn [interpolateFrom]. rewrite IH. apply interpolateStep_inert.
  destruct (values !! i) as [v|] eqn:Hi; [|done].
  by eapply (Forall_lookup_1 _ _ _ _ Hv).
Qed.

Lemma interpolateFrom_no_values textOf strings :
  ∀ i (result : string) (this : SQLQuery),
    interpolateFrom textOf i strings [] (result, this)
    = (result +:+ join "" strings, this).
Proof.
  induction strings as [|str rest IH]; intros i result this.
  - cbn. by rewrite append_empty.
  - cbn [interpolateFrom]. rewrite lookup_nil. cbn [interpolateStep].
    rewrite IH, append_assoc. destruct rest; [|done].
    cbn. by rewrite append_empty.
Qed.

(** X4. A template whose values are all [undefined], [null] or
    embedded queries leaves the parameters and the counter alone, and
    so does an extension with it; a template without values gives the
    concatenation of its strings. *)
Theorem interpolate_without_parameters :
  ∀ (textOf : loc → string) (strings : list string) (values : list Value)
    (this : SQLQuery),
    Forall (λ v, makesParam v = false) values →
    snd (_interpolate textOf strings values this) = this
    ∧ _interpolate textOf strings [] this = (join "" strings, this)
    ∧ parameters (sql textOf strings values this) = parameters this.
Proof.
  intros textOf strings values this Hv. split_and!.
  - by apply interpolateFrom_inert.
  - apply interpolateFrom_no_values.
  - unfold sql.
    pose proof (interpolateFrom_inert textOf strings values Hv 0
                  ("", mkQuery (parts this) (params this) (paramCounter this))) as H.
    unfold _interpolate.
    destruct (interpolateFrom textOf 0 strings values _) as [fragment q'].
    cbn in H. by subst q'.
Qed.

Lemma interpolate_without_parameters_witness :
  let this := newSQLQuery (λ _, "") (Some (["SELECT * FROM t WHERE a = "; ""],
                                          [VNumber 1])) in
  snd (_interpolate (λ _, "") ["AND b = "; " AND c = "; ""] [VUndefined; VNull] this)
  = this
  ∧ _interpolate (λ _, "") ["AND b = "; " AND c = "; ""] [] this
    = (join "" ["AND b = "; " AND c = "; ""], this)
  ∧ parameters (sql (λ _, "") ["AND b = "; " AND c = "; ""] [VUndefined; VNull] this)
    = parameters this.
Proof.
  intros this.
  apply (interpolate_without_parameters (λ _, "") ["AND b = "; " AND c = "; ""]
           [VUndefined; VNull] this).
  repeat constructor.
Defined.

(** ** Renderer *)

Lemma startsWith_app (x y k : string) :
  startsWith x k = true → startsWith (x +:+ y) k = true.
Proof.
  revert x. induction k as [|b k IH]; intros x; [done|].
  destruct x as [|a x]; [done|]. cbn.
  intros [Ha Hx]%andb_true_iff. rewrite Ha. by apply IH.
Qed.

Lemma startsWith_join (x k : string) (rest : list string) :
  startsWith x k = true → startsWith (join NL (x :: rest)) k = true.
Proof. intros Hx. destruct rest; [done|]. by apply startsWith_app. Qed.

(** X5. The text of a query always starts with a SELECT clause,
    whatever the buckets hold: [SELECT *] when the select bucket is
    empty (also for a query that never got a base statement), and
    [SELECT], a line feed and two spaces before the first field
    otherwise. *)
Theorem toString_starts_with_select :
  ∀ q : SQLQuery,
    startsWith (toString q) "SELECT" = true
    ∧ (select (parts q) = [] → startsWith (toString q) "SELECT *" = true)
    ∧ (select (parts q) ≠ [] →
       startsWith (toString q) ("SELECT" +:+ NL +:+ "  ") = true).
Proof.
  intros q. unfold toString, renderParts, renderBlocks, selectBlock.
  destruct (select (parts q)) as [|f fs]; cbn [length Nat.ltb Nat.leb app].
  - split_and!; [by apply startsWith_join|by intros; apply startsWith_join|done].
  - split_and!; [by apply startsWith_join|done|].
    intros _. apply startsWith_join. done.
Qed.

Lemma toString_starts_with_select_witness :
  startsWith (toString (parseQuery "id > 100" emptyQuery)) "SELECT *" = true.
Proof.
  apply (toString_starts_with_select (parseQuery "id > 100" emptyQuery)).
  reflexivity.
Defined.

Lemma filter_idem (l : list string) :
  filter (λ part, validEntry part = true) (filter (λ part, validEntry part = true) l)
  = filter (λ part, validEntry part = true) l.
Proof.
  induction l as [|x l IH]; [done|]. rewrite filter_cons.
  destruct (decide (validEntry x = true)); [|done].
  rewrite filter_cons, decide_True by done. by rewrite IH.
Qed.

Lemma listBlock_filter (k : string) (l : list string) :
  listBlock k (filter (λ part, validEntry part = true) l) = listBlock k l.
Proof.
  unfold listBlock. cbv zeta. rewrite filter_idem.
  destruct l as [|x l]; [done|].
  destruct (filter (λ part, validEntry part = true) (x :: l)); done.
Qed.

Lemma scalarBlock_hide (k : string) (v : option string) :
  scalarBlock k (hideScalar v) = scalarBlock k v.
Proof.
  destruct v as [s|]; [|done]. cbn.
  destruct (includes s ":undefined") eqn:Hs; cbn; by rewrite ?Hs.
Qed.

Lemma hideScalar_idem (v : option string) : hideScalar (hideScalar v) = hideScalar v.
Proof.
  destruct v as [s|]; [|done]. cbn.
  destruct (includes s ":undefined") eqn:Hs; cbn; by rewrite ?Hs.
Qed.

(** X6. The renderer skips what it hides: an empty [from], the
    GROUP BY and ORDER BY entries that are empty, a bare comma or
    contain [:undefined], and a LIMIT or OFFSET that contains
    [:undefined].  Removing them from the buckets does not change the
    text, removing them twice is removing them once, and none of the
    GROUP BY and ORDER BY entries that are left is empty, a comma or
    contains [:undefined]. *)
Theorem render_ignores_hidden_entries :
  ∀ p : QueryParts,
    renderParts (visibleParts p) = renderParts p
    ∧ visibleParts (visibleParts p) = visibleParts p
    ∧ (∀ x, x ∈ groupBy (visibleParts p) ++ orderBy (visibleParts p) →
            x ≠ "" ∧ x ≠ "," ∧ includes x ":undefined" = false).
Proof.
  intros p. split_and!.
  - assert (Hf : fromBlock (visibleParts p) = fromBlock p).
    { unfold fromBlock, visibleParts. cbn [from].
      destruct (from p) as [f|]; [|done]. destruct (nonEmpty f) eqn:Hf; [|done].
      by rewrite Hf. }
    unfold renderParts.
    change (renderBlocks (visibleParts p))
      with (selectBlock p ++ fromBlock (visibleParts p) ++ joinsBlock p ++ whereBlock p
            ++ listBlock "GROUP BY "
                 (filter (λ part, validEntry part = true) (groupBy p))
            ++ listBlock "ORDER BY "
                 (filter (λ part, validEntry part = true) (orderBy p))
            ++ scalarBlock "LIMIT " (hideScalar (limit p))
            ++ scalarBlock "OFFSET " (hideScalar (offset p))).
    by rewrite Hf, !listBlock_filter, !scalarBlock_hide.
  - unfold visibleParts. cbn [select from joins where_ groupBy orderBy limit offset].
    rewrite !filter_idem, !hideScalar_idem. f_equal.
    destruct (from p) as [f|]; [|done]. destruct (nonEmpty f) eqn:Hf; [|done].
    by rewrite Hf.
  - intros x Hx. cbn [visibleParts groupBy orderBy] in Hx.
    assert (Hv : validEntry x = true).
    { apply elem_of_app in Hx as [[? _]%list_elem_of_filter|[? _]%list_elem_of_filter];
        done. }
    destruct (validEntry_spec x Hv) as [? ?].
    unfold validEntry in Hv. rewrite !andb_true_iff, !negb_true_iff in Hv.
    by destruct Hv as [[_ ?] _].
Qed.

Lemma render_ignores_hidden_entries_witness :
  let p := mkParts ["id"] (Some "users") [] [] [""; "department"; ","] []
             (Some ":undefined") None in
  "department" ≠ "" ∧ "department" ≠ ","
  ∧ includes "department" ":undefined" = false.
Proof.
  intros p. apply (proj2 (proj2 (render_ignores_hidden_entries p)) "department").
  vm_compute. repeat constructor.
Defined.

(** ** Buckets that only grow *)

Lemma grows_refl p : grows p p.
Proof. by repeat split. Qed.

Lemma grows_trans p1 p2 p3 : grows p1 p2 → grows p2 p3 → grows p1 p3.
Proof. intros (?&?&?&?) (?&?&?&?). repeat split; by etrans. Qed.

Lemma parseLine_grows sec p line : grows p (snd (parseLine (sec, p) line)).
Proof.
  unfold parseLine, grows. cbv zeta.
  repeat case_match; cbn; split_and!; first [done|by apply prefix_app_r].
Qed.

Lemma parseLines_grows lines : ∀ sec p, grows p (snd (parseLines lines (sec, p))).
Proof.
  induction lines as [|line rest IH]; intros sec p; [apply grows_refl|].
  rewrite parseLines_cons.
  pose proof (parseLine_grows sec p line) as H.
  destruct (parseLine (sec, p) line) as [sec' p']. eapply grows_trans; [done|apply IH].
Qed.

Lemma parseQueryParts_grows query p : grows p (parseQueryParts query p).
Proof.
  unfold parseQueryParts. cbv zeta.
  repeat case_match; try apply parseLines_grows;
    unfold grows; cbn; split_and!; first [done|by apply prefix_app_r].
Qed.

(** X7. No operation removes or rewrites an entry of the joins,
    where, groupBy and orderBy buckets: after [parseInitialQuery],
    [parseQuery] and [sql] each of these buckets starts with what it
    held before. *)
Theorem buckets_only_grow :
  ∀ (query : string) (this : SQLQuery),
    grows (parts this) (parts (parseInitialQuery query this))
    ∧ grows (parts this) (parts (parseQuery query this))
    ∧ ∀ (textOf : loc → string) strings values,
        grows (parts this) (parts (sql textOf strings values this)).
Proof.
  intros query this. split_and!.
  - apply parseLines_grows.
  - apply parseQueryParts_grows.
  - intros textOf strings values. unfold sql.
    pose proof (_interpolate_parts textOf strings values
                  (mkQuery (parts this) (params this) (paramCounter this))) as Hp.
    destruct (_interpolate textOf strings values _) as [fragment q'].
    cbn in Hp |- *. rewrite <- Hp. apply parseQueryParts_grows.
Qed.

(** ** Fragments that replace *)

Lemma scalar_not_earlier (lower : string) :
  startsWith lower "limit" || startsWith lower "offset" = true →
  startsWith lower "and " = false ∧ startsWith lower "or " = false.
Proof.
  intros H.
  destruct lower as [|c1 [|c2 lower]]; [discriminate| |].
  - exfalso. cbn in H. rewrite !andb_false_r in H. discriminate.
  - cbn [startsWith] in H |- *.
    destruct (Ascii.eqb_spec c1 "l") as [->|]; cbn in H |- *; [done|].
    destruct (Ascii.eqb_spec c1 "o") as [->|]; [|discriminate]. cbn in H |- *.
    destruct (Ascii.eqb_spec c2 "f") as [->|]; [|discriminate]. done.
Qed.

Lemma from_not_select (lower : string) :
  startsWith lower "from" = true → startsWith lower "select" = false.
Proof.
  destruct lower as [|c lower]; [done|]. cbn.
  destruct (Ascii.eqb_spec c "f") as [->|]; [done|]. done.
Qed.

Lemma parseQueryParts_from query p :
  startsWith (toLowerCase (trim query)) "from" = true →
  parseQueryParts query p = set_from (Some (trim (substring_from 4 (trim query)))) p.
Proof.
  intros H. unfold parseQueryParts. cbv zeta.
  by rewrite (from_not_select _ H), H.
Qed.

Lemma parseQueryParts_limit query p :
  startsWith (toLowerCase (trim query)) "limit" = true →
  parseQueryParts query p = set_limit (Some (trim (substring_from 5 (trim query)))) p.
Proof.
  intros H. unfold parseQueryParts. cbv zeta.
  assert (Hor : startsWith (toLowerCase (trim query)) "limit"
                || startsWith (toLowerCase (trim query)) "offset" = true)
    by (by rewrite H).
  destruct (limit_or_offset_not_earlier _ Hor) as (H1 & H2 & H3 & H4 & H5 & H6).
  destruct (scalar_not_earlier _ Hor) as (H7 & H8).
  by rewrite H1, H2, H3, H4, H5, H6, H7, H8, H.
Qed.

Lemma offset_not_limit (lower : string) :
  startsWith lower "offset" = true → startsWith lower "limit" = false.
Proof.
  destruct lower as [|c lower]; [done|]. cbn.
  destruct (Ascii.eqb_spec c "o") as [->|]; [done|]. done.
Qed.

Lemma parseQueryParts_offset query p :
  startsWith (toLowerCase (trim query)) "offset" = true →
  parseQueryParts query p = set_offset (Some (trim (substring_from 6 (trim query)))) p.
Proof.
  intros H. unfold parseQueryParts. cbv zeta.
  assert (Hor : startsWith (toLowerCase (trim query)) "limit"
                || startsWith (toLowerCase (trim query)) "offset" = true)
    by (rewrite H; apply orb_true_r).
  destruct (limit_or_offset_not_earlier _ Hor) as (H1 & H2 & H3 & H4 & H5 & H6).
  destruct (scalar_not_earlier _ Hor) as (H7 & H8).
  by rewrite H1, H2, H3, H4, H5, H6, H7, H8, (offset_not_limit _ H), H.
Qed.

(** X8. FROM, LIMIT and OFFSET hold one value: a fragment of one of
    these clauses puts the trimmed text after its keyword into the
    field of the clause, whatever an earlier fragment of the same
    clause had put there (the last one wins), and changes no other
    field, no list bucket and no parameter. *)
Theorem scalar_fragments_replace :
  ∀ (kw first second : string) (this : SQLQuery),
    kw ∈ ["from"; "limit"; "offset"] →
    startsWith (toLowerCase (trim first)) kw = true →
    startsWith (toLowerCase (trim second)) kw = true →
    let value := trim (substring_from (String.length kw) (trim second)) in
    let result := parseQuery second this in
    parseQuery second (parseQuery first this) = result
    ∧ from (parts result)
      = (if String.eqb kw "from" then Some value else from (parts this))
    ∧ limit (parts result)
      = (if String.eqb kw "limit" then Some value else limit (parts this))
    ∧ offset (parts result)
      = (if String.eqb kw "offset" then Some value else offset (parts this))
    ∧ select (parts result) = select (parts this)
    ∧ joins (parts result) = joins (parts this)
    ∧ where_ (parts result) = where_ (parts this)
    ∧ groupBy (parts result) = groupBy (parts this)
    ∧ orderBy (parts result) = orderBy (parts this)
    ∧ params result = params this
    ∧ paramCounter result = paramCounter this.
Proof.
  intros kw first second this Hkw H1 H2 value result. subst value result.
  unfold parseQuery, with_parts. cbn [parts params paramCounter].
  repeat (apply elem_of_cons in Hkw as [->|Hkw]); [| | |by apply elem_of_nil in Hkw].
  - by rewrite !parseQueryParts_from.
  - by rewrite !parseQueryParts_limit.
  - by rewrite !parseQueryParts_offset.
Qed.

Lemma scalar_fragments_replace_witness :
  let this := parseQuery "WHERE id = 1" emptyQuery in
  let result := parseQuery "limit 20" this in
  parseQuery "limit 20" (parseQuery "LIMIT 10" this) = result
  ∧ from (parts result) = from (parts this)
  ∧ limit (parts result) = Some "20"
  ∧ offset (parts result) = offset (parts this)
  ∧ select (parts result) = select (parts this)
  ∧ joins (parts result) = joins (parts this)
  ∧ where_ (parts result) = where_ (parts this)
  ∧ groupBy (parts result) = groupBy (parts this)
  ∧ orderBy (parts result) = orderBy (parts this)
  ∧ params result = params this
  ∧ paramCounter result = paramCounter this.
Proof.
  intros this result.
  apply (scalar_fragments_replace "limit" "LIMIT 10" "limit 20" this).
  - repeat constructor.
  - reflexivity.
  - reflexivity.
Defined.

(** ** Keywords in any letter case *)

Lemma toLowerCase_length (s : string) :
  String.length (toLowerCase s) = String.length s.
Proof. induction s as [|a s IH]; cbn; [done|]. by rewrite IH. Qed.

Lemma substring_from_app (w rest : string) :
  substring_from (String.length w) (w +:+ rest) = rest.
Proof. induction w as [|a w IH]; cbn; [by destruct rest|done]. Qed.

Ltac same_keyword_line Hw n :=
  match goal with
  | |- parseLine _ (?w +:+ ?rest) = parseLine _ (?kw +:+ _) =>
      let Hlen := fresh "Hlen" in
      assert (Hlen : String.length w = n)
        by (rewrite <- (toLowerCase_length w), Hw; reflexivity);
      unfold parseLine; cbv zeta;
      rewrite !toLowerCase_app, Hw;
      let b := eval lazy in (toLowerCase kw) in change (toLowerCase kw) with b;
      decide_keywords;
      change (substring_from n (kw +:+ rest)) with rest;
      rewrite <- Hlen, substring_from_app; reflexivity
  end.

(** X9. The clause keywords of a base statement are recognised in
    any letter case: a line that starts with a keyword written in other
    case is parsed as the line with the keyword in capitals. *)
Theorem keywords_in_any_case :
  ∀ (kw w rest : string) (st : option Section_ * QueryParts),
    kw ∈ ["SELECT"; "FROM"; "WHERE"; "GROUP BY"; "ORDER BY"; "LIMIT"; "OFFSET"] →
    toLowerCase w = toLowerCase kw →
    parseLine st (w +:+ rest) = parseLine st (kw +:+ rest).
Proof.
  intros kw w rest [sec p] Hkw Hw.
  repeat (apply elem_of_cons in Hkw as [->|Hkw]); [..|by apply elem_of_nil in Hkw].
  - same_keyword_line Hw 6.
  - same_keyword_line Hw 4.
  - same_keyword_line Hw 5.
  - same_keyword_line Hw 8.
  - same_keyword_line Hw 8.
  - same_keyword_line Hw 5.
  - same_keyword_line Hw 6.
Qed.

Lemma keywords_in_any_case_witness :
  parseLine (None, emptyParts) ("Group By" +:+ " department")
  = parseLine (None, emptyParts) ("GROUP BY" +:+ " department").
Proof.
  apply (keywords_in_any_case "GROUP BY" "Group By" " department"
           (None, emptyParts)).
  - repeat constructor.
  - reflexivity.
Defined.

(** ** Explicit connectives *)

Lemma lowerChar_whiteSpace (a : ascii) : isWhiteSpace a = true → lowerChar a = a.
Proof.
  destruct a as [[] [] [] [] [] [] [] []]; intros H; try discriminate H; reflexivity.
Qed.

Lemma keyword_first_char (w k : string) (b : ascii) :
  toLowerCase w = String b k → isWhiteSpace b = false →
  ∃ a r, w = String a r ∧ isWhiteSpace a = false.
Proof.
  destruct w as [|a r]; [done|]. cbn. intros [= Ha _] Hb. exists a, r.
  split; [done|]. destruct (isWhiteSpace a) eqn:Hws; [|done].
  rewrite (lowerChar_whiteSpace _ Hws) in Ha. congruence.
Qed.

Lemma trim_word_text (w c : string) :
  (∃ a r, w = String a r ∧ isWhiteSpace a = false) → cleanText c = true →
  trim (w +:+ " " +:+ c) = w +:+ " " +:+ c.
Proof.
  intros (a & r & -> & Ha) (Hne & Ht & _)%cleanText_spec. apply trim_fixed.
  - cbn. by rewrite Ha.
  - rewrite <- append_assoc. apply trimEnd_app; [by apply trimmed_trimEnd|done].
Qed.

Ltac connective_fragment Hw Hc n :=
  match goal with
  | |- context [parseQueryParts (?w +:+ " " +:+ ?c) _] =>
      let Hlen := fresh "Hlen" in
      assert (Hlen : String.length w = n)
        by (rewrite <- (toLowerCase_length w), Hw; reflexivity);
      unfold parseQueryParts; cbv zeta;
      rewrite trim_word_text by (first [done | by eapply keyword_first_char]);
      rewrite !toLowerCase_app, Hw;
      match goal with
      | |- context [toLowerCase ?k +:+ _] =>
          let b := eval lazy in (toLowerCase k) in change (toLowerCase k) with b
      end;
      decide_keywords;
      rewrite <- Hlen, substring_from_app;
      change (trim (" " +:+ c)) with (trim c);
      rewrite (proj1 (proj2 (cleanText_spec _ Hc)))
  end.

(** X10. A fragment that starts with AND or OR (in any case) and a
    space is a WHERE condition: after a non-empty where bucket it is
    stored with its connective in capitals, into an empty one it is
    stored without the connective. *)
Theorem connective_fragments :
  ∀ (conn w c : string) (this : SQLQuery),
    conn ∈ ["AND"; "OR"] →
    toLowerCase w = toLowerCase conn →
    cleanText c = true →
    where_ (parts (parseQuery (w +:+ " " +:+ c) this))
    = where_ (parts this)
      ++ [if 0 <? length (where_ (parts this)) then conn +:+ " " +:+ c else c].
Proof.
  intros conn w c this Hconn Hw Hc.
  unfold parseQuery, with_parts. cbn [parts].
  repeat (apply elem_of_cons in Hconn as [->|Hconn]);
    [| |by apply elem_of_nil in Hconn].
  - connective_fragment Hw Hc 3.
    by destruct (0 <? length (where_ (parts this))).
  - connective_fragment Hw Hc 2.
    by destruct (0 <? length (where_ (parts this))).
Qed.

Lemma connective_fragments_witness :
  where_ (parts (parseQuery ("or" +:+ " " +:+ "id = 2")
                   (parseQuery "id = 1" emptyQuery)))
  = where_ (parts (parseQuery "id = 1" emptyQuery))
    ++ [if 0 <? length (where_ (parts (parseQuery "id = 1" emptyQuery)))
        then "OR" +:+ " " +:+ "id = 2" else "id = 2"].
Proof.
  apply (connective_fragments "OR" "or" "id = 2" (parseQuery "id = 1" emptyQuery)).
  - repeat constructor.
  - reflexivity.
  - reflexivity.
Defined.

(** ** Blank input and the lines of a base query *)

Lemma trimStart_blank (s : string) : allWhiteSpace s = true → trimStart s = "".
Proof.
  induction s as [|c s IH]; [done|]. cbn.
  intros [Hc Hs]%andb_true_iff. rewrite Hc. by apply IH.
Qed.

Lemma trim_blank (s : string) : allWhiteSpace s = true → trim s = "".
Proof. intros Hs. unfold trim. by rewrite trimStart_blank. Qed.

Lemma split_blank (s : string) :
  allWhiteSpace s = true → Forall (λ x, allWhiteSpace x = true) (split LF s).
Proof.
  induction s as [|c s IH]; [by repeat constructor|]. cbn [allWhiteSpace split].
  intros [Hc Hs]%andb_true_iff. specialize (IH Hs).
  destruct (Ascii.eqb c LF); [by constructor|].
  destruct IH as [|x l Hx Hl]; repeat constructor; try done.
  all: cbn; by rewrite Hc.
Qed.

Lemma queryLines_blank (query : string) :
  allWhiteSpace query = true → queryLines query = [].
Proof.
  intros H%split_blank. unfold queryLines.
  induction H as [|x l Hx _ IH]; [done|].
  rewrite fmap_cons, filter_cons_False; [done|].
  by rewrite trim_blank.
Qed.

(** X11. Blank input (empty, or white space and line feeds only):
    [parseInitialQuery] changes nothing, while [parseQuery] takes it
    for a condition and pushes an empty entry to the where bucket
    ([AND ] followed by nothing after a non-empty bucket), so a query
    without conditions then renders the line [WHERE ]. *)
Theorem blank_input :
  ∀ (query : string) (this : SQLQuery),
    allWhiteSpace query = true →
    parseInitialQuery query this = this
    ∧ where_ (parts (parseQuery query this))
      = where_ (parts this)
        ++ [if 0 <? length (where_ (parts this)) then "AND " else ""]
    ∧ (where_ (parts this) = [] →
       whereBlock (parts (parseQuery query this)) = ["WHERE "]).
Proof.
  intros query this Hq.
  assert (Hw : parseQueryParts query (parts this)
    = set_where (where_ (parts this)
        ++ [if 0 <? length (where_ (parts this)) then "AND " else ""])
        (parts this)).
  { rewrite parseQueryParts_default by (by rewrite trim_blank).
    by rewrite trim_blank. }
  split_and!.
  - unfold parseInitialQuery, with_parts, parseInitialParts.
    rewrite queryLines_blank by done. by destruct this.
  - unfold parseQuery, with_parts. cbn [parts]. by rewrite Hw.
  - intros Hnil. unfold parseQuery, with_parts. cbn [parts].
    rewrite Hw, Hnil. reflexivity.
Qed.

Lemma blank_input_witness :
  let query := "  " +:+ NL +:+ " " in
  parseInitialQuery query emptyQuery = emptyQuery
  ∧ where_ (parts (parseQuery query emptyQuery))
    = where_ (parts emptyQuery)
      ++ [if 0 <? length (where_ (parts emptyQuery)) then "AND " else ""]
  ∧ (where_ (parts emptyQuery) = [] →
     whereBlock (parts (parseQuery query emptyQuery)) = ["WHERE "]).
Proof.
  intros query. apply (blank_input query emptyQuery). reflexivity.
Defined.

Lemma trimEnd_idem (s : string) : trimEnd (trimEnd s) = trimEnd s.
Proof.
  induction s as [|c s IH]; [done|]. cbn [trimEnd].
  destruct (trimEnd s) as [|a t] eqn:E.
  - destruct (isWhiteSpace c) eqn:Hc; [done|]. cbn. by rewrite Hc.
  - cbn [trimEnd] in IH |- *.
    destruct (match trimEnd t with
              | "" => if isWhiteSpace a then "" else String a ""
              | String a0 s0 => String a (String a0 s0)
              end) eqn:E'; [done|].
    by rewrite IH.
Qed.

Lemma trimStart_first (s : string) :
  trimStart s = ""
  ∨ ∃ c r, trimStart s = String c r ∧ isWhiteSpace c = false.
Proof.
  induction s as [|c s IH]; [by left|]. cbn.
  destruct (isWhiteSpace c) eqn:Hc; [done|]. right. by exists c, s.
Qed.

Lemma trimEnd_first (c : ascii) (r : string) :
  isWhiteSpace c = false → ∃ r', trimEnd (String c r) = String c r'.
Proof.
  intros Hc. cbn. destruct (trimEnd r); [|by eexists].
  rewrite Hc. by eexists.
Qed.

Lemma trim_idem (s : string) : trim (trim s) = trim s.
Proof.
  unfold trim. destruct (trimStart_first s) as [->|(c & r & -> & Hc)]; [done|].
  destruct (trimEnd_first c r Hc) as [r' Hr]. 
  assert (Hs : trimStart (trimEnd (String c r)) = trimEnd (String c r)).
  { rewrite Hr. cbn. by rewrite Hc. }
  by rewrite Hs, trimEnd_idem.
Qed.

Lemma split_noLF (s : string) : Forall (λ x, hasChar LF x = false) (split LF s).
Proof.
  induction s as [|c s IH]; [by repeat constructor|]. cbn [split].
  destruct (Ascii.eqb c LF) eqn:Hc; [by constructor|].
  destruct IH as [|x l Hx Hl]; repeat constructor; try done.
  all: cbn; by rewrite Hc.
Qed.

Lemma hasChar_trimStart (c : ascii) (s : string) :
  hasChar c s = false → hasChar c (trimStart s) = false.
Proof.
  induction s as [|a s IH]; [done|]. cbn.
  intros [Ha Hs]%orb_false_iff. destruct (isWhiteSpace a); [by apply IH|].
  cbn. by rewrite Ha, Hs.
Qed.

Lemma hasChar_trimEnd (c : ascii) (s : string) :
  hasChar c s = false → hasChar c (trimEnd s) = false.
Proof.
  induction s as [|a s IH]; [done|]. cbn.
  intros [Ha Hs]%orb_false_iff. specialize (IH Hs).
  destruct (trimEnd s).
  - destruct (isWhiteSpace a); [done|]. cbn. by rewrite Ha.
  - cbn in IH |- *. by rewrite Ha, IH.
Qed.

Lemma queryLines_clean (query : string) :
  Forall (λ line, cleanText line = true) (queryLines query).
Proof.
  unfold queryLines. apply Forall_forall. intros line.
  rewrite list_elem_of_filter, list_elem_of_fmap.
  intros [Hne (x & -> & Hx)].
  pose proof (split_noLF query) as Hall.
  rewrite Forall_forall in Hall. specialize (Hall _ Hx).
  unfold cleanText, noLF. rewrite Hne, trim_idem, String.eqb_refl.
  unfold trim. by rewrite hasChar_trimEnd by (by apply hasChar_trimStart).
Qed.

Lemma queryLines_join (lines : list string) :
  Forall (λ line, cleanText line = true) lines →
  queryLines (join NL lines) = lines.
Proof.
  intros Hall. destruct lines as [|l lines]; [done|].
  unfold queryLines. rewrite split_join.
  - rewrite <- (filter_nonEmpty (l :: lines)) at 2.
    + f_equal. apply list_eq. intros i. rewrite list_lookup_fmap.
      destruct ((l :: lines) !! i) as [x|] eqn:Hx; [|done]. cbn.
      rewrite Forall_forall in Hall.
      apply list_elem_of_lookup_2, Hall, cleanText_spec in Hx as (_ & -> & _). done.
    + eapply Forall_impl; [done|]. by intros x (? & _)%cleanText_spec.
  - done.
  - apply forallb_forall. intros x Hx%list_elem_of_In.
    rewrite Forall_forall in Hall.
    apply Hall, cleanText_spec in Hx as (_ & _ & Hx). unfold noLF. by rewrite Hx.
Qed.

(** X12. Only the trimmed, non-empty lines of a base query count:
    each of them is non-empty, has no white space around it and no line
    feed in it; the text made of these lines has the same lines and
    parses to the same query, so indentation, trailing white space and
    blank lines make no difference. *)
Theorem initial_query_line_normal_form :
  ∀ (query : string) (this : SQLQuery),
    let normal := join NL (queryLines query) in
    Forall (λ line, line ≠ "" ∧ trim line = line ∧ hasChar LF line = false)
      (queryLines query)
    ∧ queryLines normal = queryLines query
    ∧ parseInitialQuery normal this = parseInitialQuery query this.
Proof.
  intros query this normal. unfold normal.
  pose proof (queryLines_clean query) as Hc.
  split_and!.
  - eapply Forall_impl; [done|]. intros x (Hne & ? & ?)%cleanText_spec.
    split_and!; try done. by intros ->.
  - by apply queryLines_join.
  - unfold parseInitialQuery, parseInitialParts. by rewrite queryLines_join.
Qed.

(** ** Rendering and parsing again *)

Lemma renderedFields_field (fields : list string) :
  fl_field <$> renderedFields fields = fields.
Proof.
  induction fields as [|f [|g rest] IH]; [done..|].
  change (renderedFields (f :: g :: rest))
    with (mkFieldLine false f true :: renderedFields (g :: rest)).
  by rewrite fmap_cons, IH.
Qed.

Lemma renderedFields_clean (ls : list FieldLine) :
  forallb cleanField ls = true →
  forallb cleanField (renderedFields (fl_field <$> ls)) = true.
Proof.
  induction ls as [|l [|l' ls] IH]; [done| |].
  - intros Hl. cbn [forallb] in Hl. rewrite andb_true_r in Hl.
    change (forallb cleanField [mkFieldLine false (fl_field l) false] = true).
    cbn [forallb]. rewrite andb_true_r. exact Hl.
  - intros [Hl Hls]%andb_true_iff. specialize (IH Hls).
    change (renderedFields (fl_field <$> l :: l' :: ls))
      with (mkFieldLine false (fl_field l) true
            :: renderedFields (fl_field <$> l' :: ls)).
    cbn [forallb]. rewrite IH, andb_true_r. exact Hl.
Qed.

Lemma renderedStatement_valid (st : Statement) :
  validStatement st = true → st_first st = None →
  validStatement (renderedStatement st) = true.
Proof.
  intros (H1 & H2 & H3 & H4 & H5 & H6 & H7 & H8 & H9)%validStatement_spec Hf.
  unfold validStatement, renderedStatement.
  cbn [st_first st_fields st_from st_joins st_where st_groupBy st_orderBy
       st_limit st_offset].
  rewrite renderedFields_clean, H3, H4, H5, H6, H7, H8, H9 by done.
  by destruct (0 <? length (fl_field <$> st_fields st)).
Qed.

Lemma renderedStatement_parts (st : Statement) :
  st_first st = None →
  statementParts (renderedStatement st)
  = if 0 <? length (select (statementParts st)) then statementParts st
    else set_select ["*"] (statementParts st).
Proof.
  intros Hf. unfold statementParts, renderedStatement.
  cbn [st_first st_fields st_from st_joins st_where st_groupBy st_orderBy
       st_limit st_offset select].
  rewrite Hf, renderedFields_field. cbn [option_list app].
  destruct (fl_field <$> st_fields st); reflexivity.
Qed.

Lemma join_cons (sep x : string) (l : list string) :
  l ≠ [] → join sep (x :: l) = x +:+ sep +:+ join sep l.
Proof. by destruct l. Qed.

Lemma join_app (sep : string) (l k : list string) :
  l ≠ [] → k ≠ [] → join sep (l ++ k) = join sep l +:+ sep +:+ join sep k.
Proof.
  intros Hl Hk. induction l as [|x [|y l] IH]; [done| |].
  - cbn [app]. by rewrite join_cons.
  - rewrite <- app_comm_cons, !join_cons, IH by done.
    by rewrite !append_assoc.
Qed.

(** Blocks that hold several lines flatten to the lines. *)
Lemma join_blocks (groups : list (list string)) :
  Forall (λ g, g ≠ []) groups →
  join NL (join NL <$> groups) = join NL (concat groups).
Proof.
  induction 1 as [|g [|g' groups] Hg Hgs IH]; [done| |].
  - cbn. by rewrite app_nil_r.
  - change (concat (g :: g' :: groups)) with (g ++ concat (g' :: groups)).
    rewrite fmap_cons, join_cons by done.
    rewrite join_app, IH; [done..|].
    inversion Hgs; subst. cbn. by destruct g'.
Qed.

Lemma join_fields (fields : list string) :
  fields ≠ [] →
  join NL (fieldLineText <$> renderedFields fields)
  = "  " +:+ join ("," +:+ NL +:+ "  ") fields.
Proof.
  induction fields as [|f [|g rest] IH]; [done| |]; intros _.
  - cbn. by rewrite append_empty.
  - change (renderedFields (f :: g :: rest))
      with (mkFieldLine false f true :: renderedFields (g :: rest)).
    rewrite fmap_cons, join_cons by (by destruct rest).
    rewrite IH, (join_cons _ f) by done.
    unfold fieldLineText. cbn [fl_lead fl_field fl_trail].
    change ("" +:+ f +:+ ",") with (f +:+ ",").
    by rewrite !append_assoc.
Qed.

Lemma join_indent (conts : list string) :
  conts ≠ [] →
  join NL ((λ w, "  " +:+ w) <$> conts) = "  " +:+ join (NL +:+ "  ") conts.
Proof.
  induction conts as [|w [|w' conts] IH]; [done| |]; intros _; [done|].
  rewrite fmap_cons, join_cons, IH, (join_cons _ w) by done.
  by rewrite !append_assoc.
Qed.

Lemma join_where (conds : list string) :
  conds ≠ [] →
  join NL (whereLines conds) = "WHERE " +:+ join (NL +:+ "  ") conds.
Proof.
  destruct conds as [|c [|w conts]]; [done| |]; intros _; [done|].
  cbn [whereLines]. rewrite join_cons, join_indent, (join_cons _ c) by done.
  by rewrite !append_assoc.
Qed.

Lemma optBlock_group (l g : list string) :
  optBlock (0 <? length l) (join NL g)
  = join NL <$> (if 0 <? length l then [g] else []).
Proof. by destruct (0 <? length l). Qed.

Lemma optLine_group (keyword : string) (v : option string) :
  optLine keyword v = join NL <$> ((λ x, [x]) <$> optLine keyword v).
Proof. by destruct v. Qed.

Lemma optLine_concat (keyword : string) (v : option string) :
  concat ((λ x, [x]) <$> optLine keyword v) = optLine keyword v.
Proof. by destruct v. Qed.

Lemma optLine_groups (keyword : string) (v : option string) :
  Forall (λ g : list string, g ≠ []) ((λ x, [x]) <$> optLine keyword v).
Proof. destruct v; by repeat constructor. Qed.

(** The text [toString] gives for the buckets of a statement is the
    statement written as [renderedStatement] has it. *)
Lemma statementText_rendered (st : Statement) :
  st_first st = None →
  join NL (statementBlocks st) = statementText (renderedStatement st).
Proof.
  intros Hf. unfold statementText.
  set (fields := fl_field <$> st_fields st).
  pose (G :=
    [[if 0 <? length fields then "SELECT" else "SELECT *"]
       ++ (fieldLineText <$> renderedFields fields)]
    ++ [["FROM " +:+ st_from st]]
    ++ (if 0 <? length (st_joins st) then [st_joins st] else [])
    ++ (if 0 <? length (st_where st) then [whereLines (st_where st)] else [])
    ++ ((λ x, [x]) <$> optLine "GROUP BY " (st_groupBy st))
    ++ ((λ x, [x]) <$> optLine "ORDER BY " (st_orderBy st))
    ++ ((λ x, [x]) <$> optLine "LIMIT " (st_limit st))
    ++ ((λ x, [x]) <$> optLine "OFFSET " (st_offset st))).
  assert (Hsel : selectBlock (statementParts st)
    = [join NL ([if 0 <? length fields then "SELECT" else "SELECT *"]
         ++ (fieldLineText <$> renderedFields fields))]).
  { unfold selectBlock, statementParts. cbn [select]. rewrite Hf.
    cbn [option_list app]. fold fields.
    destruct fields as [|f rest]; [done|].
    change (0 <? length (f :: rest)) with true. cbv iota.
    cbn [app]. rewrite join_cons by (by destruct rest).
    by rewrite join_fields. }
  assert (Hwhere :
    optBlock (0 <? length (st_where st))
      ("WHERE " +:+ join (NL +:+ "  ") (st_where st))
    = join NL <$> (if 0 <? length (st_where st)
                   then [whereLines (st_where st)] else [])).
  { destruct (st_where st) as [|c conts] eqn:E; [done|].
    change (0 <? length (c :: conts)) with true. cbv iota.
    cbn [optBlock fmap list_fmap]. by rewrite join_where. }
  assert (HB : statementBlocks st = join NL <$> G).
  { rewrite statementBlocks_code. unfold G.
    rewrite !fmap_app, <- !optLine_group, <- optBlock_group, <- Hwhere, Hsel.
    reflexivity. }
  assert (HL : statementLines (renderedStatement st) = concat G).
  { unfold statementLines, renderedStatement, G.
    cbn [st_first st_fields st_from st_joins st_where st_groupBy st_orderBy
         st_limit st_offset].
    fold fields. rewrite !concat_app, !optLine_concat.
    assert (Hj : concat (if 0 <? length (st_joins st) then [st_joins st] else [])
                 = st_joins st)
      by (destruct (st_joins st); [done|cbn; by rewrite app_nil_r]).
    assert (Hw : concat (if 0 <? length (st_where st)
                         then [whereLines (st_where st)] else [])
                 = whereLines (st_where st))
      by (destruct (st_where st); [done|cbn - [whereLines]; by rewrite app_nil_r]).
    rewrite Hj, Hw. cbn [concat]. rewrite !app_nil_r, <- !app_assoc.
    by destruct (0 <? length fields). }
  assert (HG : Forall (λ g : list string, g ≠ []) G).
  { unfold G. rewrite !Forall_app. split_and!; try apply optLine_groups.
    - by repeat constructor.
    - by repeat constructor.
    - destruct (st_joins st); by repeat constructor.
    - destruct (st_where st); by repeat constructor. }
  rewrite HB, HL. by apply join_blocks.
Qed.

(** X13. Rendering and parsing again.  For a query parsed from a
    statement written one clause per line with its fields under a bare
    SELECT line, parsing the rendered text gives the same query back,
    with one exception: an empty field list is rendered [SELECT *] and
    comes back as the one field [*].  With at least one field the
    rendered text is a fixed point of parse-and-render. *)
Theorem render_parse_round_trip :
  ∀ st : Statement,
    validStatement st = true →
    st_first st = None →
    let q := parseInitialQuery (statementText st) emptyQuery in
    parseInitialQuery (toString q) emptyQuery
    = (if 0 <? length (select (parts q)) then q
       else with_parts (set_select ["*"]) q)
    ∧ (0 < length (select (parts q)) →
       toString (parseInitialQuery (toString q) emptyQuery) = toString q).
Proof.
  intros st Hst Hf q.
  assert (Hq : q = mkQuery (statementParts st) ∅ 0).
  { subst q. unfold parseInitialQuery, with_parts, parseInitialParts.
    cbn [parts params paramCounter emptyQuery].
    by rewrite queryLines_statement, parseLines_statement. }
  assert (Hround : parseInitialQuery (toString q) emptyQuery
    = (if 0 <? length (select (parts q)) then q
       else with_parts (set_select ["*"]) q)).
  { rewrite Hq. unfold toString, renderParts. cbn [parts].
    rewrite renderBlocks_statement, statementText_rendered by done.
    unfold parseInitialQuery at 1, with_parts, parseInitialParts.
    cbn [parts params paramCounter emptyQuery].
    rewrite queryLines_statement, parseLines_statement
      by (by apply renderedStatement_valid).
    rewrite renderedStatement_parts by done.
    by destruct (0 <? length (select (statementParts st))). }
  split; [done|]. intros Hpos. rewrite Hround.
  apply Nat.ltb_lt in Hpos. by rewrite Hpos.
Qed.

Lemma render_parse_round_trip_witness :
  let st :=
    mkStatement None [mkFieldLine true "id" false; mkFieldLine false "name" true]
      "users" ["JOIN orders ON users.id = orders.user_id"]
      ["id = 1"; "AND name = 'John'"] (Some "department") (Some "name DESC")
      (Some "10") (Some "20") in
  let q := parseInitialQuery (statementText st) emptyQuery in
  parseInitialQuery (toString q) emptyQuery
  = (if 0 <? length (select (parts q)) then q
     else with_parts (set_select ["*"]) q)
  ∧ (0 < length (select (parts q)) →
     toString (parseInitialQuery (toString q) emptyQuery) = toString q).
Proof.
  intros st q. apply (render_parse_round_trip st); reflexivity.
Defined.

(** ** Fragments of different clauses *)

(** X14. Fragments that go to different clauses can be added in
    either order: when neither starts a SELECT statement and
    [parseQuery] sends them to different fields of [parts], the two
    orders give the same query. *)
Theorem fragments_of_different_clauses_commute :
  ∀ (a b : string) (this : SQLQuery),
    fragmentClause a ≠ "select" →
    fragmentClause b ≠ "select" →
    fragmentClause a ≠ fragmentClause b →
    parseQuery a (parseQuery b this) = parseQuery b (parseQuery a this).
Proof.
  intros a b this. unfold parseQuery, with_parts, fragmentClause, parseQueryParts.
  cbv zeta. cbn [parts params paramCounter].
  repeat match goal with
         | |- context [if startsWith ?s ?k then _ else _] =>
             destruct (startsWith s k)
         | |- context [if isJoin ?s then _ else _] => destruct (isJoin s)
         end.
  all: intros Ha Hb Hab; try done.
  all: cbn [where_ joins groupBy orderBy set_from set_joins set_where set_groupBy
            set_orderBy set_limit set_offset select from limit offset].
  all: destruct (0 <? length (where_ (parts this))); reflexivity.
Qed.

Lemma fragments_of_different_clauses_commute_witness :
  parseQuery "LIMIT 5" (parseQuery "active = true" emptyQuery)
  = parseQuery "active = true" (parseQuery "LIMIT 5" emptyQuery).
Proof.
  apply (fragments_of_different_clauses_commute "LIMIT 5" "active = true"
           emptyQuery).
  - vm_compute. discriminate.
  - vm_compute. discriminate.
  - vm_compute. discriminate.
Defined.

(** ** The command-line tool *)

Lemma applyArgs_sim σ0 this args :
  ∀ q σ,
    Store.extends σ0 this q σ →
    Store.wp (Store.applyArgs this args) σ
      (λ _, Store.extends σ0 this
              (fold_left (λ q f, parseQuery f q) (argFragments args) q)).
Proof.
  cut ((∀ q σ, Store.extends σ0 this q σ →
          Store.wp (Store.applyArgs this args) σ
            (λ _, Store.extends σ0 this
                    (fold_left (λ q f, parseQuery f q) (argFragments args) q)))
       ∧ ∀ arg q σ, Store.extends σ0 this q σ →
          Store.wp (Store.applyArgs this (arg :: args)) σ
            (λ _, Store.extends σ0 this
                    (fold_left (λ q f, parseQuery f q)
                       (argFragments (arg :: args)) q))).
  { by intros [H _]. }
  induction args as [|a rest [IH1 IH2]].
  - split; [by intros; apply wp_ret|].
    intros arg q σ H. cbn [Store.applyArgs argFragments].
    destruct (Store.clauseOfFlag arg); by apply wp_ret.
  - split; [by apply IH2|].
    intros arg q σ H.
    change (Store.applyArgs this (arg :: a :: rest))
      with (match Store.clauseOfFlag arg with
            | Some clause =>
                Store.parseQuery this (clause +:+ " " +:+ a) ;;
                Store.applyArgs this rest
            | None => Store.applyArgs this (a :: rest)
            end).
    change (argFragments (arg :: a :: rest))
      with (match Store.clauseOfFlag arg with
            | Some clause => (clause +:+ " " +:+ a) :: argFragments rest
            | None => argFragments (a :: rest)
            end).
    destruct (Store.clauseOfFlag arg) as [clause|]; [|by apply IH2].
    apply wp_bind. eapply wp_mono; [by apply parseQuery_sim|]. cbv beta.
    intros _ σ1 H1. cbn [fold_left]. by apply IH1.
Qed.

Lemma fold_parseQuery_params (fragments : list string) (q : SQLQuery) :
  params (fold_left (λ q f, parseQuery f q) fragments q) = params q.
Proof. revert q. induction fragments as [|f fs IH]; intros q; [done|]. cbn. by rewrite IH. Qed.

(** Once [main] has a base text it runs to the end and prints the
    text of the base query extended with the fragments of the clause
    flags, and no parameters. *)
Lemma cliOutput_spec :
  ∀ (σ : Store.store) (baseQuery : string) (args : list string),
    let q := fold_left (λ q f, parseQuery f q) (argFragments args)
               (parseInitialQuery baseQuery emptyQuery) in
    ∃ σ' : Store.store,
      cliOutput baseQuery args σ = Some ((toString q, None), σ')
      ∧ Store.cli baseQuery args σ = Some (toString q, σ')
      ∧ parameters q = []
      ∧ Store.incl σ σ'.
Proof.
  intros σ baseQuery args q.
  assert (Hps : parameters q = []).
  { unfold parameters. subst q. by rewrite fold_parseQuery_params. }
  assert (Hwp : Store.wp
    (query ← Store.newSQLQuery None;
     Store.parseInitialQuery query baseQuery ;;
     Store.applyArgs query args ;;
     mret query) σ
    (λ query σ', Store.extends σ query q σ')).
  { apply wp_bind. eapply wp_mono; [by apply newSQLQuery_sim|]. cbv beta.
    intros query σ1 H1. cbn [newSQLQuery] in H1.
    apply wp_bind. eapply wp_mono; [by apply parseInitialQuery_sim|]. cbv beta.
    intros _ σ2 H2.
    apply wp_bind. eapply wp_mono; [by apply applyArgs_sim|]. cbv beta.
    intros _ σ3 H3. by apply wp_ret. }
  destruct Hwp as (query & σ' & Hrun & Hincl & Hrepr%repr_snapshot).
  exists σ'.
  pose proof (toString_snapshot _ _ _ Hrepr) as Htext.
  pose proof (parameters_snapshot _ _ _ Hrepr) as Hparams.
  unfold cliOutput, Store.cli.
  unfold mbind, Store.M_bind, mret, Store.M_ret in Hrun |- *.
  destruct (Store.newSQLQuery None σ) as [[query0 σ1]|]; [|done].
  cbn in Hrun |- *.
  destruct (Store.parseInitialQuery query0 baseQuery σ1) as [[[] σ2]|]; [|done].
  cbn in Hrun |- *.
  destruct (Store.applyArgs query0 args σ2) as [[[] σ3]|]; [|done].
  cbn in Hrun |- *. injection Hrun as -> ->.
  rewrite Htext. cbn. rewrite Hparams, Hps. done.
Qed.

(** X15. The command-line tool, for every result of [parseArgs],
    every outcome of reading the file, every store and every argument
    list.  With [--help], or with neither a file nor a query, it
    prints the help text and stops.  With a file that cannot be read
    it reports the error and stops.  Otherwise it runs to the end and
    prints the text of the base query (the text of the file, or else
    the query given) extended with the fragments of its clause flags in
    their order (a flag takes the next argument as its condition, a
    flag in last position and every other argument are skipped); it
    keeps the cells of the store and prints no parameter section, as
    the query it builds has no parameters. *)
Theorem cli_output :
  ∀ (parseArgs : list string → ParsedArgs)
    (readTextFile : string → string + string)
    (σ : Store.store) (args : list string),
    let parsed := parseArgs args in
    (a_help parsed = true
     ∨ (given (a_file parsed) = false ∧ given (a_query parsed) = false) →
     main parseArgs readTextFile args σ = Some (ShowHelp, σ))
    ∧ (∀ file message : string,
         a_help parsed = false →
         a_file parsed = Some file → file ≠ "" →
         readTextFile file = inr message →
         main parseArgs readTextFile args σ
         = Some (Failed ("Error reading file: " +:+ message), σ))
    ∧ (∀ baseQuery : string,
         a_help parsed = false →
         (∃ file, a_file parsed = Some file ∧ file ≠ ""
                  ∧ readTextFile file = inl baseQuery)
         ∨ (given (a_file parsed) = false
            ∧ a_query parsed = Some baseQuery ∧ baseQuery ≠ "") →
         let q := fold_left (λ q f, parseQuery f q) (argFragments args)
                    (parseInitialQuery baseQuery emptyQuery) in
         ∃ σ' : Store.store,
           main parseArgs readTextFile args σ
           = Some (Printed (toString q) None, σ')
           ∧ parameters q = []
           ∧ Store.incl σ σ').
Proof.
  intros parseArgs readTextFile σ args parsed. split_and!.
  - intros H. unfold main. fold parsed.
    destruct H as [->|[-> ->]]; [done|]. by rewrite orb_true_r.
  - intros file message Hhelp Hfile Hne Hread. unfold main. fold parsed.
    assert (Hgiven : given (a_file parsed) = true)
      by (rewrite Hfile; by destruct file).
    rewrite Hhelp, Hgiven, Hfile. cbn [orb negb andb].
    change (default "" (Some file)) with file. by rewrite Hread.
  - intros baseQuery Hhelp Hbase q.
    destruct (cliOutput_spec σ baseQuery args) as (σ' & Hrun & _ & Hps & Hincl).
    exists σ'. split_and!; [|done..].
    unfold main. fold parsed. rewrite Hhelp.
    destruct Hbase as [(file & Hfile & Hne & Hread)|(Hnofile & Hquery & Hne)].
    + assert (Hgiven : given (a_file parsed) = true)
        by (rewrite Hfile; by destruct file).
      rewrite Hgiven, Hfile. cbn [orb negb andb].
      change (default "" (Some file)) with file.
      rewrite Hread. unfold mbind, Store.M_bind. by rewrite Hrun.
    + assert (Hgiven : given (a_query parsed) = true)
        by (rewrite Hquery; by destruct baseQuery).
      rewrite Hnofile, Hgiven, Hquery. cbn [orb negb andb].
      change (default "" (Some baseQuery)) with baseQuery.
      unfold mbind, Store.M_bind. by rewrite Hrun.
Qed.

Lemma cli_output_witness :
  let args := ["--query"; "SELECT id, name FROM users"; "--where"; "active = true";
               "--limit"; "10"; "--offset"] in
  main (λ _, mkParsedArgs true None (Some "SELECT id, name FROM users"))
    (λ _, inr "No such file") args Store.emptyStore
  = Some (ShowHelp, Store.emptyStore)
  ∧ ∃ σ' : Store.store,
      main (λ _, mkParsedArgs false None (Some "SELECT id, name FROM users"))
        (λ _, inr "No such file") args Store.emptyStore
      = Some (Printed ("SELECT" +:+ NL +:+ "  id, name FROM users" +:+ NL
                       +:+ "WHERE active = true" +:+ NL +:+ "LIMIT 10") None, σ')
      ∧ parameters
          (fold_left (λ q f, parseQuery f q) (argFragments args)
             (parseInitialQuery "SELECT id, name FROM users" emptyQuery)) = []
      ∧ Store.incl Store.emptyStore σ'.
Proof.
  intros args. split.
  - apply (proj1 (cli_output
                    (λ _, mkParsedArgs true None (Some "SELECT id, name FROM users"))
                    (λ _, inr "No such file") Store.emptyStore args)).
    left. reflexivity.
  - apply (proj2 (proj2 (cli_output
                    (λ _, mkParsedArgs false None (Some "SELECT id, name FROM users"))
                    (λ _, inr "No such file") Store.emptyStore args))
             "SELECT id, name FROM users" eq_refl).
    right. split_and!; [reflexivity|reflexivity|discriminate].
Defined.

(** ** New objects and the queries of the store *)

Lemma textOf_incl σ σ' l ql :
  Store.incl σ σ' → Store.snapshot σ l = Some ql →
  Store.textOf σ' l = Store.textOf σ l.
Proof.
  intros Hincl Hl.
  by rewrite (textOf_snapshot _ _ _ Hl),
    (textOf_snapshot _ _ _ (snapshot_incl _ _ _ _ Hincl Hl)).
Qed.

Lemma extends_fresh σ this q σ' :
  Store.extends σ this q σ' → Store.queries σ !! this = None.
Proof.
  intros [_ Hrepr].
  by destruct Hrepr as (? & ? & ? & ? & ? & ? & ? & ? & ? & ? & ? & ? & ? & ? & ?
                        & ? & _).
Qed.

(** X16. The constructor, on the store: [new SQLQuery(...)] (and so
    the exported function [sql]) runs to the end, returns an object
    that was not in the store, with the value the by-value constructor
    gives; every query of the store keeps its value and its text. *)
Theorem constructor_builds_fresh_query :
  ∀ (σ : Store.store) (template : option (list string * list Value)),
    (if template is Some (_, values) then Forall (Store.valueOk σ) values
     else True) →
    ∃ (this : loc) (σ' : Store.store),
      Store.newSQLQuery template σ = Some (this, σ')
      ∧ Store.queries σ !! this = None
      ∧ Store.snapshot σ' this = Some (newSQLQuery (Store.textOf σ) template)
      ∧ Store.incl σ σ'
      ∧ ∀ l ql, Store.snapshot σ l = Some ql →
                Store.snapshot σ' l = Some ql
                ∧ Store.textOf σ' l = Store.textOf σ l.
Proof.
  intros σ template Hvalues.
  destruct (newSQLQuery_sim σ template Hvalues) as (this & σ' & Hrun & Hext).
  exists this, σ'. split; [done|]. split; [by eapply extends_fresh|].
  destruct Hext as [Hincl Hrepr]. split; [by eapply repr_snapshot|].
  split; [done|]. intros l ql Hl.
  split; [by eapply snapshot_incl|by eapply textOf_incl].
Qed.

Lemma constructor_builds_fresh_query_witness :
  let template := Some (["SELECT * FROM ("; ") AS t"], [VQuery 1%positive]) in
  ∃ (this : loc) (σ' : Store.store),
    Store.newSQLQuery template Store.exampleStore = Some (this, σ')
    ∧ Store.queries Store.exampleStore !! this = None
    ∧ Store.snapshot σ' this
      = Some (newSQLQuery (Store.textOf Store.exampleStore) template)
    ∧ Store.incl Store.exampleStore σ'
    ∧ ∀ l ql, Store.snapshot Store.exampleStore l = Some ql →
              Store.snapshot σ' l = Some ql
              ∧ Store.textOf σ' l = Store.textOf Store.exampleStore l.
Proof.
  intros template.
  apply (constructor_builds_fresh_query Store.exampleStore template).
  constructor; [by exists Store.exampleQuery|constructor].
Defined.

Lemma interpolateStep_ext (f g : loc → string) acc str gap :
  (∀ l, gap = Some (VQuery l) → f l = g l) →
  interpolateStep f acc str gap = interpolateStep g acc str gap.
Proof.
  intros H. destruct acc as [result this].
  destruct gap as [[]|]; cbn; try done. by rewrite (H _ eq_refl).
Qed.

Lemma interpolateFrom_ext (f g : loc → string) strings values :
  (∀ l, VQuery l ∈ values → f l = g l) →
  ∀ i acc,
    interpolateFrom f i strings values acc = interpolateFrom g i strings values acc.
Proof.
  intros H. induction strings as [|str rest IH]; intros i acc; [done|].
  cbn [interpolateFrom]. rewrite IH. f_equal. apply interpolateStep_ext.
  intros l Hl. apply H. by eapply list_elem_of_lookup_2.
Qed.

Lemma sql_ext (f g : loc → string) strings values q :
  (∀ l, VQuery l ∈ values → f l = g l) →
  sql f strings values q = sql g strings values q.
Proof.
  intros H. unfold sql, _interpolate. by rewrite (interpolateFrom_ext f g).
Qed.

(** X17. Two extensions of one query do not see each other: both
    calls of [sql] run to the end and return two new, different
    objects; the second has the value of the extension of the base as
    it was (as if the first call had not been made), and the base still
    has its value. *)
Theorem extensions_of_one_base_are_independent :
  ∀ (σ : Store.store) (base : loc) (q : SQLQuery)
    (strings1 : list string) (values1 : list Value)
    (strings2 : list string) (values2 : list Value),
    Store.snapshot σ base = Some q →
    Forall (Store.valueOk σ) values1 →
    Forall (Store.valueOk σ) values2 →
    ∃ (first second : loc) (σ' : Store.store),
      extendTwice base strings1 values1 strings2 values2 σ
        = Some ((first, second), σ')
      ∧ first ≠ second ∧ first ≠ base ∧ second ≠ base
      ∧ Store.snapshot σ' first = Some (sql (Store.textOf σ) strings1 values1 q)
      ∧ Store.snapshot σ' second = Some (sql (Store.textOf σ) strings2 values2 q)
      ∧ Store.snapshot σ' base = Some q.
Proof.
  intros σ base q strings1 values1 strings2 values2 Hbase Hv1 Hv2.
  destruct (sql_sim σ base q strings1 values1 Hbase Hv1)
    as (first & σ1 & Hrun1 & Hext1).
  pose proof (extends_fresh _ _ _ _ Hext1) as Hfresh1.
  destruct Hext1 as [Hincl1 Hfirst%repr_snapshot].
  pose proof (snapshot_incl _ _ _ _ Hincl1 Hbase) as Hbase1.
  assert (Hv2' : Forall (Store.valueOk σ1) values2).
  { eapply Forall_impl; [exact Hv2|]. intros [] Hv; try done.
    destruct Hv as [ql Hl]. exists ql. by eapply snapshot_incl. }
  destruct (sql_sim σ1 base q strings2 values2 Hbase1 Hv2')
    as (second & σ2 & Hrun2 & Hext2).
  pose proof (extends_fresh _ _ _ _ Hext2) as Hfresh2.
  destruct Hext2 as [Hincl2 Hsecond%repr_snapshot].
  exists first, second, σ2.
  apply snapshot_spec in Hbase as Hb. destruct Hb as (qo & ? & Hqo & _).
  apply snapshot_spec in Hfirst as Hf. destruct Hf as (qo1 & ? & Hqo1 & _).
  split_and!.
  - unfold extendTwice, mbind, Store.M_bind. rewrite Hrun1. cbn.
    by rewrite Hrun2.
  - intros ->. congruence.
  - intros ->. congruence.
  - intros ->. destruct Hincl1 as (_ & _ & _ & Hq).
    pose proof (lookup_weaken _ _ _ _ Hqo Hq). congruence.
  - by eapply snapshot_incl.
  - rewrite Hsecond. f_equal. apply sql_ext. intros l Hl.
    rewrite Forall_forall in Hv2. destruct (Hv2 _ Hl) as [ql Hql].
    by eapply textOf_incl.
  - by eapply snapshot_incl.
Qed.

Lemma extensions_of_one_base_are_independent_witness :
  ∃ (first second : loc) (σ' : Store.store),
    extendTwice 1%positive ["WHERE id = "; ""] [VNumber 1]
      ["WHERE name = "; ""] [VString "John"] Store.exampleStore
      = Some ((first, second), σ')
    ∧ first ≠ second ∧ first ≠ 1%positive ∧ second ≠ 1%positive
    ∧ Store.snapshot σ' first
      = Some (sql (Store.textOf Store.exampleStore) ["WHERE id = "; ""]
                [VNumber 1] Store.exampleQuery)
    ∧ Store.snapshot σ' second
      = Some (sql (Store.textOf Store.exampleStore) ["WHERE name = "; ""]
                [VString "John"] Store.exampleQuery)
    ∧ Store.snapshot σ' 1%positive = Some Store.exampleQuery.
Proof.
  apply (extensions_of_one_base_are_independent Store.exampleStore 1%positive
           Store.exampleQuery).
  - reflexivity.
  - repeat constructor.
  - repeat constructor.
Defined.

(** ** The older copy: numbered names *)

(** X18. The older copy of the class names the parameter of a
    primitive value [p<n>] with [n] the counter before the call, stores
    the value under that name, adds one to the counter, and leaves the
    parameter of every other number as it was. *)
Theorem legacy_primitive_takes_fresh_name :
  ∀ (textOf : loc → string) (result str : string) (this : Legacy.State)
    (value : Value) (k : nat),
    isPrimitive value = true →
    k ≠ Legacy.paramCounter this →
    let '(text, this') :=
      Legacy.interpolateStep textOf (result, this) str (Some value) in
    text = result +:+ str +:+ ":" +:+ "p" +:+ pretty (Legacy.paramCounter this)
    ∧ Legacy.paramCounter this' = S (Legacy.paramCounter this)
    ∧ Legacy.params this' !! ("p" +:+ pretty (Legacy.paramCounter this)) = Some value
    ∧ Legacy.params this' !! ("p" +:+ pretty k)
      = Legacy.params this !! ("p" +:+ pretty k).
Proof.
  intros textOf result str this value k Hprim Hk.
  destruct value; try discriminate Hprim.
  all: cbn [Legacy.interpolateStep isPrimitive Legacy.params Legacy.paramCounter].
  all: split_and!; [done|done|apply lookup_insert_eq|].
  all: apply lookup_insert_ne; intros [= H%(inj pretty)]; done.
Qed.

Lemma legacy_primitive_takes_fresh_name_witness :
  let '(text, this') :=
    Legacy.interpolateStep (λ _, "") ("WHERE id = ", Legacy.mkState ∅ 1) ""
      (Some (VNumber 7)) in
  text = "WHERE id = " +:+ "" +:+ ":" +:+ "p" +:+ pretty 1
  ∧ Legacy.paramCounter this' = 2
  ∧ Legacy.params this' !! ("p" +:+ pretty 1) = Some (VNumber 7)
  ∧ Legacy.params this' !! ("p" +:+ pretty 0)
    = (∅ : gmap string Value) !! ("p" +:+ pretty 0).
Proof.
  apply (legacy_primitive_takes_fresh_name (λ _, "") "WHERE id = " ""
           (Legacy.mkState ∅ 1) (VNumber 7) 0); [reflexivity|cbn; lia].
Defined.
